(** * OmniPulse Go SDK: the batching and flush subsystem

    A shallow embedding of [client.go] (type [Client], [New], [Flush],
    [Close], [flushWorker], [addLog], [addSpan], [addMetric], [LogJob],
    [sendLogs], [sendSpans], [sendMetrics], [sendJob], [send], [Test]),
    of the builders of [logger.go], [tracer.go] and [metrics.go] with
    their record types, and of the middlewares of [http.go] and
    [fiber.go].

    Goroutines are modelled as a pool of threads, each with a program
    counter; one step of the machine runs one thread up to its next
    interaction with shared memory (the mutex, the buffers, the context,
    the wait group) or with the outside world (one call of [send]).  A
    schedule is a list of actions; [run] folds [step] over it. *)

From Stdlib Require Import ZArith.
From Stdlib Require Strings.Byte Strings.Ascii.
From stdpp Require Import base option list strings gmap pretty.

Local Open Scope string_scope.
Local Open Scope list_scope.
Local Open Scope Z_scope.

(** ** Data model *)

(** Go's [error] values built with [fmt.Errorf]: only the message. *)
Definition Error := string.

(** A value stored behind [interface{}] in a tag or attribute map. *)
Inductive Any :=
| AnyString (s : string)
| AnyInt (n : Z)
| AnyBool (b : bool).

(** [time.Time] as nanoseconds since the epoch, [time.Duration] as
    nanoseconds. *)
Definition Time := Z.
Definition Duration := Z.
Definition Second : Duration := 1000000000.

Definition LogLevel := string.
Definition LogLevelDebug : LogLevel := "debug".
Definition LogLevelInfo : LogLevel := "info".
Definition LogLevelWarn : LogLevel := "warn".
Definition LogLevelError : LogLevel := "error".
Definition LogLevelFatal : LogLevel := "fatal".

Module LogEntry.
Record t := mk {
  Timestamp : Time;
  Level : LogLevel;
  Message : string;
  ServiceName : string;
  TraceID : string;
  SpanID : string;
  Tags : gmap string Any;
  Host : string }.
End LogEntry.

Definition SpanStatus := string.
Definition SpanStatusOK : SpanStatus := "ok".
Definition SpanStatusError : SpanStatus := "error".

Module SpanEvent.
Record t := mk {
  Name : string;
  Timestamp : Time;
  Attributes : gmap string Any }.
End SpanEvent.

Module SpanData.
Record t := mk {
  TraceID : string;
  SpanID : string;
  ParentSpanID : string;
  Name : string;
  ServiceName : string;
  StartTime : Time;
  EndTime : Time;
  DurationNs : Z;
  Status : SpanStatus;
  StatusMessage : string;
  Attributes : gmap string Any;
  Events : list SpanEvent.t }.
End SpanData.

Definition MetricType := string.
Definition MetricTypeCounter : MetricType := "counter".
Definition MetricTypeGauge : MetricType := "gauge".
Definition MetricTypeHistogram : MetricType := "histogram".

Module MetricData.
(** [Value] is a [float64] in the source; the subsystem only carries it,
    so it is kept as the decimal text of the number. *)
Record t := mk {
  Name : string;
  Type_ : MetricType;
  Value : string;
  Timestamp : Time;
  ServiceName : string;
  Tags : gmap string string;
  Dimensions : gmap string Any }.
End MetricData.

Module JobData.
Record t := mk {
  JobName : string;
  Queue : string;
  DurationMs : Z;
  WaitTimeMs : Z;
  Status : string;
  Error : string;
  Ts : string }.

Definition with_Ts (ts : string) (j : t) : t :=
  mk (JobName j) (Queue j) (DurationMs j) (WaitTimeMs j) (Status j)
     (Error j) ts.
End JobData.

(** The four event kinds and a record of any kind. *)
Inductive Kind := KLog | KSpan | KMetric | KJob.

Inductive Rec :=
| RLog (entry : LogEntry.t)
| RSpan (span : SpanData.t)
| RMetric (metric : MetricData.t)
| RJob (job : JobData.t).

Definition kind_of (r : Rec) : Kind :=
  match r with
  | RLog _ => KLog | RSpan _ => KSpan | RMetric _ => KMetric | RJob _ => KJob
  end.

Global Instance Kind_eq_dec : EqDecision Kind.
Proof. solve_decision. Defined.

(** ** Configuration and client *)

Module Config.
Record t := mk {
  APIUrl : string;
  IngestKey : string;
  Environment : string;
  ServiceName : string;
  Version : string;
  Debug : bool;
  BatchSize : Z;
  FlushInterval : Duration;
  Timeout : Duration }.
End Config.

Definition Version : string := "1.1.0".

(** The fields of [Client] that the subsystem reads or writes.  The mutex
    [bufferMu] holds the id of the thread that locked it; [ctx] is [true]
    once [cancel] has been called; [wg] is the wait group's counter;
    [httpClient] is the client's [Timeout]. *)
Record Client := mkClient {
  config : Config.t;
  httpClient : Duration;
  logBuffer : list LogEntry.t;
  spanBuffer : list SpanData.t;
  metricBuffer : list MetricData.t;
  jobBuffer : list JobData.t;
  bufferMu : option nat;
  ctx : bool;
  wg : nat }.

(** [make([]T, 0, n)]: panics ([None]) on a negative capacity. *)
Definition make {T : Type} (n : Z) : option (list T) :=
  if n <? 0 then None else Some [].

(** ** Transport *)

(** What [send] is asked to serialise: the envelopes built by [sendLogs],
    [sendSpans] and [sendMetrics] are one-key maps
    [map[string]interface{}{key: slice}]; [sendJob] passes the bare
    [JobData]. *)
Inductive Items :=
| ILogs (logs : list LogEntry.t)
| ISpans (spans : list SpanData.t)
| IMetrics (metrics : list MetricData.t).

Inductive Payload :=
| PEnvelope (key : string) (items : Items)
| PJob (job : JobData.t).

(** The request handed to [httpClient.Do]; [body] stands for the gzipped
    JSON text of the payload. *)
Record Request := mkRequest {
  method : string;
  url : string;
  header : list (string * string);
  body : Payload }.

(** The answers of the world to the library calls made by one [send]:
    [json.Marshal], [gz.Write], [gz.Close], [http.NewRequestWithContext]
    (an error message, or none), and the transport ([httpClient.Do]): a
    transport failure with its message, or the status code of the
    response. *)
Record Env := mkEnv {
  json_Marshal : option Error;
  gz_Write : option Error;
  gz_Close : option Error;
  http_NewRequest : option Error;
  http_Do : Error + Z }.

(** [httpClient.Do(req)] for a request built with the client's context:
    when the context is already cancelled the round trip returns the
    context's error before anything is written to a connection; otherwise
    the request goes on the wire and the world answers.  The first
    component is the request as seen on the wire, if any.  The error is
    [context.Canceled]; net/http hands it over inside a [*url.Error],
    which puts the method and the URL in front of its text. *)
Definition Do (cancelled : bool) (req : Request) (env : Env)
  : option Request * (Error + Z) :=
  if cancelled then (None, inl "context canceled")
  else (Some req, http_Do env).

(** One call of [send] as the machine records it: the arguments, the
    request that reached the wire (if any) and the returned error
    ([None] is Go's [nil]). *)
Record Delivery := mkDelivery {
  endpoint : string;
  payload : Payload;
  wire : option Request;
  result : option Error }.

Definition send (c : Client) (endpoint : string) (payload : Payload)
    (env : Env) : Delivery :=
  let returns := mkDelivery endpoint payload in
  match json_Marshal env with
  | Some err => returns None (Some ("failed to marshal payload: " +:+ err))
  | None =>
    match gz_Write env with
    | Some err => returns None (Some ("failed to compress payload: " +:+ err))
    | None =>
      match gz_Close env with
      | Some err =>
          returns None (Some ("failed to close gzip writer: " +:+ err))
      | None =>
        match http_NewRequest env with
        | Some err =>
            returns None (Some ("failed to create request: " +:+ err))
        | None =>
          let req :=
            {| method := "POST";
               url := Config.APIUrl (config c) +:+ endpoint;
               header :=
                 [("Content-Type", "application/json");
                  ("Content-Encoding", "gzip");
                  ("X-Ingest-Key", Config.IngestKey (config c));
                  ("User-Agent", "omnipulse-go-sdk/" +:+ Version)];
               body := payload |} in
          match Do (ctx c) req env with
          | (sent, inl err) =>
              returns sent (Some ("failed to send request: " +:+ err))
          | (sent, inr StatusCode) =>
              if 400 <=? StatusCode
              then returns sent
                     (Some ("server returned status " +:+ pretty StatusCode))
              else returns sent None
          end
        end
      end
    end
  end.

Definition sendLogs (c : Client) (logs : list LogEntry.t) :=
  send c "/api/ingest/logs" (PEnvelope "logs" (ILogs logs)).

Definition sendSpans (c : Client) (spans : list SpanData.t) :=
  send c "/api/ingest/traces" (PEnvelope "spans" (ISpans spans)).

Definition sendMetrics (c : Client) (metrics : list MetricData.t) :=
  send c "/api/ingest/app-metrics" (PEnvelope "metrics" (IMetrics metrics)).

Definition sendJob (c : Client) (job : JobData.t) :=
  send c "/api/ingest/app-job" (PJob job).

(** ** Threads *)

(** The local variables [logs], [spans], [metrics], [jobs] of [Flush]. *)
Record Snapshot := mkSnapshot {
  logs : list LogEntry.t;
  spans : list SpanData.t;
  metrics : list MetricData.t;
  jobs : list JobData.t }.

(** Program points of [Flush]; the arguments are its live locals. *)
Inductive FlushPC :=
| FLock                                            (* c.bufferMu.Lock() *)
| FSwap                                            (* the eight assignments *)
| FUnlock (snap : Snapshot)                        (* c.bufferMu.Unlock() *)
| FLogs (snap : Snapshot) (lastErr : option Error)    (* if len(logs) > 0 *)
| FSpans (snap : Snapshot) (lastErr : option Error)   (* if len(spans) > 0 *)
| FMetrics (snap : Snapshot) (lastErr : option Error) (* if len(metrics) > 0 *)
| FJobs (rest : list JobData.t) (lastErr : option Error) (* range jobs *)
| FReturn (lastErr : option Error).                (* return lastErr *)

(** Program points shared by [addLog], [addSpan], [addMetric], [LogJob]
    (after [LogJob] has filled in [Ts]). *)
Inductive AddPC :=
| ALock                          (* c.bufferMu.Lock() *)
| AAppend                        (* append; shouldFlush := len >= BatchSize *)
| AUnlock (shouldFlush : bool)   (* c.bufferMu.Unlock() *)
| AGo (shouldFlush : bool)       (* if shouldFlush { go c.Flush() } *)
| AReturn.

(** Program points of [flushWorker]. *)
Inductive WorkerPC :=
| WTicker                 (* ticker := time.NewTicker(c.config.FlushInterval) *)
| WSelect                 (* select on ticker.C and c.ctx.Done() *)
| WFlush (pc : FlushPC)   (* _ = c.Flush() *)
| WDone.                  (* returned: ticker.Stop(), c.wg.Done() have run *)

(** Program points of [Close]; it has returned at [CFlush (FReturn err)]. *)
Inductive ClosePC :=
| CCancel                 (* c.cancel() *)
| CWait                   (* c.wg.Wait() *)
| CFlush (pc : FlushPC).  (* return c.Flush() *)

Inductive Thread :=
| TAdd (r : Rec) (pc : AddPC)
| TFlush (pc : FlushPC)
| TWorker (pc : WorkerPC)
| TClose (pc : ClosePC).

(** What the machine records of a run. *)
Inductive Event :=
| EvAppend (tid : nat) (r : Rec)          (* r entered its buffer *)
| EvSwap (tid : nat) (snap : Snapshot)    (* the buffers were swapped out *)
| EvGo (tid : nat) (child : nat)          (* go c.Flush() started thread child *)
| EvSend (tid : nat) (d : Delivery).      (* one call of send *)

(** The outcome of one step of a thread at program point [PC]. *)
Inductive Result (PC : Type) :=
| Blocked
| Panics
| Steps (c : Client) (pc : PC) (evs : list Event) (out : list string)
        (forks : list Thread).
Arguments Blocked {PC}.
Arguments Panics {PC}.
Arguments Steps {PC} c pc evs out forks.

Definition set_bufferMu (mu : option nat) (c : Client) : Client :=
  mkClient (config c) (httpClient c) (logBuffer c) (spanBuffer c)
           (metricBuffer c) (jobBuffer c) mu (ctx c) (wg c).

Definition set_buffers (l : list LogEntry.t) (s : list SpanData.t)
    (m : list MetricData.t) (j : list JobData.t) (c : Client) : Client :=
  mkClient (config c) (httpClient c) l s m j (bufferMu c) (ctx c) (wg c).

Definition set_ctx (b : bool) (c : Client) : Client :=
  mkClient (config c) (httpClient c) (logBuffer c) (spanBuffer c)
           (metricBuffer c) (jobBuffer c) (bufferMu c) b (wg c).

Definition set_wg (n : nat) (c : Client) : Client :=
  mkClient (config c) (httpClient c) (logBuffer c) (spanBuffer c)
           (metricBuffer c) (jobBuffer c) (bufferMu c) (ctx c) n.

(** [c.bufferMu.Lock()] and [Unlock()] by thread [me]. *)
Definition Lock (me : nat) (c : Client) : option Client :=
  match bufferMu c with
  | None => Some (set_bufferMu (Some me) c)
  | Some _ => None
  end.

Definition Unlock (c : Client) : Client := set_bufferMu None c.

(** [len(s) > 0]. *)
Definition nonempty {T : Type} (s : list T) : bool :=
  bool_decide (0 < length s)%nat.

(** [if err := ...; err != nil { lastErr = err; if c.config.Debug { Printf } }] *)
Definition note (c : Client) (what : string) (lastErr err : option Error)
  : option Error * list string :=
  match err with
  | Some e =>
      (Some e,
       if Config.Debug (config c)
       then ["[omnipulse] failed to send " +:+ what +:+ ": " +:+ e]
       else [])
  | None => (lastErr, [])
  end.

(** The critical section of [Flush]. *)
Definition Flush_swap (c : Client) : option (Snapshot * Client) :=
  let logs := logBuffer c in
  let spans := spanBuffer c in
  let metrics := metricBuffer c in
  let jobs := jobBuffer c in
  l ← make (Config.BatchSize (config c));
  s ← make (Config.BatchSize (config c));
  m ← make (Config.BatchSize (config c));
  j ← make (Config.BatchSize (config c));
  Some (mkSnapshot logs spans metrics jobs, set_buffers l s m j c).

(** One step of [Flush], run by thread [me]. *)
Definition Flush_step (me : nat) (env : Env) (c : Client) (pc : FlushPC)
  : Result FlushPC :=
  match pc with
  | FLock =>
      match Lock me c with
      | Some c' => Steps c' FSwap [] [] []
      | None => Blocked
      end
  | FSwap =>
      match Flush_swap c with
      | Some (snap, c') => Steps c' (FUnlock snap) [EvSwap me snap] [] []
      | None => Panics
      end
  | FUnlock snap => Steps (Unlock c) (FLogs snap None) [] [] []
  | FLogs snap lastErr =>
      if nonempty (logs snap) then
        let d := sendLogs c (logs snap) env in
        let '(lastErr', out) := note c "logs" lastErr (result d) in
        Steps c (FSpans snap lastErr') [EvSend me d] out []
      else Steps c (FSpans snap lastErr) [] [] []
  | FSpans snap lastErr =>
      if nonempty (spans snap) then
        let d := sendSpans c (spans snap) env in
        let '(lastErr', out) := note c "spans" lastErr (result d) in
        Steps c (FMetrics snap lastErr') [EvSend me d] out []
      else Steps c (FMetrics snap lastErr) [] [] []
  | FMetrics snap lastErr =>
      if nonempty (metrics snap) then
        let d := sendMetrics c (metrics snap) env in
        let '(lastErr', out) := note c "metrics" lastErr (result d) in
        Steps c (FJobs (jobs snap) lastErr') [EvSend me d] out []
      else Steps c (FJobs (jobs snap) lastErr) [] [] []
  | FJobs [] lastErr => Steps c (FReturn lastErr) [] [] []
  | FJobs (job :: rest) lastErr =>
      let d := sendJob c job env in
      let '(lastErr', out) := note c "job" lastErr (result d) in
      Steps c (FJobs rest lastErr') [EvSend me d] out []
  | FReturn _ => Blocked
  end.

(** [len(buffer) >= c.config.BatchSize]. *)
Definition reached (c : Client) (len : nat) : bool :=
  Config.BatchSize (config c) <=? Z.of_nat len.

(** The critical sections of [addLog], [addSpan], [addMetric], [LogJob]:
    the client after the append, and [shouldFlush]. *)
Definition addLog_append (entry : LogEntry.t) (c : Client) : Client * bool :=
  let c' := set_buffers (logBuffer c ++ [entry]) (spanBuffer c)
                        (metricBuffer c) (jobBuffer c) c in
  (c', reached c' (length (logBuffer c'))).

Definition addSpan_append (span : SpanData.t) (c : Client) : Client * bool :=
  let c' := set_buffers (logBuffer c) (spanBuffer c ++ [span])
                        (metricBuffer c) (jobBuffer c) c in
  (c', reached c' (length (spanBuffer c'))).

Definition addMetric_append (metric : MetricData.t) (c : Client)
  : Client * bool :=
  let c' := set_buffers (logBuffer c) (spanBuffer c)
                        (metricBuffer c ++ [metric]) (jobBuffer c) c in
  (c', reached c' (length (metricBuffer c'))).

Definition LogJob_append (job : JobData.t) (c : Client) : Client * bool :=
  let c' := set_buffers (logBuffer c) (spanBuffer c)
                        (metricBuffer c) (jobBuffer c ++ [job]) c in
  (c', reached c' (length (jobBuffer c'))).

(** [LogJob] before it takes the lock: [if job.Ts == "" { job.Ts = now }]. *)
Definition LogJob_Ts (now : string) (job : JobData.t) : JobData.t :=
  if bool_decide (JobData.Ts job = "") then JobData.with_Ts now job else job.

Definition append (r : Rec) (c : Client) : Client * bool :=
  match r with
  | RLog entry => addLog_append entry c
  | RSpan span => addSpan_append span c
  | RMetric metric => addMetric_append metric c
  | RJob job => LogJob_append job c
  end.

(** One step of an append, run by thread [me]; [child] is the id the next
    started goroutine gets. *)
Definition add_step (me child : nat) (c : Client) (r : Rec) (pc : AddPC)
  : Result AddPC :=
  match pc with
  | ALock =>
      match Lock me c with
      | Some c' => Steps c' AAppend [] [] []
      | None => Blocked
      end
  | AAppend =>
      let '(c', shouldFlush) := append r c in
      Steps c' (AUnlock shouldFlush) [EvAppend me r] [] []
  | AUnlock shouldFlush => Steps (Unlock c) (AGo shouldFlush) [] [] []
  | AGo shouldFlush =>
      if shouldFlush
      then Steps c AReturn [EvGo me child] [] [TFlush FLock]
      else Steps c AReturn [] [] []
  | AReturn => Blocked
  end.

(** ** The machine *)

(** The client, the channel of the worker's ticker ([None]: no ticker is
    running; [Some b]: [b] tells whether a tick is waiting in the channel),
    the goroutines, and what has been observed so far: the events, the
    lines printed, whether the process has died of a panic. *)
Record System := mkSystem {
  client : Client;
  tickerC : option bool;
  threads : list Thread;
  events : list Event;
  stdout : list string;
  panicked : bool }.

Definition panic (σ : System) : System :=
  mkSystem (client σ) (tickerC σ) (threads σ) (events σ) (stdout σ) true.

(** Thread [tid] moves to [th]. *)
Definition commit (tid : nat) (th : Thread) (c : Client)
    (tick : option bool) (evs : list Event) (out : list string)
    (forks : list Thread) (σ : System) : System :=
  mkSystem c tick (<[tid := th]> (threads σ) ++ forks)
           (events σ ++ evs) (stdout σ ++ out) false.

Definition lift {PC : Type} (wrap : PC → Thread) (tid : nat) (σ : System)
    (r : Result PC) : option System :=
  match r with
  | Blocked => None
  | Panics => Some (panic σ)
  | Steps c pc evs out forks =>
      Some (commit tid (wrap pc) c (tickerC σ) evs out forks σ)
  end.

(** One step of [flushWorker] other than its [select]. *)
Definition flushWorker_step (tid : nat) (env : Env) (σ : System)
    (pc : WorkerPC) : option System :=
  match pc with
  | WTicker =>
      if Config.FlushInterval (config (client σ)) <=? 0
      then Some (panic σ)
      else Some (commit tid (TWorker WSelect) (client σ) (Some false)
                        [] [] [] σ)
  | WSelect => None
  | WFlush (FReturn _) =>
      Some (commit tid (TWorker WSelect) (client σ) (tickerC σ) [] [] [] σ)
  | WFlush pc =>
      lift (λ pc', TWorker (WFlush pc')) tid σ
           (Flush_step tid env (client σ) pc)
  | WDone => None
  end.

(** The [select] of [flushWorker]: [done] picks the branch; a branch can
    be picked only when its channel is ready.  On [ctx.Done()] the worker
    returns and its deferred calls run: [ticker.Stop()], [c.wg.Done()]. *)
Definition flushWorker_select (tid : nat) (done : bool) (σ : System)
  : option System :=
  match threads σ !! tid with
  | Some (TWorker WSelect) =>
      if done then
        if ctx (client σ) then
          match wg (client σ) with
          | O => Some (panic σ)
          | S n => Some (commit tid (TWorker WDone) (set_wg n (client σ))
                                None [] [] [] σ)
          end
        else None
      else
        match tickerC σ with
        | Some true =>
            Some (commit tid (TWorker (WFlush FLock)) (client σ) (Some false)
                         [] [] [] σ)
        | _ => None
        end
  | _ => None
  end.

(** One step of [Close]. *)
Definition Close_step (tid : nat) (env : Env) (σ : System) (pc : ClosePC)
  : option System :=
  match pc with
  | CCancel =>
      Some (commit tid (TClose CWait) (set_ctx true (client σ)) (tickerC σ)
                   [] [] [] σ)
  | CWait =>
      match wg (client σ) with
      | O => Some (commit tid (TClose (CFlush FLock)) (client σ) (tickerC σ)
                          [] [] [] σ)
      | S _ => None
      end
  | CFlush pc =>
      lift (λ pc', TClose (CFlush pc')) tid σ
           (Flush_step tid env (client σ) pc)
  end.

Definition thread_step (tid : nat) (env : Env) (σ : System) (th : Thread)
  : option System :=
  match th with
  | TAdd r pc =>
      lift (TAdd r) tid σ
           (add_step tid (length (threads σ)) (client σ) r pc)
  | TFlush pc => lift TFlush tid σ (Flush_step tid env (client σ) pc)
  | TWorker pc => flushWorker_step tid env σ pc
  | TClose pc => Close_step tid env σ pc
  end.

(** The calls the application can make on the client, each on a goroutine
    of its own. *)
Inductive Op :=
| OpAddLog (entry : LogEntry.t)
| OpAddSpan (span : SpanData.t)
| OpAddMetric (metric : MetricData.t)
| OpLogJob (job : JobData.t) (now : string)
| OpFlush
| OpClose.

Definition start (op : Op) : Thread :=
  match op with
  | OpAddLog entry => TAdd (RLog entry) ALock
  | OpAddSpan span => TAdd (RSpan span) ALock
  | OpAddMetric metric => TAdd (RMetric metric) ALock
  | OpLogJob job now => TAdd (RJob (LogJob_Ts now job)) ALock
  | OpFlush => TFlush FLock
  | OpClose => TClose CCancel
  end.

Definition call (op : Op) (σ : System) : System :=
  mkSystem (client σ) (tickerC σ) (threads σ ++ [start op])
           (events σ) (stdout σ) (panicked σ).

(** What can happen next: the application makes a call, the ticker fires
    (a tick is dropped when one is already waiting), thread [tid] takes
    its next step with the world answering [env], or the worker's select
    takes a branch. *)
Inductive Action :=
| ACall (op : Op)
| ATick
| ARun (tid : nat) (env : Env)
| ASelect (tid : nat) (done : bool).

Definition step (a : Action) (σ : System) : option System :=
  if panicked σ then None else
  match a with
  | ACall op => Some (call op σ)
  | ATick =>
      match tickerC σ with
      | Some _ => Some (mkSystem (client σ) (Some true) (threads σ)
                                 (events σ) (stdout σ) (panicked σ))
      | None => None
      end
  | ARun tid env => th ← threads σ !! tid; thread_step tid env σ th
  | ASelect tid done => flushWorker_select tid done σ
  end.

Fixpoint run (schedule : list Action) (σ : System) : option System :=
  match schedule with
  | [] => Some σ
  | a :: rest => σ' ← step a σ; run rest σ'
  end.

(** ** Construction *)

Inductive NewResult :=
| NewOk (σ : System)
| NewErr (err : Error)
| NewPanic.

(** [New]: [Getenv] is [os.Getenv].  On success the client is returned
    with the worker goroutine started. *)
Definition New (Getenv : string → string) (cfg : Config.t) : NewResult :=
  let APIUrl :=
    if bool_decide (Config.APIUrl cfg = "")
    then Getenv "OMNIPULSE_URL" else Config.APIUrl cfg in
  let IngestKey :=
    if bool_decide (Config.IngestKey cfg = "")
    then Getenv "OMNIPULSE_INGEST_KEY" else Config.IngestKey cfg in
  if bool_decide (APIUrl = "") || bool_decide (IngestKey = "")
  then NewErr "APIUrl and IngestKey are required"
  else
    let Environment :=
      if bool_decide (Config.Environment cfg = "")
      then "production" else Config.Environment cfg in
    let BatchSize :=
      if Config.BatchSize cfg =? 0 then 100 else Config.BatchSize cfg in
    let FlushInterval :=
      if Config.FlushInterval cfg =? 0
      then 5 * Second else Config.FlushInterval cfg in
    let Timeout :=
      if Config.Timeout cfg =? 0 then 5 * Second else Config.Timeout cfg in
    let cfg :=
      Config.mk APIUrl IngestKey Environment (Config.ServiceName cfg)
                (Config.Version cfg) (Config.Debug cfg) BatchSize
                FlushInterval Timeout in
    match make BatchSize, make BatchSize, make BatchSize, make BatchSize with
    | Some l, Some s, Some m, Some j =>
        NewOk (mkSystem (mkClient cfg Timeout l s m j None false 1)
                        None [TWorker WTicker] [] [] false)
    | _, _, _, _ => NewPanic
    end.

(** ** Observations on a run *)

(** The states a freshly constructed client can get into. *)
Definition initial (σ : System) : Prop :=
  ∃ Getenv cfg, New Getenv cfg = NewOk σ.

Definition reachable (σ : System) : Prop :=
  ∃ σ0 schedule, initial σ0 ∧ run schedule σ0 = Some σ.

(** The program point of the [Flush] a thread is executing, if any. *)
Definition flush_pc (th : Thread) : option FlushPC :=
  match th with
  | TFlush pc => Some pc
  | TWorker (WFlush pc) => Some pc
  | TClose (CFlush pc) => Some pc
  | _ => None
  end.

Definition set_flush_pc (pc : FlushPC) (th : Thread) : Thread :=
  match th with
  | TFlush _ => TFlush pc
  | TWorker _ => TWorker (WFlush pc)
  | TClose _ => TClose (CFlush pc)
  | TAdd r a => TAdd r a
  end.

(** The moves of a thread, as [step] makes them: thread [me] at [th], with
    the client at [c] and the ticker at [tick], moves to [th'] and leaves
    the client at [c'] and the ticker at [tick']. *)
Inductive Move (me child : nat) (c : Client) (tick : option bool)
  : Thread → Thread → Client → option bool → list Event → list string →
    list Thread → Prop :=
| MoveAdd r pc pc' c' evs out forks :
    add_step me child c r pc = Steps c' pc' evs out forks →
    Move me child c tick (TAdd r pc) (TAdd r pc') c' tick evs out forks
| MoveFlush env th pc pc' c' evs out forks :
    flush_pc th = Some pc →
    Flush_step me env c pc = Steps c' pc' evs out forks →
    Move me child c tick th (set_flush_pc pc' th) c' tick evs out forks
| MoveTicker :
    0 < Config.FlushInterval (config c) →
    Move me child c tick (TWorker WTicker) (TWorker WSelect) c (Some false)
         [] [] []
| MoveLoop err :
    Move me child c tick (TWorker (WFlush (FReturn err))) (TWorker WSelect)
         c tick [] [] []
| MoveDone n :
    ctx c = true → wg c = S n →
    Move me child c tick (TWorker WSelect) (TWorker WDone) (set_wg n c) None
         [] [] []
| MoveTick :
    tick = Some true →
    Move me child c tick (TWorker WSelect) (TWorker (WFlush FLock)) c
         (Some false) [] [] []
| MoveCancel :
    Move me child c tick (TClose CCancel) (TClose CWait) (set_ctx true c) tick
         [] [] []
| MoveWait :
    wg c = O →
    Move me child c tick (TClose CWait) (TClose (CFlush FLock)) c tick
         [] [] [].

(** A thread is inside a critical section of [bufferMu]. *)
Definition critical (th : Thread) : bool :=
  match th with
  | TAdd _ (AAppend | AUnlock _) => true
  | TAdd _ _ => false
  | _ =>
      match flush_pc th with
      | Some (FSwap | FUnlock _) => true
      | _ => false
      end
  end.

(** The next step of a thread is a call of [send] (serialisation,
    compression, network). *)
Definition sending (th : Thread) : bool :=
  match flush_pc th with
  | Some (FLogs s _) => nonempty (logs s)
  | Some (FSpans s _) => nonempty (spans s)
  | Some (FMetrics s _) => nonempty (metrics s)
  | Some (FJobs (_ :: _) _) => true
  | _ => false
  end.

(** The records of one kind in the live buffer, in a snapshot, appended
    so far and swapped out so far, each in the order of the run. *)
Definition buffer (k : Kind) (c : Client) : list Rec :=
  match k with
  | KLog => RLog <$> logBuffer c
  | KSpan => RSpan <$> spanBuffer c
  | KMetric => RMetric <$> metricBuffer c
  | KJob => RJob <$> jobBuffer c
  end.

Definition held (k : Kind) (s : Snapshot) : list Rec :=
  match k with
  | KLog => RLog <$> logs s
  | KSpan => RSpan <$> spans s
  | KMetric => RMetric <$> metrics s
  | KJob => RJob <$> jobs s
  end.

Definition appended (k : Kind) (evs : list Event) : list Rec :=
  evs ≫= λ e,
    match e with
    | EvAppend _ r => if decide (kind_of r = k) then [r] else []
    | _ => []
    end.

Definition swapped (k : Kind) (evs : list Event) : list Rec :=
  evs ≫= λ e, match e with EvSwap _ s => held k s | _ => [] end.

(** The thread an event belongs to. *)
Definition ev_tid (e : Event) : nat :=
  match e with
  | EvAppend t _ | EvSwap t _ | EvGo t _ | EvSend t _ => t
  end.

(** The calls of [send] of a run, and those made by thread [t]. *)
Definition sends (evs : list Event) : list Delivery :=
  evs ≫= λ e, match e with EvSend _ d => [d] | _ => [] end.

Definition sends_of (t : nat) (evs : list Event) : list Delivery :=
  evs ≫= λ e,
    match e with
    | EvSend t' d => if decide (t' = t) then [d] else []
    | _ => []
    end.

Definition swaps_of (t : nat) (evs : list Event) : list Snapshot :=
  evs ≫= λ e,
    match e with
    | EvSwap t' s => if decide (t' = t) then [s] else []
    | _ => []
    end.

(** The flush thread [t] is in, or was last in: the snapshot it swapped
    out last and its calls of [send] since. *)
Definition current_step (t : nat) (acc : option (Snapshot * list Delivery))
    (e : Event) : option (Snapshot * list Delivery) :=
  match e with
  | EvSwap t' s => if decide (t' = t) then Some (s, []) else acc
  | EvSend t' d =>
      if decide (t' = t)
      then match acc with Some (s, ds) => Some (s, ds ++ [d]) | None => None end
      else acc
  | _ => acc
  end.

Definition current (t : nat) (evs : list Event)
  : option (Snapshot * list Delivery) :=
  foldl (current_step t) None evs.

(** The arguments of a call of [send]. *)
Definition called (d : Delivery) : string * Payload := (endpoint d, payload d).

(** The last error among the calls, [None] when all succeeded. *)
Definition last_error (ds : list Delivery) : option Error :=
  foldl (λ acc d, match result d with Some e => Some e | None => acc end)
        None ds.

(** The wire contract: where each non-empty batch of a snapshot goes. *)
Definition route_logs (s : Snapshot) : list (string * Payload) :=
  if nonempty (logs s)
  then [("/api/ingest/logs", PEnvelope "logs" (ILogs (logs s)))] else [].

Definition route_spans (s : Snapshot) : list (string * Payload) :=
  if nonempty (spans s)
  then [("/api/ingest/traces", PEnvelope "spans" (ISpans (spans s)))] else [].

Definition route_metrics (s : Snapshot) : list (string * Payload) :=
  if nonempty (metrics s)
  then [("/api/ingest/app-metrics",
         PEnvelope "metrics" (IMetrics (metrics s)))]
  else [].

Definition route_job (job : JobData.t) : string * Payload :=
  ("/api/ingest/app-job", PJob job).

Definition routes (s : Snapshot) : list (string * Payload) :=
  route_logs s ++ route_spans s ++ route_metrics s ++ (route_job <$> jobs s).

(** How far the [Flush] at program point [pc], run by thread [t], has
    got, in terms of the events recorded: the snapshot it holds is the one
    it swapped out last, the calls of [send] it has made since are the
    routes of the batches it has been through, in order, and [lastErr] is
    the last error among them. *)
Definition progress (t : nat) (evs : list Event) (pc : FlushPC) : Prop :=
  match pc with
  | FLock | FSwap => True
  | FUnlock s => current t evs = Some (s, [])
  | FLogs s e => current t evs = Some (s, []) ∧ e = None
  | FSpans s e =>
      ∃ ds, current t evs = Some (s, ds) ∧
        called <$> ds = route_logs s ∧ e = last_error ds
  | FMetrics s e =>
      ∃ ds, current t evs = Some (s, ds) ∧
        called <$> ds = route_logs s ++ route_spans s ∧ e = last_error ds
  | FJobs rest e =>
      ∃ s ds sent, current t evs = Some (s, ds) ∧
        jobs s = sent ++ rest ∧
        called <$> ds = route_logs s ++ route_spans s ++ route_metrics s
                        ++ (route_job <$> sent) ∧
        e = last_error ds
  | FReturn e =>
      ∃ s ds, current t evs = Some (s, ds) ∧
        called <$> ds = routes s ∧ e = last_error ds
  end.

(** Threads that run [Flush] once: a call of [Flush] and a call of
    [Close]; and whether such a thread has not swapped the buffers yet. *)
Definition oneshot (th : Thread) : bool :=
  match th with TFlush _ | TClose _ => true | _ => false end.

Definition before_swap (th : Thread) : bool :=
  match th with
  | TFlush (FLock | FSwap) => true
  | TClose (CCancel | CWait | CFlush (FLock | FSwap)) => true
  | _ => false
  end.

(** The number of steps the [Flush] at [pc] has left once it has swapped
    the buffers. *)
Definition remaining (pc : FlushPC) : nat :=
  match pc with
  | FLock | FSwap => 0
  | FUnlock s => 5 + length (jobs s)
  | FLogs s _ => 4 + length (jobs s)
  | FSpans s _ => 3 + length (jobs s)
  | FMetrics s _ => 2 + length (jobs s)
  | FJobs rest _ => 1 + length rest
  | FReturn _ => 0
  end.

(** ** Sequential runs *)

(** Thread [t] takes [n] steps in a row, the world answering [env]. *)
Definition steps (t n : nat) (env : Env) : list Action :=
  replicate n (ARun t env).

(** The record a call of the application appends, when it is an append. *)
Definition op_rec (op : Op) : option Rec :=
  match op with
  | OpAddLog entry => Some (RLog entry)
  | OpAddSpan span => Some (RSpan span)
  | OpAddMetric metric => Some (RMetric metric)
  | OpLogJob job now => Some (RJob (LogJob_Ts now job))
  | OpFlush | OpClose => None
  end.

(** The calls [ops] made one after the other, each running to its return
    before the next is made; [t] is the id of the first thread started. *)
Fixpoint one_by_one (t : nat) (env : Env) (ops : list Op) : list Action :=
  match ops with
  | [] => []
  | op :: rest => (ACall op :: steps t 4 env) ++ one_by_one (S t) env rest
  end.

(** What [Flush] would take if it swapped the buffers of [c] now. *)
Definition snapshot_of (c : Client) : Snapshot :=
  mkSnapshot (logBuffer c) (spanBuffer c) (metricBuffer c) (jobBuffer c).

(** The state after a call that appends [r] has run alone, from its call
    to its return, in a state where the mutex is free. *)
Definition after_add (r : Rec) (σ : System) : System :=
  let t := length (threads σ) in
  let cb := append r (client σ) in
  mkSystem cb.1 (tickerC σ)
           (threads σ ++ TAdd r AReturn :: if cb.2 then [TFlush FLock] else [])
           (events σ ++ EvAppend t r :: if cb.2 then [EvGo t (S t)] else [])
           (stdout σ) false.

(** ** Invariants and reachability between states *)

Definition lock_inv (σ : System) : Prop :=
  (∀ t, bufferMu (client σ) = Some t →
        ∃ th, threads σ !! t = Some th ∧ critical th = true) ∧
  (∀ t th, threads σ !! t = Some th → critical th = true →
           bufferMu (client σ) = Some t).

(** Every record appended so far was either swapped out, once, or is
    still in the live buffer; the order of appends is kept. *)
Definition conserved (σ : System) : Prop :=
  ∀ k, appended k (events σ)
       = swapped k (events σ) ++ buffer k (client σ).

(** A snapshot holds exactly the records appended before its swap that
    no earlier swap took. *)
Definition swaps_exact (σ : System) : Prop :=
  ∀ pre t snap post, events σ = pre ++ EvSwap t snap :: post →
    ∀ k, appended k pre = swapped k pre ++ held k snap.

Definition flush_inv (σ : System) : Prop :=
  ∀ t th pc, threads σ !! t = Some th → flush_pc th = Some pc →
    progress t (events σ) pc.

Definition events_bounded (σ : System) : Prop :=
  ∀ e, e ∈ events σ → (ev_tid e < length (threads σ))%nat.

Definition once (t : nat) (evs : list Event) (pre : bool) : Prop :=
  if pre then swaps_of t evs = [] ∧ sends_of t evs = []
  else ∃ s ds, current t evs = Some (s, ds) ∧
               swaps_of t evs = [s] ∧ sends_of t evs = ds.

Definition oneshot_inv (σ : System) : Prop :=
  ∀ t th, threads σ !! t = Some th → oneshot th = true →
    once t (events σ) (before_swap th).


Definition role (th : Thread) : nat :=
  match th with TAdd _ _ => 0 | TFlush _ => 1 | TWorker _ => 2 | TClose _ => 3
  end%nat.

(** Once [Close] is past [c.cancel()], the context is cancelled. *)
Definition cancel_inv (σ : System) : Prop :=
  ∀ t pc, threads σ !! t = Some (TClose pc) → pc ≠ CCancel →
    ctx (client σ) = true.

(** The worker is thread 0 and the only worker; the wait group counts it
    until it has returned. *)
Definition worker_inv (σ : System) : Prop :=
  (∃ pc, threads σ !! 0%nat = Some (TWorker pc) ∧
         wg (client σ) = if pc is WDone then 0%nat else 1%nat) ∧
  (∀ t pc, threads σ !! t = Some (TWorker pc) → t = 0%nat).

(** Once [Close] is past [c.wg.Wait()], the wait group is at zero. *)
Definition waited_inv (σ : System) : Prop :=
  ∀ t pc, threads σ !! t = Some (TClose (CFlush pc)) →
    wg (client σ) = 0%nat.

(** [σ'] can be reached from [σ] by steps that leave the context, the
    wait group and the ticker alone, start no thread, and move no thread
    other than [t] that is outside a critical section. *)
Definition drives (t : nat) (σ σ' : System) : Prop :=
  ∃ sch, run sch σ = Some σ' ∧
    panicked σ' = false ∧
    ctx (client σ') = ctx (client σ) ∧
    wg (client σ') = wg (client σ) ∧
    tickerC σ' = tickerC σ ∧
    length (threads σ') = length (threads σ) ∧
    ∀ t' th', t' ≠ t → threads σ !! t' = Some th' → critical th' = false →
              threads σ' !! t' = Some th'.

(** [σ'] can be reached from [σ], and the threads outside a critical
    section, other than [t], have not moved. *)
Definition leads (t : nat) (σ σ' : System) : Prop :=
  ∃ sch, run sch σ = Some σ' ∧ panicked σ' = false ∧
    ∀ t' th', t' ≠ t → threads σ !! t' = Some th' → critical th' = false →
              threads σ' !! t' = Some th'.

(** [σ'] can be reached from [σ] and the process is alive there. *)
Definition reaches (σ σ' : System) : Prop :=
  ∃ sch, run sch σ = Some σ' ∧ panicked σ' = false.

(** ** Appends on their own *)

(** The path the records of each kind are posted to, and the calls of
    [send] among [ds] that go there. *)
Definition path (k : Kind) : string :=
  match k with
  | KLog => "/api/ingest/logs"
  | KSpan => "/api/ingest/traces"
  | KMetric => "/api/ingest/app-metrics"
  | KJob => "/api/ingest/app-job"
  end.

Definition attempts (k : Kind) (ds : list Delivery) : list Delivery :=
  filter (λ d, endpoint d = path k) ds.

(** An action of a run in which nothing but an append can start a flush:
    the application calls nothing but appends and the ticker never
    fires. *)
Definition append_only (a : Action) : Prop :=
  match a with
  | ACall op => is_Some (op_rec op)
  | ATick => False
  | ARun _ _ | ASelect _ _ => True
  end.

(** The records of kind [k] the calls of a schedule append, those of the
    appends among the threads, and those of the appends that are past
    their [append]. *)
Definition pick (k : Kind) (r : Rec) : list Rec :=
  if decide (kind_of r = k) then [r] else [].

Definition calls (k : Kind) (sch : list Action) : list Rec :=
  sch ≫= λ a,
    match a with
    | ACall op => from_option (pick k) [] (op_rec op)
    | _ => []
    end.

Definition adds (k : Kind) (ths : list Thread) : list Rec :=
  ths ≫= λ th, match th with TAdd r _ => pick k r | _ => [] end.

Definition landed (k : Kind) (ths : list Thread) : list Rec :=
  ths ≫= λ th,
    match th with
    | TAdd r (AUnlock _ | AGo _ | AReturn) => pick k r
    | _ => []
    end.

(** Every append called so far has returned. *)
Definition returned (σ : System) : Prop :=
  ∀ t r pc, threads σ !! t = Some (TAdd r pc) → pc = AReturn.

(** A thread of a run in which no flush was started. *)
Definition quiet_thread (th : Thread) : Prop :=
  match th with
  | TAdd _ (AUnlock b | AGo b) => b = false
  | TAdd _ _ | TWorker (WTicker | WSelect) => True
  | _ => False
  end.

Definition quiet (sch : list Action) (σ : System) : Prop :=
  ctx (client σ) = false ∧ tickerC σ ≠ Some true ∧
  (∀ t th, threads σ !! t = Some th → quiet_thread th) ∧
  (∀ e, e ∈ events σ → ∃ t r, e = EvAppend t r) ∧
  (∀ k, adds k (threads σ) = calls k sch) ∧
  (∀ k, buffer k (client σ) ≡ₚ landed k (threads σ)).

(** The client after the records [rs] have been appended in turn, and
    the state after the calls that append them have run one by one, none
    of them starting a flush. *)
Definition appends (rs : list Rec) (c : Client) : Client :=
  foldl (λ c r, (append r c).1) c rs.

Definition after_adds (rs : list Rec) (σ : System) : System :=
  mkSystem (appends rs (client σ)) (tickerC σ)
           (threads σ ++ ((λ r, TAdd r AReturn) <$> rs))
           (events σ ++ imap (λ i r, EvAppend (length (threads σ) + i) r) rs)
           (stdout σ) false.

(** ** Diagnostics *)




(** * Event builders

    [logger.go], [metrics.go], [tracer.go], [http.go] and the Fiber
    middleware, as far as they lead to an append on the client.  A
    builder reads the clock and the client's configuration, which never
    changes, and ends in one call of [addLog], [addSpan] or [addMetric]:
    it is embedded as the function that computes this call, with the
    readings of the clock as arguments.  A nil map is the empty map: the
    two read alike and [omitempty] leaves both out of the JSON. *)

(** ** Tags *)

(** [mergeTags] and [mergeTags2] over their variadic argument; [None] is
    the nil map returned when no map was passed.  Ranging over a map and
    assigning every entry to [result] is the union that prefers the
    entries of that map. *)
Definition mergeTags {V : Type} (tags : list (gmap string V))
  : option (gmap string V) :=
  if bool_decide (length tags = 0%nat) then None
  else Some (foldl (λ result t, t ∪ result) ∅ tags).

Definition mergeTags2 (tags : list (gmap string string))
  : option (gmap string string) :=
  mergeTags tags.

(** ** Spans *)

Module Span.
Record t := mk {
  TraceID : string;
  SpanID : string;
  ParentSpanID : string;
  Name : string;
  StartTime : Time;
  Status : SpanStatus;
  StatusMsg : string;
  Attributes : gmap string Any;
  Events : list SpanEvent.t }.
End Span.

(** [hex.EncodeToString]: two digits of [hextable] for every byte. *)
Definition hextable : string := "0123456789abcdef".

Definition hexdigit (i : N) : Ascii.ascii :=
  default Ascii.zero (String.get (N.to_nat i) hextable).

Definition EncodeToString (src : list Byte.byte) : string :=
  foldr (λ v dst,
           String (hexdigit (N.shiftr (Byte.to_N v) 4))
                  (String (hexdigit (N.land (Byte.to_N v) 15)) dst))
        "" src.

(** [generateID]: a buffer of [bytes] zero bytes, over which [rand.Read]
    writes what it has, [rand], its error being dropped; then the hex
    text of the buffer. *)
Definition generateID (bytes : nat) (rand : list Byte.byte) : string :=
  EncodeToString
    (take bytes rand ++ replicate (bytes - length rand) Byte.x00).

Definition SpanOption := Span.t → Span.t.

(** [parent] is a pointer in the source; [None] is nil. *)
Definition WithParent (parent : option Span.t) : SpanOption :=
  λ s,
    match parent with
    | Some parent =>
        Span.mk (Span.TraceID parent) (Span.SpanID s) (Span.SpanID parent)
                (Span.Name s) (Span.StartTime s) (Span.Status s)
                (Span.StatusMsg s) (Span.Attributes s) (Span.Events s)
    | None => s
    end.

Definition WithTraceID (traceID : string) : SpanOption :=
  λ s, Span.mk traceID (Span.SpanID s) (Span.ParentSpanID s) (Span.Name s)
               (Span.StartTime s) (Span.Status s) (Span.StatusMsg s)
               (Span.Attributes s) (Span.Events s).

Definition WithParentSpanID (parentSpanID : string) : SpanOption :=
  λ s, Span.mk (Span.TraceID s) (Span.SpanID s) parentSpanID (Span.Name s)
               (Span.StartTime s) (Span.Status s) (Span.StatusMsg s)
               (Span.Attributes s) (Span.Events s).

Definition WithAttributes (attrs : gmap string Any) : SpanOption :=
  λ s, Span.mk (Span.TraceID s) (Span.SpanID s) (Span.ParentSpanID s)
               (Span.Name s) (Span.StartTime s) (Span.Status s)
               (Span.StatusMsg s) (attrs ∪ Span.Attributes s)
               (Span.Events s).

(** [Tracer.StartSpan]; [now] is the clock, [traceRand] and [spanRand]
    are what the two calls of [rand.Read] deliver. *)
Definition StartSpan (now : Time) (traceRand spanRand : list Byte.byte)
    (name : string) (opts : list SpanOption) : Span.t :=
  foldl (λ span opt, opt span)
        (Span.mk (generateID 16 traceRand) (generateID 8 spanRand) "" name
                 now SpanStatusOK "" ∅ [])
        opts.

Definition SetAttribute (key : string) (value : Any) (s : Span.t) : Span.t :=
  Span.mk (Span.TraceID s) (Span.SpanID s) (Span.ParentSpanID s)
          (Span.Name s) (Span.StartTime s) (Span.Status s)
          (Span.StatusMsg s) (<[key := value]> (Span.Attributes s))
          (Span.Events s).

Definition SetStatus (status : SpanStatus) (message : string) (s : Span.t)
  : Span.t :=
  Span.mk (Span.TraceID s) (Span.SpanID s) (Span.ParentSpanID s)
          (Span.Name s) (Span.StartTime s) status message
          (Span.Attributes s) (Span.Events s).


(** [Span.End]: the record handed to [addSpan]; [endTime] is the clock. *)
Definition End_data (c : Client) (endTime : Time) (s : Span.t) : SpanData.t :=
  SpanData.mk (Span.TraceID s) (Span.SpanID s) (Span.ParentSpanID s)
              (Span.Name s) (Config.ServiceName (config c))
              (Span.StartTime s) endTime (endTime - Span.StartTime s)
              (Span.Status s) (Span.StatusMsg s) (Span.Attributes s)
              (Span.Events s).

Definition End_ (c : Client) (endTime : Time) (s : Span.t) : Op :=
  OpAddSpan (End_data c endTime s).

(** A [context.Context] as this package sees it: the values attached,
    innermost first; a span is attached as a pointer ([None] is nil) and
    is held here as the span it leads to. *)
Inductive CtxValue :=
| CtxSpan (span : option Span.t)
| CtxOther.

Definition Context := list CtxValue.

Definition ContextWithSpan (ctx : Context) (span : option Span.t) : Context :=
  CtxSpan span :: ctx.

Fixpoint SpanFromContext (ctx : Context) : option Span.t :=
  match ctx with
  | [] => None
  | CtxSpan span :: _ => span
  | CtxOther :: ctx => SpanFromContext ctx
  end.

(** ** Logs *)

Module Logger.
Definition log (c : Client) (now : Time) (level : LogLevel) (msg : string)
    (tags : option (gmap string Any)) : Op :=
  OpAddLog (LogEntry.mk now level msg (Config.ServiceName (config c)) "" ""
                        (default ∅ tags) "").

Definition Debug (c : Client) (now : Time) (msg : string)
    (tags : list (gmap string Any)) : Op :=
  log c now LogLevelDebug msg (mergeTags tags).

Definition Info (c : Client) (now : Time) (msg : string)
    (tags : list (gmap string Any)) : Op :=
  log c now LogLevelInfo msg (mergeTags tags).

Definition Warn (c : Client) (now : Time) (msg : string)
    (tags : list (gmap string Any)) : Op :=
  log c now LogLevelWarn msg (mergeTags tags).

Definition Error (c : Client) (now : Time) (msg : string)
    (tags : list (gmap string Any)) : Op :=
  log c now LogLevelError msg (mergeTags tags).

Definition Fatal (c : Client) (now : Time) (msg : string)
    (tags : list (gmap string Any)) : Op :=
  log c now LogLevelFatal msg (mergeTags tags).

Definition WithContext (c : Client) (now : Time) (span : Span.t)
    (level : LogLevel) (msg : string) (tags : list (gmap string Any)) : Op :=
  let merged := match mergeTags tags with Some m => m | None => ∅ end in
  OpAddLog (LogEntry.mk now level msg (Config.ServiceName (config c))
                        (Span.TraceID span) (Span.SpanID span) merged "").
End Logger.

(** The fallback of [LogFromRequest] and [LogFromFiber]: a [switch] on
    the level with no default. *)
Definition log_by_level (c : Client) (now : Time) (level : LogLevel)
    (msg : string) (tags : list (gmap string Any)) : list Op :=
  if bool_decide (level = LogLevelDebug) then [Logger.Debug c now msg tags]
  else if bool_decide (level = LogLevelInfo) then [Logger.Info c now msg tags]
  else if bool_decide (level = LogLevelWarn) then [Logger.Warn c now msg tags]
  else if bool_decide (level = LogLevelError)
  then [Logger.Error c now msg tags]
  else if bool_decide (level = LogLevelFatal)
  then [Logger.Fatal c now msg tags]
  else [].

(** [LogFromRequest], given the context of the request: the calls it
    makes on the client. *)
Definition LogFromRequest (ctx : Context) (c : Client) (now : Time)
    (level : LogLevel) (msg : string) (tags : list (gmap string Any))
  : list Op :=
  match SpanFromContext ctx with
  | Some span => [Logger.WithContext c now span level msg tags]
  | None => log_by_level c now level msg tags
  end.

Definition GetTraceIDFromContext (ctx : Context) : string :=
  match SpanFromContext ctx with
  | Some span => Span.TraceID span
  | None => ""
  end.

(** ** Metrics *)

Module Metrics.
(** [value] is the decimal text of the [float64]. *)
Definition record (c : Client) (now : Time) (name : string)
    (metricType : MetricType) (value : string)
    (tags : option (gmap string string)) : Op :=
  OpAddMetric (MetricData.mk name metricType value now
                             (Config.ServiceName (config c))
                             (default ∅ tags) ∅).

Definition Counter (c : Client) (now : Time) (name : string) (value : string)
    (tags : list (gmap string string)) : Op :=
  record c now name MetricTypeCounter value (mergeTags2 tags).

Definition Gauge (c : Client) (now : Time) (name : string) (value : string)
    (tags : list (gmap string string)) : Op :=
  record c now name MetricTypeGauge value (mergeTags2 tags).

Definition Histogram (c : Client) (now : Time) (name : string)
    (value : string) (tags : list (gmap string string)) : Op :=
  record c now name MetricTypeHistogram value (mergeTags2 tags).

(** [float64(duration.Milliseconds())]: the nanoseconds divided by a
    million, rounded towards zero. *)
Definition RecordDuration (c : Client) (now : Time) (name : string)
    (duration : Duration) (tags : list (gmap string string)) : Op :=
  record c now name MetricTypeHistogram (pretty (duration `quot` 1000000))
         (mergeTags2 tags).

Definition Increment (c : Client) (now : Time) (name : string)
    (tags : list (gmap string string)) : Op :=
  Counter c now name "1" tags.

Definition Decrement (c : Client) (now : Time) (name : string)
    (tags : list (gmap string string)) : Op :=
  Counter c now name "-1" tags.
End Metrics.

(** ** The net/http middleware *)

(** The request as the middleware reads it: [r.Method], [r.URL.Path],
    [r.URL.String()], [r.Host], [r.UserAgent()], [r.RemoteAddr],
    [r.Header.Get] and [r.Context()]. *)
Module Req.
Record t := mk {
  Method : string;
  Path : string;
  URL : string;
  Host : string;
  UserAgent : string;
  RemoteAddr : string;
  Header : string → string;
  Ctx : Context }.

Definition WithContext (ctx : Context) (r : t) : t :=
  mk (Method r) (Path r) (URL r) (Host r) (UserAgent r) (RemoteAddr r)
     (Header r) ctx.
End Req.

(** What a handler does with the [responseWriter] it is given. *)
Inductive WriterCall :=
| WriteHeader (code : Z)
| Write (n : Z).

(** The fields of [responseWriter] after the calls. *)
Definition statusCode (calls : list WriterCall) : Z :=
  foldl (λ code call, match call with WriteHeader c => c | Write _ => code end)
        200 calls.

Definition written (calls : list WriterCall) : Z :=
  foldl (λ n call, match call with WriteHeader _ => n | Write k => n + k end)
        0 calls.

(** What running the next handler comes to: its calls on the writer, its
    calls on the client, and what it does to the span it finds in the
    context of its request.  The request itself it leaves alone. *)
Record Handled := mkHandled {
  writes : list WriterCall;
  handler_calls : list Op;
  touch : Span.t → Span.t }.

(** The readings of the clock and of [rand.Read] in one pass through the
    middleware, in the order they are taken. *)
Record Readings := mkReadings {
  traceRand : list Byte.byte;
  spanRand : list Byte.byte;
  spanStart : Time;
  elapsed : Duration;
  spanEnd : Time;
  durationAt : Time;
  countAt : Time }.

(** What one request through [HTTPMiddleware] comes to: the request the
    next handler was given, the trace header set on the response if any,
    and the calls made on the client, in order. *)
Record Served := mkServed {
  passed : Req.t;
  trace_header : option string;
  made : list Op }.

Definition health (path : string) : bool :=
  bool_decide (path = "/health") || bool_decide (path = "/healthz")
  || bool_decide (path = "/ready") || bool_decide (path = "/readyz").

Definition HTTPMiddleware (c : Client) (next : Req.t → Handled)
    (w : Readings) (r : Req.t) : Served :=
  let path := Req.Path r in
  if health path then mkServed r None (handler_calls (next r))
  else
    let traceID := Req.Header r "X-OmniPulse-Trace-ID" in
    let parentSpanID := Req.Header r "X-OmniPulse-Span-ID" in
    let opts :=
      [WithAttributes
         (list_to_map
            [("http.method", AnyString (Req.Method r));
             ("http.url", AnyString (Req.URL r));
             ("http.host", AnyString (Req.Host r));
             ("http.user_agent", AnyString (Req.UserAgent r));
             ("http.remote_addr", AnyString (Req.RemoteAddr r))])] in
    let opts :=
      if bool_decide (traceID ≠ "") then opts ++ [WithTraceID traceID]
      else opts in
    let opts :=
      if bool_decide (parentSpanID ≠ "")
      then opts ++ [WithParentSpanID parentSpanID] else opts in
    let span :=
      StartSpan (spanStart w) (traceRand w) (spanRand w)
                (Req.Method r +:+ " " +:+ path) opts in
    let r := Req.WithContext (ContextWithSpan (Req.Ctx r) (Some span)) r in
    let header := Span.TraceID span in
    let h := next r in
    let rw_statusCode := statusCode (writes h) in
    let rw_written := written (writes h) in
    let span := touch h span in
    let span := SetAttribute "http.status_code" (AnyInt rw_statusCode) span in
    let span := SetAttribute "http.response_size" (AnyInt rw_written) span in
    let span :=
      if 400 <=? rw_statusCode
      then SetAttribute "error" (AnyBool true)
             (SetStatus SpanStatusError ("HTTP " +:+ pretty rw_statusCode)
                        span)
      else span in
    let tags : gmap string string :=
      list_to_map [("method", Req.Method r); ("path", path);
                   ("status_code", pretty rw_statusCode)] in
    mkServed r (Some header)
      (handler_calls h ++
       [End_ c (spanEnd w) span;
        Metrics.RecordDuration c (durationAt w) "http.request.duration"
                               (elapsed w) [tags];
        Metrics.Increment c (countAt w) "http.request.count" [tags]]).

(** ** The Fiber middleware *)

(** What is kept under a key of [c.Locals]. *)
Inductive Local :=
| LSpan (span : option Span.t)
| LString (s : string)
| LOther.

(** The [fiber.Ctx] as the middleware reads it: [c.Method()], [c.Path()],
    [c.OriginalURL()], [c.Route().Path], [c.Get("User-Agent")], [c.IP()],
    [c.Locals], [c.Response().StatusCode()] and the length of
    [c.Response().Body()]. *)
Module Ctx.
Record t := mk {
  Method : string;
  Path : string;
  OriginalURL : string;
  RoutePath : string;
  UserAgent : string;
  IP : string;
  Locals : gmap string Local;
  StatusCode : Z;
  BodyLen : Z }.

Definition set_Locals (key : string) (value : Local) (c : t) : t :=
  mk (Method c) (Path c) (OriginalURL c) (RoutePath c) (UserAgent c) (IP c)
     (<[key := value]> (Locals c)) (StatusCode c) (BodyLen c).
End Ctx.

(** What [c.Next()] comes to: the context as the handlers leave it, the
    error returned, their calls on the client, and what they do to the
    span kept in the locals. *)
Record Nexted := mkNexted {
  ctx_after : Ctx.t;
  next_err : option Error;
  next_calls : list Op;
  next_touch : Span.t → Span.t }.

(** What one request through [FiberMiddleware] comes to: the context
    [c.Next()] was called on, the error returned, and the calls made on
    the client, in order. *)
Record FiberServed := mkFiberServed {
  fpassed : Ctx.t;
  returned_err : option Error;
  fmade : list Op }.

Definition FiberMiddleware (cl : Client) (next : Ctx.t → Nexted)
    (w : Readings) (c : Ctx.t) : FiberServed :=
  let path := Ctx.Path c in
  if health path
  then let n := next c in mkFiberServed c (next_err n) (next_calls n)
  else
    let span :=
      StartSpan (spanStart w) (traceRand w) (spanRand w)
        (Ctx.Method c +:+ " " +:+ path)
        [WithAttributes
           (list_to_map
              [("http.method", AnyString (Ctx.Method c));
               ("http.url", AnyString (Ctx.OriginalURL c));
               ("http.route", AnyString (Ctx.RoutePath c));
               ("http.user_agent", AnyString (Ctx.UserAgent c));
               ("http.remote_addr", AnyString (Ctx.IP c))])] in
    let c :=
      Ctx.set_Locals "omnipulse_trace_id" (LString (Span.TraceID span))
        (Ctx.set_Locals "omnipulse_span" (LSpan (Some span)) c) in
    let passed := c in
    let n := next c in
    let c := ctx_after n in
    let statusCode := Ctx.StatusCode c in
    let span := next_touch n span in
    let span := SetAttribute "http.status_code" (AnyInt statusCode) span in
    let span :=
      SetAttribute "http.response_size" (AnyInt (Ctx.BodyLen c)) span in
    let span :=
      match next_err n with
      | Some e =>
          SetAttribute "error.message" (AnyString e)
            (SetAttribute "error" (AnyBool true)
               (SetStatus SpanStatusError e span))
      | None =>
          if 400 <=? statusCode
          then SetAttribute "error" (AnyBool true)
                 (SetStatus SpanStatusError ("HTTP " +:+ pretty statusCode)
                            span)
          else span
      end in
    let tags : gmap string string :=
      list_to_map [("method", Ctx.Method c); ("route", Ctx.RoutePath c);
                   ("status_code", pretty statusCode)] in
    mkFiberServed passed (next_err n)
      (next_calls n ++
       [End_ cl (spanEnd w) span;
        Metrics.RecordDuration cl (durationAt w) "http.request.duration"
                               (elapsed w) [tags];
        Metrics.Increment cl (countAt w) "http.request.count" [tags]]).

Definition GetSpanFromFiber (c : Ctx.t) : option Span.t :=
  match Ctx.Locals c !! "omnipulse_span" with
  | Some (LSpan span) => span
  | _ => None
  end.


Definition LogFromFiber (c : Ctx.t) (cl : Client) (now : Time)
    (level : LogLevel) (msg : string) (tags : list (gmap string Any))
  : list Op :=
  match GetSpanFromFiber c with
  | Some span => [Logger.WithContext cl now span level msg tags]
  | None => log_by_level cl now level msg tags
  end.

(** ** Calls on a span *)




(** The options this package provides. *)
Definition provided (opt : SpanOption) : Prop :=
  (∃ parent, opt = WithParent parent) ∨ (∃ traceID, opt = WithTraceID traceID)
  ∨ (∃ parentSpanID, opt = WithParentSpanID parentSpanID)
  ∨ (∃ attrs, opt = WithAttributes attrs).

(** ** [Client.Test] *)

(** The entry [Test] logs; the runtime's version, operating system and
    architecture are read from the world. *)
Definition Test_log (c : Client) (now : Time) (go_version os arch : string)
  : Op :=
  Logger.Info c now "OmniPulse SDK test message"
    [list_to_map [("sdk_version", AnyString Version);
                  ("go_version", AnyString go_version);
                  ("os", AnyString os);
                  ("arch", AnyString arch)]].

(** ** Scenarios *)




Definition ok200 : Env := mkEnv None None None None (inr 200).
Definition err500 : Env := mkEnv None None None None (inr 500).
Definition refused : Env :=
  mkEnv None None None None (inl "dial tcp: connection refused").

Definition demo_log (msg : string) : LogEntry.t :=
  LogEntry.mk 1700000000 LogLevelInfo msg "svc" "" "" ∅ "".

Definition demo_span (name : string) : SpanData.t :=
  SpanData.mk "4bf92f3577b34da6" "00f067aa0ba902b7" "" name "svc"
              1700000000 1700000500 500 SpanStatusOK "" ∅ [].

Definition demo_metric (name : string) : MetricData.t :=
  MetricData.mk name MetricTypeCounter "1" 1700000000 "svc" ∅ ∅.

Definition demo_job (name : string) : JobData.t :=
  JobData.mk name "default" 250 0 "success" "" "".

(** A client with batch size 2 against [http://srv]. *)
Definition demo_cfg2 : Config.t :=
  Config.mk "http://srv" "key" "" "svc" "" false 2 0 0.

Definition dead : System :=
  mkSystem (mkClient demo_cfg2 0 [] [] [] [] None false 0) None [] [] [] true.

Definition demo_new : System :=
  match New (λ _, "") demo_cfg2 with NewOk σ => σ | _ => dead end.



(** Two flushes in flight at once: a log is appended and a first [Flush]
    swaps it out; before that flush has sent anything a second log is
    appended and a second [Flush] swaps it out; then both deliver. *)
Definition sched_two : list Action :=
  [ACall (OpAddLog (demo_log "a"))] ++ steps 1 4 ok200 ++
  [ACall OpFlush] ++ steps 2 3 ok200 ++
  [ACall (OpAddLog (demo_log "b"))] ++ steps 3 4 ok200 ++
  [ACall OpFlush] ++ steps 4 3 ok200 ++
  steps 2 2 ok200 ++ steps 4 4 ok200 ++ steps 2 2 ok200.

Definition demo_two : System := default dead (run sched_two demo_new).

(** One log is appended, then [Close] is called against a backend that
    answers 200 to whatever reaches it: [Close] cancels the context, the
    worker creates its ticker, sees the context done and returns, [Close]
    finds the wait group at zero and flushes. *)
Definition sched_close : list Action :=
  [ACall (OpAddLog (demo_log "a"))] ++ steps 1 4 ok200 ++
  [ACall OpClose; ARun 2 ok200; ARun 0 ok200; ASelect 0 true] ++
  steps 2 8 ok200.

Definition demo_close : System := default dead (run sched_close demo_new).

(** The same log, delivered by a call of [Flush] before [Close]. *)
Definition sched_flush_close : list Action :=
  [ACall (OpAddLog (demo_log "a"))] ++ steps 1 4 ok200 ++
  [ACall OpFlush] ++ steps 2 7 ok200 ++
  [ACall OpClose; ARun 3 ok200; ARun 0 ok200; ASelect 0 true] ++
  steps 3 8 ok200.

Definition demo_flush_close : System :=
  default dead (run sched_flush_close demo_new).

(** A span, a metric, a job and a first log are pending in the buffers of
    a client with batch size 2. *)
Definition sched_pending : list Action :=
  one_by_one 1 ok200
    [OpAddSpan (demo_span "GET /"); OpAddMetric (demo_metric "http.count");
     OpLogJob (demo_job "email.send") "2023-11-14T22:13:20Z";
     OpAddLog (demo_log "a")].

Definition demo_pending : System := default dead (run sched_pending demo_new).

(** A first log has been appended to the client with batch size 2 and
    its call has returned. *)
Definition sched_one : list Action :=
  one_by_one 1 ok200 [OpAddLog (demo_log "a")].

Definition demo_one : System := default dead (run sched_one demo_new).

(** The same call, stopped where it holds the mutex and is about to
    append. *)
Definition sched_mid : list Action :=
  [ACall (OpAddLog (demo_log "a")); ARun 1 ok200].

Definition demo_mid : System := default dead (run sched_mid demo_new).

(** Two jobs are logged on the client with batch size 2, and the flush
    the second one starts runs to its return. *)
Definition sched_jobs : list Action :=
  one_by_one 1 ok200
    [OpLogJob (demo_job "email.send") "2023-11-14T22:13:20Z";
     OpLogJob (demo_job "report.build") "2023-11-14T22:13:21Z"]
  ++ steps 3 9 ok200.

Definition demo_jobs : System := default dead (run sched_jobs demo_new).

(** A client whose flush interval is negative: [New] replaces only a
    zero interval by the default. *)
Definition demo_cfg_neg : Config.t :=
  Config.mk "http://srv" "key" "" "svc" "" true 2 (-1) 0.

Definition demo_neg : System :=
  match New (λ _, "") demo_cfg_neg with NewOk σ => σ | _ => dead end.



(** A span as [StartSpan] hands it out, and a request context with and
    without it. *)
Definition demo_rand16 : list Byte.byte :=
  [Byte.x4b; Byte.xf9; Byte.x2f; Byte.x35; Byte.x77; Byte.xb3; Byte.x4d;
   Byte.xa6; Byte.xa3; Byte.xce; Byte.x92; Byte.x9d; Byte.x0e; Byte.x0e;
   Byte.x47; Byte.x36].

Definition demo_rand8 : list Byte.byte :=
  [Byte.x00; Byte.xf0; Byte.x67; Byte.xaa; Byte.x0b; Byte.xa9; Byte.x02;
   Byte.xb7].

Definition demo_live : Span.t :=
  StartSpan 1700000000 demo_rand16 demo_rand8 "GET /users" [].

Definition demo_ctx : Context := [CtxOther; CtxSpan (Some demo_live)].

(** A request with a trace id in its headers, a health check, a handler
    that answers 404 with nine bytes and tags the span, and the readings
    of one pass through a middleware. *)
Definition demo_req : Req.t :=
  Req.mk "GET" "/users" "/users?page=2" "api.example.com" "curl/8.0"
         "10.0.0.7:51234"
         (λ name, if bool_decide (name = "X-OmniPulse-Trace-ID")
                  then "abc123" else "")
         [].

Definition demo_healthz : Req.t :=
  Req.mk "GET" "/healthz" "/healthz" "api.example.com" "kube-probe/1.29"
         "10.0.0.1:40000" (λ _, "") [].

Definition demo_handler (r : Req.t) : Handled :=
  mkHandled [WriteHeader 404; Write 9] []
            (SetAttribute "user" (AnyString "u1")).

Definition demo_readings : Readings :=
  mkReadings demo_rand16 demo_rand8 1700000000 2500000 1700000003
             1700000004 1700000005.



(** * Properties *)

(** ** The shape of a step *)

Lemma step_inv a σ σ' :
  step a σ = Some σ' →
  panicked σ = false ∧
  ((∃ op, a = ACall op ∧ σ' = call op σ) ∨
   (a = ATick ∧ is_Some (tickerC σ) ∧
    σ' = mkSystem (client σ) (Some true) (threads σ) (events σ) (stdout σ)
                  false) ∨
   σ' = panic σ ∨
   (∃ tid th th' c' tick' evs out forks,
      threads σ !! tid = Some th ∧
      Move tid (length (threads σ)) (client σ) (tickerC σ)
           th th' c' tick' evs out forks ∧
      σ' = commit tid th' c' tick' evs out forks σ)).
Proof.
  unfold step. destruct (panicked σ) eqn:Hp; [done|]. intros H. split; [done|].
  destruct a as [op| |tid env|tid done].
  - left. exists op. by simplify_eq.
  - right; left. destruct (tickerC σ) eqn:Ht; simplify_eq.
    eauto.
  - destruct (threads σ !! tid) as [th|] eqn:Hth; simplify_eq/=.
    destruct th as [r pc|pc|pc|pc]; simpl in H.
    + destruct (add_step tid (length (threads σ)) (client σ) r pc) eqn:Hs;
        simplify_eq/=; [by right; right; left|].
      right; right; right. eexists _, _, _, _, _, _, _, _.
      split; [done|]. split; [by apply MoveAdd|done].
    + destruct (Flush_step tid env (client σ) pc) eqn:Hs;
        simplify_eq/=; [by right; right; left|].
      right; right; right. eexists tid, (TFlush pc), _, _, _, _, _, _.
      split; [done|].
      split; [by eapply (MoveFlush _ _ _ _ env (TFlush pc))|done].
    + destruct pc as [| |pc|]; simplify_eq/=.
      * case_match; simplify_eq; [by right; right; left|].
        right; right; right. eexists _, _, _, _, _, _, _, _.
        split; [done|]. split; [apply MoveTicker; lia|done].
      * assert (Hgen :
          (∃ err, pc = FReturn err) ∨
          lift (λ pc', TWorker (WFlush pc')) tid σ
               (Flush_step tid env (client σ) pc) = Some σ').
        { destruct pc; eauto. }
        destruct Hgen as [[err ->]|Hl].
        { simplify_eq/=. right; right; right.
          eexists _, _, _, _, _, _, _, _.
          split; [done|]. split; [apply MoveLoop|done]. }
        destruct (Flush_step tid env (client σ) pc) eqn:Hs;
          simplify_eq/=; [by right; right; left|].
        right; right; right.
        eexists tid, (TWorker (WFlush pc)), _, _, _, _, _, _.
        split; [done|].
        split; [by eapply (MoveFlush _ _ _ _ env (TWorker (WFlush pc)))|done].
    + destruct pc as [| |pc]; simplify_eq/=.
      * right; right; right. eexists _, _, _, _, _, _, _, _.
        split; [done|]. split; [apply MoveCancel|done].
      * destruct (wg (client σ)) eqn:Hwg; simplify_eq.
        right; right; right. eexists _, _, _, _, _, _, _, _.
        split; [done|]. split; [by apply MoveWait|done].
      * destruct (Flush_step tid env (client σ) pc) eqn:Hs;
          simplify_eq/=; [by right; right; left|].
        right; right; right.
        eexists tid, (TClose (CFlush pc)), _, _, _, _, _, _.
        split; [done|].
        split; [by eapply (MoveFlush _ _ _ _ env (TClose (CFlush pc)))|done].
  - unfold flushWorker_select in H.
    destruct (threads σ !! tid) as [[| |[]|]|] eqn:Hth; simplify_eq.
    destruct done.
    + destruct (ctx (client σ)) eqn:Hc; simplify_eq.
      destruct (wg (client σ)) eqn:Hwg; simplify_eq; [by right; right; left|].
      right; right; right. eexists _, _, _, _, _, _, _, _.
      split; [done|]. split; [by eapply MoveDone|done].
    + destruct (tickerC σ) as [[]|] eqn:Ht; simplify_eq.
      right; right; right. eexists _, _, _, _, _, _, _, _.
      split; [done|]. split; [by apply MoveTick|done].
Qed.

(** ** Runs and reachable states *)

Lemma run_app sch1 sch2 σ :
  run (sch1 ++ sch2) σ = run sch1 σ ≫= run sch2.
Proof.
  revert σ. induction sch1 as [|a sch1 IH]; intros σ; simpl; [done|].
  destruct (step a σ); simpl; [apply IH|done].
Qed.

Lemma reachable_initial σ : initial σ → reachable σ.
Proof. intros H. by exists σ, []. Qed.

Lemma reachable_run sch σ σ' :
  reachable σ → run sch σ = Some σ' → reachable σ'.
Proof.
  intros (σ0 & sch0 & H0 & Hr) H. exists σ0, (sch0 ++ sch).
  split; [done|]. rewrite run_app, Hr. done.
Qed.

Lemma reachable_step a σ σ' :
  reachable σ → step a σ = Some σ' → reachable σ'.
Proof.
  intros Hr H. apply (reachable_run [a] σ); [done|]. simpl. by rewrite H.
Qed.

Lemma reachable_ind (P : System → Prop) :
  (∀ σ, initial σ → P σ) →
  (∀ a σ σ', reachable σ → P σ → step a σ = Some σ' → P σ') →
  ∀ σ, reachable σ → P σ.
Proof.
  intros Hi Hs σ (σ0 & sch & H0 & Hr). revert σ Hr.
  induction sch as [|a sch IH] using rev_ind; intros σ Hr.
  - simplify_eq/=. by apply Hi.
  - rewrite run_app in Hr.
    destruct (run sch σ0) as [σ1|] eqn:E1; simplify_eq/=.
    destruct (step a σ1) as [σ2|] eqn:E2; simplify_eq/=.
    eapply Hs; [|by apply IH|done]. by exists σ0, sch.
Qed.

Lemma make_Some {T} n (l : list T) : make n = Some l → 0 ≤ n ∧ l = [].
Proof. unfold make. case_match; intros; simplify_eq. split; [lia|done]. Qed.

Lemma make_nonneg {T} n : 0 ≤ n → make (T:=T) n = Some [].
Proof. unfold make. intros. case_match; [lia|done]. Qed.

Lemma initial_inv σ :
  initial σ →
  ∃ cfg, 0 < Config.BatchSize cfg ∧
    σ = mkSystem (mkClient cfg (Config.Timeout cfg) [] [] [] [] None false 1)
                 None [TWorker WTicker] [] [] false.
Proof.
  intros (Getenv & cfg & H). unfold New, make in H.
  repeat case_match; simplify_eq/=.
  all: eexists (Config.mk _ _ _ _ _ _ _ _ _); (split; [|reflexivity]);
    simpl; lia.
Qed.

(** ** The configuration is fixed at construction *)

Lemma append_spec r c c' b :
  append r c = (c', b) →
  config c' = config c ∧ httpClient c' = httpClient c ∧
  bufferMu c' = bufferMu c ∧ ctx c' = ctx c ∧ wg c' = wg c ∧
  (∀ k, buffer k c' =
        buffer k c ++ if decide (kind_of r = k) then [r] else []) ∧
  b = reached c (length (buffer (kind_of r) c')).
Proof.
  destruct r; simpl; unfold addLog_append, addSpan_append, addMetric_append,
    LogJob_append; intros; simplify_eq/=; repeat split; try done.
  all: try (intros []; simpl; rewrite ?fmap_app, ?app_nil_r; done).
  all: by rewrite !length_fmap.
Qed.

Lemma Flush_swap_spec c snap c' :
  Flush_swap c = Some (snap, c') →
  snap = mkSnapshot (logBuffer c) (spanBuffer c) (metricBuffer c)
                    (jobBuffer c) ∧
  c' = set_buffers [] [] [] [] c.
Proof.
  unfold Flush_swap, make. intros; repeat case_match; simplify_option_eq.
  done.
Qed.

Lemma Lock_spec me c c' :
  Lock me c = Some c' → bufferMu c = None ∧ c' = set_bufferMu (Some me) c.
Proof. unfold Lock. intros; case_match; simplify_eq. done. Qed.

(** The steps of an append and of a flush, case by case. *)
Lemma add_step_inv me child c r pc c' pc' evs out forks :
  add_step me child c r pc = Steps c' pc' evs out forks →
  out = [] ∧
  ((pc = ALock ∧ pc' = AAppend ∧ bufferMu c = None ∧
    c' = set_bufferMu (Some me) c ∧ evs = [] ∧ forks = []) ∨
   (∃ b, pc = AAppend ∧ pc' = AUnlock b ∧ append r c = (c', b) ∧
         evs = [EvAppend me r] ∧ forks = []) ∨
   (∃ b, pc = AUnlock b ∧ pc' = AGo b ∧ c' = Unlock c ∧ evs = [] ∧
         forks = []) ∨
   (pc = AGo true ∧ pc' = AReturn ∧ c' = c ∧ evs = [EvGo me child] ∧
    forks = [TFlush FLock]) ∨
   (pc = AGo false ∧ pc' = AReturn ∧ c' = c ∧ evs = [] ∧ forks = [])).
Proof.
  destruct pc; simpl; intros H.
  - destruct (Lock me c) eqn:E; simplify_eq.
    apply Lock_spec in E as [? ->]. naive_solver.
  - destruct (append r c) eqn:E. simplify_eq. naive_solver.
  - simplify_eq. naive_solver.
  - destruct shouldFlush; simplify_eq; naive_solver.
  - done.
Qed.

Lemma note_spec c what lastErr err :
  (note c what lastErr err).1 =
  match err with Some e => Some e | None => lastErr end.
Proof. by destruct err. Qed.

(** [Flush_step] never forks; it either works on the mutex and the
    buffers, silently, or calls [send] once and leaves the client alone. *)
Lemma Flush_step_inv me env c pc c' pc' evs out forks :
  Flush_step me env c pc = Steps c' pc' evs out forks →
  forks = [] ∧
  ((pc = FLock ∧ pc' = FSwap ∧ bufferMu c = None ∧
    c' = set_bufferMu (Some me) c ∧ evs = [] ∧ out = []) ∨
   (∃ snap, pc = FSwap ∧ pc' = FUnlock snap ∧
      snap = mkSnapshot (logBuffer c) (spanBuffer c) (metricBuffer c)
                        (jobBuffer c) ∧
      c' = set_buffers [] [] [] [] c ∧ evs = [EvSwap me snap] ∧ out = []) ∨
   (∃ snap, pc = FUnlock snap ∧ pc' = FLogs snap None ∧ c' = Unlock c ∧
      evs = [] ∧ out = []) ∨
   (c' = c ∧
    ((∃ snap e, pc = FLogs snap e ∧
        if nonempty (logs snap)
        then let d := sendLogs c (logs snap) env in
             pc' = FSpans snap (note c "logs" e (result d)).1 ∧
             out = (note c "logs" e (result d)).2 ∧ evs = [EvSend me d]
        else pc' = FSpans snap e ∧ out = [] ∧ evs = []) ∨
     (∃ snap e, pc = FSpans snap e ∧
        if nonempty (spans snap)
        then let d := sendSpans c (spans snap) env in
             pc' = FMetrics snap (note c "spans" e (result d)).1 ∧
             out = (note c "spans" e (result d)).2 ∧ evs = [EvSend me d]
        else pc' = FMetrics snap e ∧ out = [] ∧ evs = []) ∨
     (∃ snap e, pc = FMetrics snap e ∧
        if nonempty (metrics snap)
        then let d := sendMetrics c (metrics snap) env in
             pc' = FJobs (jobs snap) (note c "metrics" e (result d)).1 ∧
             out = (note c "metrics" e (result d)).2 ∧ evs = [EvSend me d]
        else pc' = FJobs (jobs snap) e ∧ out = [] ∧ evs = []) ∨
     (∃ job rest e, pc = FJobs (job :: rest) e ∧
        let d := sendJob c job env in
        pc' = FJobs rest (note c "job" e (result d)).1 ∧
        out = (note c "job" e (result d)).2 ∧ evs = [EvSend me d]) ∨
     (∃ e, pc = FJobs [] e ∧ pc' = FReturn e ∧ out = [] ∧ evs = [])))).
Proof.
  destruct pc as [| |snap|snap e|snap e|snap e|[|job rest] e|e]; simpl;
    intros H.
  - destruct (Lock me c) eqn:E; simplify_eq.
    apply Lock_spec in E as [? ->]. naive_solver.
  - destruct (Flush_swap c) as [[snap c1]|] eqn:E; simplify_eq.
    apply Flush_swap_spec in E as [-> ->]. naive_solver.
  - simplify_eq. naive_solver.
  - split; [by repeat case_match; simplify_eq|].
    right; right; right. split; [by repeat case_match; simplify_eq|].
    left. exists snap, e. split; [done|].
    destruct (nonempty (logs snap)); [|by simplify_eq].
    simpl. destruct (note c "logs" e _); by simplify_eq.
  - split; [by repeat case_match; simplify_eq|].
    right; right; right. split; [by repeat case_match; simplify_eq|].
    right; left. exists snap, e. split; [done|].
    destruct (nonempty (spans snap)); [|by simplify_eq].
    simpl. destruct (note c "spans" e _); by simplify_eq.
  - split; [by repeat case_match; simplify_eq|].
    right; right; right. split; [by repeat case_match; simplify_eq|].
    right; right; left. exists snap, e. split; [done|].
    destruct (nonempty (metrics snap)); [|by simplify_eq].
    simpl. destruct (note c "metrics" e _); by simplify_eq.
  - simplify_eq. split; [done|]. right; right; right. split; [done|].
    repeat right. by exists e.
  - split; [by repeat case_match; simplify_eq|].
    right; right; right. split; [by repeat case_match; simplify_eq|].
    right; right; right; left. exists job, rest, e. split; [done|].
    simpl. destruct (note c "job" e _); by simplify_eq.
  - done.
Qed.

Lemma add_step_config me child c r pc c' pc' evs out forks :
  add_step me child c r pc = Steps c' pc' evs out forks →
  config c' = config c.
Proof.
  intros [_ H]%add_step_inv.
  destruct H as [(_ & _ & _ & -> & _)|[(b & _ & _ & H & _)
                 |[(b & _ & _ & -> & _)|[(_ & _ & -> & _)|(_ & _ & -> & _)]]]];
    try done.
  by eapply append_spec.
Qed.

Lemma Flush_step_config me env c pc c' pc' evs out forks :
  Flush_step me env c pc = Steps c' pc' evs out forks →
  config c' = config c.
Proof.
  intros [_ H]%Flush_step_inv.
  destruct H as [(_ & _ & _ & -> & _)|[(s & _ & _ & _ & -> & _)
                 |[(s & _ & _ & -> & _)|[-> _]]]]; done.
Qed.

Lemma Move_config me child c tick th th' c' tick' evs out forks :
  Move me child c tick th th' c' tick' evs out forks →
  config c' = config c.
Proof.
  destruct 1; eauto using add_step_config, Flush_step_config.
Qed.

Lemma step_config a σ σ' :
  step a σ = Some σ' → config (client σ') = config (client σ).
Proof.
  intros H. apply step_inv in H as [_ H].
  destruct H as [(op & -> & ->)|[(-> & _ & ->)|[->|H]]]; try done.
  destruct H as (tid & th & th' & c' & tick' & evs & out & forks & _ & Hm & ->).
  simpl. eauto using Move_config.
Qed.

Lemma reachable_BatchSize σ :
  reachable σ → 0 < Config.BatchSize (config (client σ)).
Proof.
  revert σ. apply reachable_ind.
  - intros σ (cfg & Hb & ->)%initial_inv. done.
  - intros a σ σ' _ IH H. by rewrite (step_config _ _ _ H).
Qed.

(** ** The thread pool *)

Lemma commit_lookup (l forks : list Thread) (tid : nat) th' (t : nat) x :
  (tid < length l)%nat →
  (<[tid:=th']> l ++ forks) !! t = Some x →
  (t = tid ∧ x = th') ∨
  (t ≠ tid ∧ l !! t = Some x) ∨
  (length l ≤ t ∧ forks !! (t - length l) = Some x)%nat.
Proof.
  intros Hlt H. destruct (decide (t < length l)%nat) as [Ht|Ht].
  - rewrite lookup_app_l in H by (rewrite length_insert; lia).
    destruct (decide (t = tid)) as [->|Hne].
    + rewrite list_lookup_insert_eq in H by lia. left. by simplify_eq.
    + rewrite list_lookup_insert_ne in H by done. right; left. done.
  - rewrite lookup_app_r in H by (rewrite length_insert; lia).
    rewrite length_insert in H. right; right. split; [lia|done].
Qed.

Lemma commit_lookup_self (l forks : list Thread) (tid : nat) th' :
  (tid < length l)%nat → (<[tid:=th']> l ++ forks) !! tid = Some th'.
Proof.
  intros. rewrite lookup_app_l by (rewrite length_insert; lia).
  by apply list_lookup_insert_eq.
Qed.

Lemma commit_lookup_other (l forks : list Thread) (tid : nat) th' (t : nat) :
  t ≠ tid → (t < length l)%nat →
  (<[tid:=th']> l ++ forks) !! t = l !! t.
Proof.
  intros. rewrite lookup_app_l by (rewrite length_insert; lia).
  by apply list_lookup_insert_ne.
Qed.

Lemma call_lookup (l : list Thread) th (t : nat) x :
  (l ++ [th]) !! t = Some x →
  l !! t = Some x ∨ (t = length l ∧ x = th).
Proof.
  intros H. destruct (decide (t < length l)%nat).
  - rewrite lookup_app_l in H by done. by left.
  - rewrite lookup_app_r in H by lia.
    destruct (t - length l)%nat eqn:E; simplify_eq/=.
    right. split; [lia|done].
Qed.

Lemma Move_forks me child c tick th th' c' tick' evs out forks :
  Move me child c tick th th' c' tick' evs out forks →
  forks = [] ∨ (forks = [TFlush FLock] ∧ evs = [EvGo me child] ∧ c' = c).
Proof.
  destruct 1 as [r pc pc' c' evs out forks H|env th pc pc' c' evs out forks _ H
                 | | | | | |]; auto.
  - apply add_step_inv in H as [_ H]. naive_solver.
  - apply Flush_step_inv in H as [-> _]. auto.
Qed.

Lemma flush_pc_set pc pc' th :
  flush_pc th = Some pc → flush_pc (set_flush_pc pc' th) = Some pc'.
Proof. destruct th as [| |[]|[]]; naive_solver. Qed.

Lemma critical_flush th pc :
  flush_pc th = Some pc →
  critical th = match pc with FSwap | FUnlock _ => true | _ => false end.
Proof. destruct th as [| |[]|[]]; intros; simplify_eq/=; done. Qed.

(** ** Mutual exclusion *)

Lemma Move_lock me child c tick th th' c' tick' evs out forks :
  Move me child c tick th th' c' tick' evs out forks →
  (critical th = true ↔ bufferMu c = Some me) →
  (critical th' = true ↔ bufferMu c' = Some me) ∧
  (∀ t, t ≠ me → bufferMu c' = Some t ↔ bufferMu c = Some t).
Proof.
  destruct 1 as [r pc pc' c' evs out forks H|env th pc pc' c' evs out forks Hpc H
                 | | | | | |]; simpl; try tauto.
  - apply add_step_inv in H as [_ H].
    destruct H as [(-> & -> & Hmu & -> & _)|[(b & -> & -> & H & _)
                   |[(b & -> & -> & -> & _)
                   |[(-> & -> & -> & _)|(-> & -> & -> & _)]]]]; simpl.
    + rewrite Hmu. naive_solver.
    + apply append_spec in H as (_ & _ & -> & _). naive_solver.
    + naive_solver.
    + naive_solver.
    + naive_solver.
  - rewrite (critical_flush _ _ Hpc),
      (critical_flush _ _ (flush_pc_set _ pc' _ Hpc)).
    apply Flush_step_inv in H as [_ H].
    destruct H as [(-> & -> & Hmu & -> & _)|[(s & -> & -> & _ & -> & _)
                   |[(s & -> & -> & -> & _)|[-> H]]]]; simpl.
    + rewrite Hmu. naive_solver.
    + naive_solver.
    + naive_solver.
    + destruct H as [(s & e & -> & H)|[(s & e & -> & H)|[(s & e & -> & H)
                     |[(j & rest & e & -> & H)|(e & -> & -> & _)]]]];
        simpl in *; repeat case_match; naive_solver.
Qed.

Lemma reachable_lock σ : reachable σ → lock_inv σ.
Proof.
  revert σ. apply reachable_ind.
  - intros σ (cfg & _ & ->)%initial_inv. split; [done|].
    intros [|t] th H; simplify_eq/=. done.
  - intros a σ σ' _ [IH1 IH2] H. apply step_inv in H as [_ H].
    destruct H as [(op & -> & ->)|[(-> & _ & ->)|[->|H]]]; try done.
    + split; simpl.
      * intros t (th & Hth & Hc)%IH1. exists th. split; [|done].
        by apply lookup_app_l_Some.
      * intros t th [H|[-> ->]]%call_lookup; [by apply IH2|].
        by destruct op.
    + destruct H as (tid & th & th' & c' & tick' & evs & out & forks
                     & Hth & Hm & ->).
      pose proof (lookup_lt_Some _ _ _ Hth) as Hlt.
      destruct (Move_lock _ _ _ _ _ _ _ _ _ _ _ Hm) as [Hself Hother].
      { split; [by apply IH2|]. intros (th0 & ? & ?)%IH1. by simplify_eq. }
      split; simpl.
      * intros t Hmu. destruct (decide (t = tid)) as [->|Hne].
        -- exists th'. split; [by apply commit_lookup_self|]. by apply Hself.
        -- apply Hother in Hmu; [|done].
           apply IH1 in Hmu as (th0 & Hth0 & Hc). exists th0. split; [|done].
           rewrite commit_lookup_other; eauto using lookup_lt_Some.
      * intros t x Hx Hc.
        apply commit_lookup in Hx; [|done].
        destruct Hx as [[-> ->]|[[Hne Hx]|[_ Hx]]].
        -- by apply Hself.
        -- apply Hother; [done|]. by eapply IH2.
        -- apply Move_forks in Hm as [->|(-> & _)]; [done|].
           destruct (t - length (threads σ))%nat; simplify_eq/=.
Qed.

(** A thread about to call [send] does not hold the mutex, and a thread
    swapping the buffers does. *)
Lemma sending_not_critical th : sending th = true → critical th = false.
Proof.
  unfold sending. destruct (flush_pc th) as [pc|] eqn:E; [|done].
  rewrite (critical_flush _ _ E). by destruct pc.
Qed.

(** ** What a step does to the buffers and to the record of events *)

Lemma Move_effect me child c tick th th' c' tick' evs out forks :
  Move me child c tick th th' c' tick' evs out forks →
  (evs = [] ∧ ∀ k, buffer k c' = buffer k c) ∨
  (∃ r, evs = [EvAppend me r] ∧
        ∀ k, buffer k c' =
             buffer k c ++ if decide (kind_of r = k) then [r] else []) ∨
  (∃ snap, evs = [EvSwap me snap] ∧
           (∀ k, held k snap = buffer k c) ∧ ∀ k, buffer k c' = []) ∨
  (evs = [EvGo me child] ∧ c' = c) ∨
  (∃ d, evs = [EvSend me d] ∧ c' = c).
Proof.
  destruct 1 as [r pc pc' c' evs out forks H|env th pc pc' c' evs out forks Hpc H
                 | | | | | |]; auto.
  - apply add_step_inv in H as [_ H].
    destruct H as [(-> & -> & Hmu & -> & -> & _)|[(b & -> & -> & H & -> & _)
                   |[(b & -> & -> & -> & -> & _)
                   |[(-> & -> & -> & -> & _)|(-> & -> & -> & -> & _)]]]];
      auto 6.
    right; left. exists r. split; [done|].
    by apply append_spec in H as (_ & _ & _ & _ & _ & H & _).
  - apply Flush_step_inv in H as [_ H].
    destruct H as [(-> & -> & Hmu & -> & -> & _)
                   |[(s & -> & -> & -> & -> & -> & _)
                   |[(s & -> & -> & -> & -> & _)|[-> H]]]].
    + auto.
    + right; right; left. eexists. split; [done|]. split; by intros [].
    + auto.
    + destruct H as [(s & e & -> & H)|[(s & e & -> & H)|[(s & e & -> & H)
                     |[(j & rest & e & -> & H)|(e & -> & -> & _ & ->)]]]];
        simpl in *; repeat case_match; try destruct H as (_ & _ & ->);
        eauto 10.
Qed.

Lemma step_effect a σ σ' :
  step a σ = Some σ' →
  (events σ' = events σ ∧
   ∀ k, buffer k (client σ') = buffer k (client σ)) ∨
  (∃ t r, events σ' = events σ ++ [EvAppend t r] ∧
     ∀ k, buffer k (client σ') =
          buffer k (client σ) ++ if decide (kind_of r = k) then [r] else []) ∨
  (∃ t snap, events σ' = events σ ++ [EvSwap t snap] ∧
     (∀ k, held k snap = buffer k (client σ)) ∧
     ∀ k, buffer k (client σ') = []) ∨
  (∃ t child, events σ' = events σ ++ [EvGo t child] ∧
     client σ' = client σ) ∨
  (∃ t d, events σ' = events σ ++ [EvSend t d] ∧ client σ' = client σ).
Proof.
  intros H. apply step_inv in H as [_ H].
  destruct H as [(op & -> & ->)|[(-> & _ & ->)|[->|H]]]; auto.
  destruct H as (tid & th & th' & c' & tick' & evs & out & forks
                 & Hth & Hm & ->). simpl.
  apply Move_effect in Hm
    as [[-> H]|[(r & -> & H)|[(s & -> & H)|[[-> ->]|(d & -> & ->)]]]].
  - left. by rewrite app_nil_r.
  - right; left. eauto.
  - right; right; left. eauto.
  - right; right; right; left. eauto.
  - repeat right. eauto.
Qed.

Lemma appended_app k evs1 evs2 :
  appended k (evs1 ++ evs2) = appended k evs1 ++ appended k evs2.
Proof. apply bind_app. Qed.

Lemma swapped_app k evs1 evs2 :
  swapped k (evs1 ++ evs2) = swapped k evs1 ++ swapped k evs2.
Proof. apply bind_app. Qed.

Lemma snoc_eq_middle {A} (l pre post : list A) (e x : A) :
  l ++ [e] = pre ++ x :: post →
  (post = [] ∧ l = pre ∧ e = x) ∨
  (∃ post', post = post' ++ [e] ∧ l = pre ++ x :: post').
Proof.
  destruct post as [|p post _] using rev_ind; intros H.
  - apply app_inj_tail in H as [-> ->]. by left.
  - right. exists post.
    rewrite app_comm_cons, app_assoc in H.
    apply app_inj_tail in H as [-> ->]. done.
Qed.

(** ** Conservation of records across swaps *)

Lemma reachable_conserved σ : reachable σ → conserved σ.
Proof.
  revert σ. apply reachable_ind.
  - intros σ (cfg & _ & ->)%initial_inv. by intros [].
  - intros a σ σ' _ IH H k. specialize (IH k).
    apply step_effect in H
      as [[-> H]|[(t & r & -> & H)|[(t & s & -> & Hs & H)
         |[(t & ch & -> & ->)|(t & d & -> & ->)]]]];
      rewrite ?appended_app, ?swapped_app, ?H, ?IH; simpl;
      rewrite ?app_nil_r, <-?app_assoc; try done.
    by rewrite Hs.
Qed.

Lemma reachable_swaps_exact σ : reachable σ → swaps_exact σ.
Proof.
  revert σ. apply reachable_ind.
  - intros σ (cfg & _ & ->)%initial_inv pre t snap post H.
    by destruct pre.
  - intros a σ σ' Hr IH H pre t snap post Hev k.
    pose proof (reachable_conserved _ Hr k) as Hc.
    apply step_effect in H
      as [[He H]|[(t' & r & He & H)|[(t' & s & He & Hs & H)
         |[(t' & ch & He & _)|(t' & d & He & _)]]]];
      rewrite He in Hev; try (by eapply IH);
      apply snoc_eq_middle in Hev as [(_ & <- & ?)|(post' & _ & Hev)];
      simplify_eq; try (by eapply IH).
    by rewrite Hs.
Qed.


(** ** The progress of a flush *)

Lemma current_snoc t evs e :
  current t (evs ++ [e]) = current_step t (current t evs) e.
Proof. unfold current. by rewrite foldl_app. Qed.

Lemma current_snoc_other t evs e :
  ev_tid e ≠ t → current t (evs ++ [e]) = current t evs.
Proof.
  intros H. rewrite current_snoc.
  destruct e; simpl in *; try done; by rewrite decide_False.
Qed.

Lemma current_swap t evs s :
  current t (evs ++ [EvSwap t s]) = Some (s, []).
Proof. rewrite current_snoc. simpl. by rewrite decide_True. Qed.

Lemma current_send t evs d s ds :
  current t evs = Some (s, ds) →
  current t (evs ++ [EvSend t d]) = Some (s, ds ++ [d]).
Proof. intros H. rewrite current_snoc, H. simpl. by rewrite decide_True. Qed.

Lemma last_error_snoc ds d :
  last_error (ds ++ [d]) =
  match result d with Some e => Some e | None => last_error ds end.
Proof. unfold last_error. by rewrite foldl_app. Qed.

Lemma send_called c ep p env : called (send c ep p env) = (ep, p).
Proof.
  unfold send, Do. repeat case_match; simplify_eq/=; done.
Qed.

Lemma Move_events me child c tick th th' c' tick' evs out forks :
  Move me child c tick th th' c' tick' evs out forks →
  evs = [] ∨ ∃ e, evs = [e] ∧ ev_tid e = me.
Proof.
  intros H. apply Move_effect in H
    as [[-> H]|[(r & -> & H)|[(s & -> & H)|[[-> ->]|(d & -> & ->)]]]];
    eauto.
Qed.

Lemma Flush_step_progress me env c pc c' pc' evs out forks E :
  Flush_step me env c pc = Steps c' pc' evs out forks →
  progress me E pc → progress me (E ++ evs) pc'.
Proof.
  intros [_ H]%Flush_step_inv.
  destruct H as [(-> & -> & Hmu & -> & -> & _)
                 |[(s & -> & -> & -> & -> & -> & _)
                 |[(s & -> & -> & -> & -> & _)|[-> H]]]]; simpl.
  - done.
  - intros _. apply current_swap.
  - rewrite app_nil_r. done.
  - destruct H as [(s & e & -> & H)|[(s & e & -> & H)|[(s & e & -> & H)
                   |[(j & rest & e & -> & H)|(e & -> & -> & _ & ->)]]]];
      simpl in *.
    + intros [Hc ->]. destruct (nonempty (logs s)) eqn:Hne; destruct H as (-> & _ & ->);
        simpl; unfold route_logs; rewrite Hne.
      * eexists. split; [by apply current_send|]. simpl.
        unfold sendLogs. rewrite send_called, note_spec. done.
      * rewrite app_nil_r. by exists [].
    + intros (ds & Hc & Hds & ->). destruct (nonempty (spans s)) eqn:Hne; destruct H as (-> & _ & ->);
        simpl; unfold route_spans; rewrite Hne.
      * eexists. split; [by apply current_send|].
        rewrite fmap_app, Hds, last_error_snoc, note_spec. simpl.
        unfold sendSpans. by rewrite send_called.
      * rewrite !app_nil_r. by exists ds.
    + intros (ds & Hc & Hds & ->).
      destruct (nonempty (metrics s)) eqn:Hne; destruct H as (-> & _ & ->);
        simpl.
      * exists s, (ds ++ [sendMetrics c (metrics s) env]), [].
        split; [by apply current_send|]. unfold route_metrics.
        rewrite Hne, fmap_app, Hds, last_error_snoc, note_spec. simpl.
        unfold sendMetrics. rewrite send_called, <-app_assoc. done.
      * exists s, ds, []. unfold route_metrics.
        rewrite Hne, ?app_nil_r. done.
    + intros (s & ds & sent & Hc & Hj & Hds & ->).
      destruct H as (-> & _ & ->).
      exists s, (ds ++ [sendJob c j env]), (sent ++ [j]).
      split; [by apply current_send|].
      rewrite !fmap_app, Hds, last_error_snoc, note_spec, <-!app_assoc.
      simpl. unfold sendJob at 1. rewrite send_called.
      split; [by rewrite Hj, <-?app_assoc|done].
    + intros (s & ds & sent & Hc & Hj & Hds & ->).
      rewrite app_nil_r in *. exists s, ds. split; [done|].
      unfold routes. rewrite Hds, Hj, ?app_nil_r. done.
Qed.

Lemma progress_other t evs e pc :
  ev_tid e ≠ t → progress t evs pc → progress t (evs ++ [e]) pc.
Proof.
  intros H. destruct pc; simpl; rewrite ?current_snoc_other by done; done.
Qed.

Lemma progress_others t me evs evs' pc :
  (evs' = [] ∨ ∃ e, evs' = [e] ∧ ev_tid e = me) → t ≠ me →
  progress t evs pc → progress t (evs ++ evs') pc.
Proof.
  intros [->|(e & -> & <-)] Hne; [by rewrite app_nil_r|].
  by apply progress_other.
Qed.

Lemma reachable_flush σ : reachable σ → flush_inv σ.
Proof.
  revert σ. apply reachable_ind.
  - intros σ (cfg & _ & ->)%initial_inv [|t] th pc H; simplify_eq/=. done.
  - intros a σ σ' _ IH H. apply step_inv in H as [_ H].
    destruct H as [(op & -> & ->)|[(-> & _ & ->)|[->|H]]]; try done.
    + intros t th pc [H|[-> ->]]%call_lookup Hpc; [by eapply IH|].
      destruct op; simplify_eq/=; done.
    + destruct H as (tid & th & th' & c' & tick' & evs & out & forks
                     & Hth & Hm & ->).
      pose proof (lookup_lt_Some _ _ _ Hth) as Hlt.
      pose proof (Move_events _ _ _ _ _ _ _ _ _ _ _ Hm) as Hev.
      intros t x pc Hx Hpc. simpl in *.
      apply commit_lookup in Hx; [|done].
      destruct Hx as [[-> ->]|[[Hne Hx]|[_ Hx]]].
      * destruct Hm; simplify_eq/=; try done.
        erewrite flush_pc_set in Hpc by done. simplify_eq.
        eapply Flush_step_progress; [done|]. by eapply IH.
      * eapply progress_others; [done..|]. by eapply IH.
      * apply Move_forks in Hm as [->|(-> & _)]; [done|].
        destruct (t - length (threads σ))%nat; simplify_eq/=. done.
Qed.

(** ** Thread ids are never reused *)

Lemma reachable_bounded σ : reachable σ → events_bounded σ.
Proof.
  revert σ. apply reachable_ind.
  - intros σ (cfg & _ & ->)%initial_inv e H. by apply elem_of_nil in H.
  - intros a σ σ' _ IH H. apply step_inv in H as [_ H].
    destruct H as [(op & -> & ->)|[(-> & _ & ->)|[->|H]]]; try done.
    + intros e He. simpl in *. rewrite length_app. apply IH in He. lia.
    + destruct H as (tid & th & th' & c' & tick' & evs & out & forks
                     & Hth & Hm & ->).
      apply lookup_lt_Some in Hth.
      intros e He. simpl in *. rewrite length_app, length_insert.
      apply elem_of_app in He as [He|He]; [apply IH in He; lia|].
      apply Move_events in Hm as [->|(e' & -> & <-)];
        [by apply elem_of_nil in He|].
      apply list_elem_of_singleton in He as ->. lia.
Qed.

Lemma sends_of_app t evs1 evs2 :
  sends_of t (evs1 ++ evs2) = sends_of t evs1 ++ sends_of t evs2.
Proof. apply bind_app. Qed.

Lemma swaps_of_app t evs1 evs2 :
  swaps_of t (evs1 ++ evs2) = swaps_of t evs1 ++ swaps_of t evs2.
Proof. apply bind_app. Qed.

Lemma sends_of_other t evs :
  (∀ e, e ∈ evs → ev_tid e ≠ t) → sends_of t evs = [].
Proof.
  induction evs as [|e evs IH]; intros H; [done|].
  change (e :: evs) with ([e] ++ evs). rewrite sends_of_app, IH.
  - assert (ev_tid e ≠ t) by (apply H; left).
    destruct e; simpl in *; try done. by rewrite decide_False.
  - intros e' He'. apply H. by right.
Qed.

Lemma swaps_of_other t evs :
  (∀ e, e ∈ evs → ev_tid e ≠ t) → swaps_of t evs = [].
Proof.
  induction evs as [|e evs IH]; intros H; [done|].
  change (e :: evs) with ([e] ++ evs). rewrite swaps_of_app, IH.
  - assert (ev_tid e ≠ t) by (apply H; left).
    destruct e; simpl in *; try done. by rewrite decide_False.
  - intros e' He'. apply H. by right.
Qed.

Lemma current_other t evs evs' :
  (∀ e, e ∈ evs' → ev_tid e ≠ t) → current t (evs ++ evs') = current t evs.
Proof.
  induction evs' as [|e evs' IH] using rev_ind; intros H.
  - by rewrite app_nil_r.
  - rewrite app_assoc, current_snoc_other, IH; [done| |].
    + intros e' He'. apply H, elem_of_app. by left.
    + apply H, elem_of_app. right. by left.
Qed.

Lemma Move_events_tid me child c tick th th' c' tick' evs out forks :
  Move me child c tick th th' c' tick' evs out forks →
  ∀ e, e ∈ evs → ev_tid e = me.
Proof.
  intros [->|(e' & -> & <-)]%Move_events e He.
  - by apply elem_of_nil in He.
  - by apply list_elem_of_singleton in He as ->.
Qed.

(** ** A call of [Flush] or [Close] swaps the buffers once *)

Lemma once_others t evs evs' pre :
  (∀ e, e ∈ evs' → ev_tid e ≠ t) → once t evs pre → once t (evs ++ evs') pre.
Proof.
  intros H. unfold once.
  rewrite swaps_of_app, sends_of_app, current_other,
    (swaps_of_other t evs'), (sends_of_other t evs'), !app_nil_r by done.
  done.
Qed.

Lemma Flush_step_once me env c pc c' pc' evs out forks E :
  Flush_step me env c pc = Steps c' pc' evs out forks →
  once me E (match pc with FLock | FSwap => true | _ => false end) →
  once me (E ++ evs) (match pc' with FLock | FSwap => true | _ => false end).
Proof.
  intros [_ H]%Flush_step_inv. unfold once.
  rewrite swaps_of_app, sends_of_app.
  destruct H as [(-> & -> & Hmu & -> & -> & _)
                 |[(s & -> & -> & -> & -> & -> & _)
                 |[(s & -> & -> & -> & -> & _)|[-> H]]]]; simpl.
  - by rewrite !app_nil_r.
  - intros [-> ->]. eexists _, []. rewrite current_swap, decide_True by done.
    done.
  - by rewrite !app_nil_r.
  - assert (∀ d, (∃ s ds, current me E = Some (s, ds) ∧
                    swaps_of me E = [s] ∧ sends_of me E = ds) →
                 ∃ s ds, current me (E ++ [EvSend me d]) = Some (s, ds) ∧
                    swaps_of me E ++ swaps_of me [EvSend me d] = [s] ∧
                    sends_of me E ++ sends_of me [EvSend me d] = ds)
      as Hsend.
    { intros d (s & ds & Hc & Hs & Hd). exists s, (ds ++ [d]).
      rewrite (current_send _ _ _ _ _ Hc), Hs, Hd. simpl.
      rewrite decide_True by done. done. }
    destruct H as [(s & e & -> & H)|[(s & e & -> & H)|[(s & e & -> & H)
                   |[(j & rest & e & -> & H)|(e & -> & -> & _ & ->)]]]];
      try (cbv zeta in H; destruct (nonempty _));
      try (cbv zeta in H; destruct H as (-> & _ & ->));
      try apply Hsend; rewrite ?app_nil_r; auto.
Qed.

Lemma before_swap_flush th pc :
  oneshot th = true → flush_pc th = Some pc →
  before_swap th = match pc with FLock | FSwap => true | _ => false end.
Proof. destruct th as [| |[]|[]]; intros; simplify_eq/=; done. Qed.

Lemma oneshot_set pc th : oneshot (set_flush_pc pc th) = oneshot th.
Proof. by destruct th. Qed.

Lemma reachable_oneshot σ : reachable σ → oneshot_inv σ.
Proof.
  revert σ. apply reachable_ind.
  - intros σ (cfg & _ & ->)%initial_inv [|t] th H; simplify_eq/=. done.
  - intros a σ σ' Hr IH H.
    pose proof (reachable_bounded _ Hr) as Hb.
    assert (∀ t, (length (threads σ) ≤ t)%nat →
                 ∀ e, e ∈ events σ → ev_tid e ≠ t) as Hfresh.
    { intros t Ht e He%Hb. lia. }
    apply step_inv in H as [_ H].
    destruct H as [(op & -> & ->)|[(-> & _ & ->)|[->|H]]]; try done.
    + intros t th [H|[-> ->]]%call_lookup Hone; [by eapply IH|]. simpl.
      assert (before_swap (start op) = true) as ->
        by (destruct op; simplify_eq/=; done).
      split; [apply swaps_of_other|apply sends_of_other]; by apply Hfresh.
    + destruct H as (tid & th & th' & c' & tick' & evs & out & forks
                     & Hth & Hm & ->).
      pose proof (lookup_lt_Some _ _ _ Hth) as Hlt.
      pose proof (Move_events_tid _ _ _ _ _ _ _ _ _ _ _ Hm) as Hev.
      intros t x Hx Hone. simpl in *.
      apply commit_lookup in Hx; [|done].
      destruct Hx as [[-> ->]|[[Hne Hx]|[Hge Hx]]].
      * destruct Hm; simplify_eq/=; try done.
        -- rewrite oneshot_set in Hone.
           erewrite before_swap_flush;
             [|by rewrite oneshot_set|by eapply flush_pc_set].
           eapply Flush_step_once; [done|].
           erewrite <-before_swap_flush by done. by eapply IH.
        -- rewrite app_nil_r. by apply (IH _ _ Hth).
        -- rewrite app_nil_r. by apply (IH _ _ Hth).
      * apply once_others; [|by eapply IH].
        intros e He%Hev. lia.
      * apply Move_forks in Hm as [->|(-> & -> & _)]; [done|].
        destruct (t - length (threads σ))%nat as [|[]] eqn:E; simplify_eq/=.
        rewrite swaps_of_app, sends_of_app,
          (swaps_of_other _ (events σ)), (sends_of_other _ (events σ))
          by (apply Hfresh; lia). done.
Qed.

(** ** One call of [send] *)

Lemma send_cancelled c ep p env :
  ctx c = true →
  wire (send c ep p env) = None ∧ is_Some (result (send c ep p env)).
Proof.
  intros Hc. unfold send, Do. rewrite Hc.
  repeat case_match; simplify_eq/=; eauto.
Qed.



(** ** Every recorded call of [send] was made by [send] *)

Lemma Move_send me child c tick th th' c' tick' evs out forks d :
  Move me child c tick th th' c' tick' evs out forks →
  EvSend me d ∈ evs →
  is_Some (flush_pc th) ∧ ∃ ep p env, d = send c ep p env.
Proof.
  destruct 1 as [r pc pc' c' evs out forks H|env th pc pc' c' evs out forks Hpc H
                 | | | | | |]; try (by intros ?%elem_of_nil).
  - apply add_step_inv in H as [_ H].
    destruct H as [(-> & -> & Hmu & -> & -> & _)|[(b & -> & -> & H & -> & _)
                   |[(b & -> & -> & -> & -> & _)
                   |[(-> & -> & -> & -> & _)|(-> & -> & -> & -> & _)]]]];
      intros Hin; try (by apply elem_of_nil in Hin);
      by apply list_elem_of_singleton in Hin.
  - intros Hin. split; [by eexists|].
    apply Flush_step_inv in H as [_ H].
    destruct H as [(-> & -> & Hmu & -> & -> & _)
                   |[(s & -> & -> & -> & -> & -> & _)
                   |[(s & -> & -> & -> & -> & _)|[-> H]]]];
      try (by apply elem_of_nil in Hin);
      try (by apply list_elem_of_singleton in Hin).
    destruct H as [(s & e & -> & H)|[(s & e & -> & H)|[(s & e & -> & H)
                   |[(j & rest & e & -> & H)|(e & -> & -> & _ & ->)]]]];
      try (cbv zeta in H; destruct (nonempty _));
      try (cbv zeta in H; destruct H as (-> & _ & ->));
      try (by apply elem_of_nil in Hin);
      apply list_elem_of_singleton in Hin; simplify_eq;
      unfold sendLogs, sendSpans, sendMetrics, sendJob; eauto.
Qed.


(** ** Threads keep their role *)

Lemma Move_role me child c tick th th' c' tick' evs out forks :
  Move me child c tick th th' c' tick' evs out forks → role th' = role th.
Proof. destruct 1; try done. by destruct th. Qed.

(** ** Cancellation and the wait group *)

Lemma Flush_step_frame me env c pc c' pc' evs out forks :
  Flush_step me env c pc = Steps c' pc' evs out forks →
  ctx c' = ctx c ∧ wg c' = wg c.
Proof.
  intros [_ H]%Flush_step_inv.
  destruct H as [(-> & -> & Hmu & -> & -> & _)
                 |[(s & -> & -> & -> & -> & -> & _)
                 |[(s & -> & -> & -> & -> & _)|[-> H]]]]; done.
Qed.

Lemma Move_ctx me child c tick th th' c' tick' evs out forks :
  Move me child c tick th th' c' tick' evs out forks →
  ctx c' = ctx c ∨ (th = TClose CCancel ∧ ctx c' = true).
Proof.
  destruct 1 as [r pc pc' c' evs out forks H|env th pc pc' c' evs out forks Hpc H
                 | | | | | |]; auto.
  - apply add_step_inv in H as [_ H].
    destruct H as [(-> & -> & Hmu & -> & -> & _)|[(b & -> & -> & H & -> & _)
                   |[(b & -> & -> & -> & -> & _)
                   |[(-> & -> & -> & -> & _)|(-> & -> & -> & -> & _)]]]];
      auto.
    apply append_spec in H as (_ & _ & _ & -> & _). auto.
  - apply Flush_step_inv in H as [_ H].
    destruct H as [(-> & -> & Hmu & -> & -> & _)
                   |[(s & -> & -> & -> & -> & -> & _)
                   |[(s & -> & -> & -> & -> & _)|[-> H]]]]; auto.
Qed.

Lemma Move_wg me child c tick th th' c' tick' evs out forks :
  Move me child c tick th th' c' tick' evs out forks →
  wg c' = wg c ∨
  (th = TWorker WSelect ∧ th' = TWorker WDone ∧ wg c = S (wg c')).
Proof.
  destruct 1 as [r pc pc' c' evs out forks H|env th pc pc' c' evs out forks Hpc H
                 | | | | | |]; auto.
  - apply add_step_inv in H as [_ H].
    destruct H as [(-> & -> & Hmu & -> & -> & _)|[(b & -> & -> & H & -> & _)
                   |[(b & -> & -> & -> & -> & _)
                   |[(-> & -> & -> & -> & _)|(-> & -> & -> & -> & _)]]]];
      auto.
    apply append_spec in H as (_ & _ & _ & _ & -> & _). auto.
  - apply Flush_step_inv in H as [_ H].
    destruct H as [(-> & -> & Hmu & -> & -> & _)
                   |[(s & -> & -> & -> & -> & -> & _)
                   |[(s & -> & -> & -> & -> & _)|[-> H]]]]; auto.
Qed.

Lemma reachable_cancel σ : reachable σ → cancel_inv σ.
Proof.
  revert σ. apply reachable_ind.
  - intros σ (cfg & _ & ->)%initial_inv [|t] pc H; simplify_eq/=.
  - intros a σ σ' _ IH H. apply step_inv in H as [_ H].
    destruct H as [(op & -> & ->)|[(-> & _ & ->)|[->|H]]]; try done.
    + intros t pc [H|[-> H]]%call_lookup Hpc; [by eapply IH|].
      destruct op; simplify_eq/=.
    + destruct H as (tid & th & th' & c' & tick' & evs & out & forks
                     & Hth & Hm & ->).
      pose proof (lookup_lt_Some _ _ _ Hth) as Hlt.
      intros t pc Hx Hpc. simpl in *.
      apply commit_lookup in Hx; [|done].
      destruct Hx as [[-> Heq]|[[Hne Hx]|[Hge Hx]]].
      * destruct Hm as [| env th pc0 pc' c' evs out forks Hf Hs| | | | | |];
          simplify_eq/=; try done.
        -- destruct th as [| |[]|[]]; simplify_eq/=.
           apply Flush_step_frame in Hs as [-> _]. by eapply IH.
        -- by eapply IH.
      * apply Move_ctx in Hm as [->|[_ ->]]; [by eapply IH|done].
      * apply Move_forks in Hm as [->|(-> & -> & _)]; [done|].
        destruct (t - length (threads σ))%nat as [|[]]; simplify_eq/=.
Qed.

Lemma reachable_worker σ : reachable σ → worker_inv σ.
Proof.
  revert σ. apply reachable_ind.
  - intros σ (cfg & _ & ->)%initial_inv. split; [by eexists|].
    intros [|t] pc H; simplify_eq/=. done.
  - intros a σ σ' _ [(wpc & Hw & Hwg) Huniq] H. apply step_inv in H as [_ H].
    destruct H as [(op & -> & ->)|[(-> & _ & ->)|[->|H]]];
      try (split; [by eexists|done]).
    + split; simpl.
      * exists wpc. split; [by apply lookup_app_l_Some|done].
      * intros t pc [H|[-> H]]%call_lookup; [by eapply Huniq|].
        destruct op; simplify_eq/=.
    + destruct H as (tid & th & th' & c' & tick' & evs & out & forks
                     & Hth & Hm & ->).
      pose proof (lookup_lt_Some _ _ _ Hth) as Hlt.
      pose proof (Move_role _ _ _ _ _ _ _ _ _ _ _ Hm) as Hrole.
      split; simpl.
      * destruct (decide (tid = 0%nat)) as [->|Hne].
        -- assert (th = TWorker wpc) as Heq by congruence.
           destruct Hm as [| env th pc0 pc' c' evs out forks Hf Hs| | | | | |];
             simplify_eq/=;
             (eexists; split; [by apply commit_lookup_self|]); simpl;
             try done.
           ++ apply Flush_step_frame in Hs as [_ ->].
              destruct wpc; simplify_eq/=. done.
           ++ lia.
        -- exists wpc. rewrite commit_lookup_other by (done || lia).
           split; [done|].
           apply Move_wg in Hm as [->|(-> & _)]; [done|].
           apply Huniq in Hth. done.
      * intros t pc Hx. apply commit_lookup in Hx; [|done].
        destruct Hx as [[-> Heq]|[[Hne Hx]|[Hge Hx]]].
        -- subst th'. destruct th; simplify_eq/=. by eapply Huniq.
        -- by eapply Huniq.
        -- apply Move_forks in Hm as [->|(-> & -> & _)]; [done|].
           destruct (t - length (threads σ))%nat as [|[]]; simplify_eq/=.
Qed.

Lemma reachable_waited σ : reachable σ → waited_inv σ.
Proof.
  revert σ. apply reachable_ind.
  - intros σ (cfg & _ & ->)%initial_inv [|t] pc H; simplify_eq/=.
  - intros a σ σ' _ IH H. apply step_inv in H as [_ H].
    destruct H as [(op & -> & ->)|[(-> & _ & ->)|[->|H]]]; try done.
    + intros t pc [H|[-> H]]%call_lookup; [by eapply IH|].
      destruct op; simplify_eq/=.
    + destruct H as (tid & th & th' & c' & tick' & evs & out & forks
                     & Hth & Hm & ->).
      pose proof (lookup_lt_Some _ _ _ Hth) as Hlt.
      intros t pc Hx. simpl in *.
      apply commit_lookup in Hx; [|done].
      destruct Hx as [[-> Heq]|[[Hne Hx]|[Hge Hx]]].
      * destruct Hm as [| env th pc0 pc' c' evs out forks Hf Hs| | | | | |];
          simplify_eq/=; try done.
        destruct th as [| |[]|[]]; simplify_eq/=.
        apply Flush_step_frame in Hs as [_ ->]. by eapply IH.
      * apply Move_wg in Hm as [->|(_ & _ & Hwg)]; [by eapply IH|].
        erewrite IH in Hwg by done. done.
      * apply Move_forks in Hm as [->|(-> & -> & _)]; [done|].
        destruct (t - length (threads σ))%nat as [|[]]; simplify_eq/=.
Qed.

(** ** Progress: what is started can finish *)

Lemma drives_refl t σ : panicked σ = false → drives t σ σ.
Proof. intros. by exists []. Qed.

Lemma drives_trans t σ1 σ2 σ3 :
  drives t σ1 σ2 → drives t σ2 σ3 → drives t σ1 σ3.
Proof.
  intros (s1 & Hr1 & ? & Hc1 & Hw1 & Ht1 & Hl1 & Hf1)
         (s2 & Hr2 & ? & Hc2 & Hw2 & Ht2 & Hl2 & Hf2).
  exists (s1 ++ s2). rewrite run_app, Hr1. simpl.
  repeat split; try congruence. intros t' th' ???. eauto.
Qed.

Lemma drives_panicked t σ σ' : drives t σ σ' → panicked σ' = false.
Proof. by intros (sch & _ & H & _). Qed.

Lemma drives_reachable t σ σ' : reachable σ → drives t σ σ' → reachable σ'.
Proof. intros Hr (sch & H & _). by eapply reachable_run. Qed.

(** A step of the [Flush] a thread is in. *)
Lemma step_flush σ t th pc env c' pc' evs out :
  panicked σ = false → threads σ !! t = Some th →
  flush_pc th = Some pc →
  Flush_step t env (client σ) pc = Steps c' pc' evs out [] →
  step (ARun t env) σ
  = Some (commit t (set_flush_pc pc' th) c' (tickerC σ) evs out [] σ).
Proof.
  intros Hp Hth Hpc Hs. unfold step. rewrite Hp, Hth. simpl.
  destruct th as [| |[]|[]]; simplify_eq/=; rewrite ?Hs; try done.
  destruct pc; simpl in *; rewrite ?Hs; done.
Qed.

Lemma commit_drives σ t th th' c' evs out a :
  threads σ !! t = Some th →
  step a σ = Some (commit t th' c' (tickerC σ) evs out [] σ) →
  ctx c' = ctx (client σ) → wg c' = wg (client σ) →
  drives t σ (commit t th' c' (tickerC σ) evs out [] σ).
Proof.
  intros Hth Hs Hc Hw. exists [a]. simpl. rewrite Hs. simpl.
  repeat split; try done.
  - by rewrite length_app, length_insert, Nat.add_0_r.
  - intros t' x Hne Hx _. rewrite app_nil_r.
    by rewrite list_lookup_insert_ne.
Qed.

(** One step of a flush, packaged: the thread is at [pc'] afterwards. *)
Lemma flush_advance σ t th pc env c' pc' evs out :
  panicked σ = false → threads σ !! t = Some th →
  flush_pc th = Some pc →
  Flush_step t env (client σ) pc = Steps c' pc' evs out [] →
  ∃ σ', drives t σ σ' ∧ threads σ' !! t = Some (set_flush_pc pc' th) ∧
        client σ' = c' ∧ events σ' = events σ ++ evs.
Proof.
  intros Hp Hth Hpc Hs.
  pose proof (step_flush _ _ _ _ _ _ _ _ _ Hp Hth Hpc Hs) as Hstep.
  destruct (Flush_step_frame _ _ _ _ _ _ _ _ _ Hs) as [Hc Hw].
  eexists. split; [by eapply commit_drives|]. simpl.
  split; [|done]. apply commit_lookup_self. by eapply lookup_lt_Some.
Qed.

Lemma set_flush_pc_twice pc pc' th :
  is_Some (flush_pc th) →
  set_flush_pc pc' (set_flush_pc pc th) = set_flush_pc pc' th.
Proof. destruct th as [| |[]|[]]; intros [? ?]; simplify_eq/=; done. Qed.

Lemma step_add σ t r pc env c' pc' evs out forks :
  panicked σ = false → threads σ !! t = Some (TAdd r pc) →
  add_step t (length (threads σ)) (client σ) r pc
  = Steps c' pc' evs out forks →
  step (ARun t env) σ
  = Some (commit t (TAdd r pc') c' (tickerC σ) evs out forks σ).
Proof.
  intros Hp Hth Hs. unfold step. rewrite Hp, Hth. simpl. by rewrite Hs.
Qed.

Lemma add_advance σ t r pc c' pc' evs out :
  panicked σ = false → threads σ !! t = Some (TAdd r pc) →
  add_step t (length (threads σ)) (client σ) r pc
  = Steps c' pc' evs out [] →
  ctx c' = ctx (client σ) → wg c' = wg (client σ) →
  ∃ σ', drives t σ σ' ∧ threads σ' !! t = Some (TAdd r pc') ∧
        client σ' = c' ∧ events σ' = events σ ++ evs.
Proof.
  intros Hp Hth Hs Hc Hw.
  pose proof (step_add _ _ _ _ (mkEnv None None None None (inr 200))
                _ _ _ _ _ Hp Hth Hs) as Hstep.
  eexists. split; [by eapply commit_drives|]. simpl.
  split; [|done]. apply commit_lookup_self. by eapply lookup_lt_Some.
Qed.

Lemma Flush_swap_ok c :
  0 < Config.BatchSize (config c) →
  Flush_swap c
  = Some (mkSnapshot (logBuffer c) (spanBuffer c) (metricBuffer c)
                     (jobBuffer c),
          set_buffers [] [] [] [] c).
Proof.
  intros H. unfold Flush_swap. rewrite !make_nonneg by lia. done.
Qed.

(** Whoever holds the mutex can release it. *)
Lemma critical_release σ h th :
  reachable σ → panicked σ = false →
  threads σ !! h = Some th → critical th = true →
  ∃ σ', drives h σ σ' ∧ bufferMu (client σ') = None.
Proof.
  intros Hr Hp Hth Hcrit.
  pose proof (reachable_BatchSize _ Hr) as HB.
  set (env := mkEnv None None None None (inr 200)).
  assert (∀ σ1 th1 s, panicked σ1 = false → threads σ1 !! h = Some th1 →
            flush_pc th1 = Some (FUnlock s) →
            ∃ σ', drives h σ1 σ' ∧ bufferMu (client σ') = None) as Hunlock.
  { intros σ1 th1 s Hp1 Hth1 Hpc1.
    destruct (flush_advance σ1 h th1 _ env _ _ _ _ Hp1 Hth1 Hpc1 eq_refl)
      as (σ' & Hd & _ & Hc & _).
    exists σ'. split; [done|]. by rewrite Hc. }
  assert (∀ σ1 r b, panicked σ1 = false →
            threads σ1 !! h = Some (TAdd r (AUnlock b)) →
            ∃ σ', drives h σ1 σ' ∧ bufferMu (client σ') = None) as Hunlock'.
  { intros σ1 r b Hp1 Hth1.
    destruct (add_advance σ1 h r _ _ _ _ _ Hp1 Hth1 eq_refl eq_refl eq_refl)
      as (σ' & Hd & _ & Hc & _).
    exists σ'. split; [done|]. by rewrite Hc. }
  destruct (flush_pc th) as [pc|] eqn:Hpc.
  - rewrite (critical_flush _ _ Hpc) in Hcrit.
    destruct pc; try done; [|by eapply Hunlock].
    edestruct (flush_advance σ h th FSwap env) as (σ1 & Hd1 & Hth1 & _);
      [done|done|done|simpl; by rewrite Flush_swap_ok|].
    edestruct (Hunlock σ1) as (σ2 & Hd2 & Hmu);
      [by eapply drives_panicked|done|by eapply flush_pc_set|].
    exists σ2. split; [by eapply drives_trans|done].
  - destruct th as [r pc|pc|[]|[]]; simplify_eq/=.
    destruct pc; try done.
    + destruct (append r (client σ)) as [c1 b] eqn:Happ.
      pose proof (append_spec _ _ _ _ Happ) as (_ & _ & _ & Hc' & Hw' & _).
      destruct (add_advance σ h r AAppend c1 (AUnlock b) [EvAppend h r] []
                  Hp Hth) as (σ1 & Hd1 & Hth1 & _); [|done|done|].
      { simpl. by rewrite Happ. }
      destruct (Hunlock' σ1 r b (drives_panicked _ _ _ Hd1) Hth1)
        as (σ2 & Hd2 & Hmu).
      exists σ2. split; [by eapply drives_trans|done].
    + by eapply Hunlock'.
Qed.

Lemma drives_other h t σ σ' th :
  threads σ !! h = Some th → critical th = true →
  drives h σ σ' → drives t σ σ'.
Proof.
  intros Hth Hc (sch & Hrun & Hp & Hx & Hw & Ht & Hl & Hf).
  exists sch. repeat split; try done.
  intros t' th' _ Hth' Hc'. apply Hf; [|done..]. intros ->. congruence.
Qed.

(** Any thread outside a critical section can wait for the mutex to be
    free. *)
Lemma lock_free σ t th :
  reachable σ → panicked σ = false →
  threads σ !! t = Some th → critical th = false →
  ∃ σ', drives t σ σ' ∧ bufferMu (client σ') = None ∧
        threads σ' !! t = Some th.
Proof.
  intros Hr Hp Hth Hc. destruct (bufferMu (client σ)) as [h|] eqn:Hmu.
  2:{ exists σ. split; [by apply drives_refl|done]. }
  destruct (reachable_lock _ Hr) as [Hl _].
  destruct (Hl _ Hmu) as (thh & Hthh & Hch).
  destruct (critical_release _ _ _ Hr Hp Hthh Hch) as (σ' & Hd & Hmu').
  exists σ'. split; [by eapply drives_other|]. split; [done|].
  destruct Hd as (_ & _ & _ & _ & _ & _ & _ & Hf). apply Hf; [|done..].
  intros ->. congruence.
Qed.

Lemma set_flush_pc_id pc th : flush_pc th = Some pc → set_flush_pc pc th = th.
Proof. destruct th as [| |[]|[]]; intros; simplify_eq/=; done. Qed.

Lemma Flush_step_next me env c pc :
  match pc with FLock | FSwap | FReturn _ => False | _ => True end →
  ∃ c' pc' evs out,
    Flush_step me env c pc = Steps c' pc' evs out [] ∧
    (remaining pc' < remaining pc)%nat.
Proof.
  destruct pc as [| |s|s e|s e|s e|[|j rest] e|e]; simpl; try done; intros _.
  - eexists _, _, _, _. split; [done|]. simpl. lia.
  - destruct (nonempty (logs s)); [destruct (note _ _ _ _)|];
      (eexists _, _, _, _; split; [done|]; simpl; lia).
  - destruct (nonempty (spans s)); [destruct (note _ _ _ _)|];
      (eexists _, _, _, _; split; [done|]; simpl; lia).
  - destruct (nonempty (metrics s)); [destruct (note _ _ _ _)|];
      (eexists _, _, _, _; split; [done|]; simpl; lia).
  - eexists _, _, _, _. split; [done|]. simpl. lia.
  - destruct (note _ _ _ _).
    eexists _, _, _, _. split; [done|]. simpl. lia.
Qed.

(** A flush that has swapped the buffers runs to its return, whatever
    the world answers. *)
Lemma flush_delivers_within (env : Env) n σ t th pc :
  (remaining pc ≤ n)%nat →
  match pc with FLock | FSwap => False | _ => True end →
  reachable σ → panicked σ = false →
  threads σ !! t = Some th → flush_pc th = Some pc →
  ∃ σ' err, drives t σ σ' ∧
            threads σ' !! t = Some (set_flush_pc (FReturn err) th).
Proof.
  revert σ th pc. induction n as [|n IH]; intros σ th pc Hn Hpc Hr Hp Hth Hf.
  - destruct pc; simpl in *; try done; try lia.
    exists σ, lastErr. split; [by apply drives_refl|].
    by rewrite set_flush_pc_id.
  - assert ((∃ e, pc = FReturn e) ∨ ¬ ∃ e, pc = FReturn e) as [[e ->]|Hne].
    { destruct pc; eauto; right; intros [? ?]; done. }
    { exists σ, e. split; [by apply drives_refl|]. by rewrite set_flush_pc_id. }
    destruct (Flush_step_next t env (client σ) pc)
      as (c' & pc' & evs & out & Hs & Hlt).
    { destruct pc; try done. destruct Hne. by eexists. }
    destruct (flush_advance _ _ _ _ _ _ _ _ _ Hp Hth Hf Hs)
      as (σ1 & Hd1 & Hth1 & _).
    destruct (IH σ1 (set_flush_pc pc' th) pc') as (σ2 & err & Hd2 & Hth2).
    + lia.
    + destruct pc; simpl in Hs; repeat case_match; simplify_eq; done.
    + by eapply drives_reachable.
    + by eapply drives_panicked.
    + done.
    + by eapply flush_pc_set.
    + exists σ2, err. split; [by eapply drives_trans|].
      rewrite Hth2, set_flush_pc_twice by (by eexists). done.
Qed.

Lemma flush_delivers (env : Env) σ t th pc :
  match pc with FLock | FSwap => False | _ => True end →
  reachable σ → panicked σ = false →
  threads σ !! t = Some th → flush_pc th = Some pc →
  ∃ σ' err, drives t σ σ' ∧
            threads σ' !! t = Some (set_flush_pc (FReturn err) th).
Proof. by apply (flush_delivers_within env (remaining pc)). Qed.

(** Any flush in progress can run to its return. *)
Lemma flush_completes (env : Env) σ t th pc :
  reachable σ → panicked σ = false →
  threads σ !! t = Some th → flush_pc th = Some pc →
  ∃ σ' err, drives t σ σ' ∧
            threads σ' !! t = Some (set_flush_pc (FReturn err) th).
Proof.
  intros Hr Hp Hth Hf.
  assert (∀ σ1 th1 pc1, reachable σ1 → panicked σ1 = false →
            threads σ1 !! t = Some th1 → flush_pc th1 = Some pc1 →
            pc1 ≠ FLock →
            ∃ σ' err, drives t σ1 σ' ∧
              threads σ' !! t = Some (set_flush_pc (FReturn err) th1))
    as Hswap.
  { intros σ1 th1 pc1 Hr1 Hp1 Hth1 Hf1 Hne.
    assert (pc1 = FSwap ∨ pc1 ≠ FSwap) as [->|Hne']
      by (destruct pc1; auto).
    - pose proof (reachable_BatchSize _ Hr1) as HB.
      edestruct (flush_advance σ1 t th1 FSwap env) as (σ2 & Hd2 & Hth2 & _);
        [done|done|done|simpl; by rewrite Flush_swap_ok|].
      edestruct (flush_delivers env σ2 t) as (σ3 & err & Hd3 & Hth3);
        [|by eapply drives_reachable|by eapply drives_panicked
         |done|by eapply flush_pc_set|]; [done|].
      exists σ3, err. split; [by eapply drives_trans|].
      rewrite Hth3, set_flush_pc_twice by (by eexists). done.
    - eapply (flush_delivers env σ1 t th1 pc1); try done.
      by destruct pc1. }
  assert (pc = FLock ∨ pc ≠ FLock) as [->|Hne] by (destruct pc; auto);
    [|by eapply Hswap].
  destruct (lock_free σ t th Hr Hp Hth) as (σ1 & Hd1 & Hmu1 & Hth1).
  { by rewrite (critical_flush _ _ Hf). }
  edestruct (flush_advance σ1 t th FLock env) as (σ2 & Hd2 & Hth2 & _);
    [by eapply drives_panicked|done|done|simpl; unfold Lock; by rewrite Hmu1|].
  edestruct (Hswap σ2) as (σ3 & err & Hd3 & Hth3);
    [eapply drives_reachable; [|done]; by eapply drives_reachable
    |by eapply drives_panicked|done|by eapply flush_pc_set|done|].
  exists σ3, err. split; [eauto using drives_trans|].
  rewrite Hth3, set_flush_pc_twice by (by eexists). done.
Qed.

Lemma run_config sch σ σ' :
  run sch σ = Some σ' → config (client σ') = config (client σ).
Proof.
  revert σ. induction sch as [|a sch IH]; intros σ H; simplify_eq/=; [done|].
  destruct (step a σ) as [σ1|] eqn:E; simplify_eq/=.
  rewrite (IH _ H). by eapply step_config.
Qed.

Lemma drives_leads t σ σ' : drives t σ σ' → leads t σ σ'.
Proof. intros (sch & ? & ? & _ & _ & _ & _ & ?). by exists sch. Qed.

Lemma leads_trans t σ1 σ2 σ3 : leads t σ1 σ2 → leads t σ2 σ3 → leads t σ1 σ3.
Proof.
  intros (s1 & Hr1 & ? & Hf1) (s2 & Hr2 & ? & Hf2).
  exists (s1 ++ s2). rewrite run_app, Hr1. simpl.
  split; [done|]. split; [done|]. eauto.
Qed.

Lemma leads_reachable t σ σ' : reachable σ → leads t σ σ' → reachable σ'.
Proof. intros Hr (sch & H & _). by eapply reachable_run. Qed.

Lemma leads_config t σ σ' :
  leads t σ σ' → config (client σ') = config (client σ).
Proof. intros (sch & H & _). by eapply run_config. Qed.

Lemma commit_leads σ t th th' c' tick' evs out a :
  threads σ !! t = Some th →
  step a σ = Some (commit t th' c' tick' evs out [] σ) →
  leads t σ (commit t th' c' tick' evs out [] σ).
Proof.
  intros Hth Hs. exists [a]. simpl. rewrite Hs. simpl.
  split; [done|]. split; [done|].
  intros t' x Hne Hx _. rewrite app_nil_r. by rewrite list_lookup_insert_ne.
Qed.

(** Once the context is cancelled the worker can return. *)
Lemma worker_returns (env : Env) σ :
  reachable σ → panicked σ = false →
  0 < Config.FlushInterval (config (client σ)) →
  ctx (client σ) = true →
  ∃ σ', leads 0 σ σ' ∧ threads σ' !! 0%nat = Some (TWorker WDone) ∧
        wg (client σ') = 0%nat.
Proof.
  intros Hr Hp Hint Hctx.
  assert (∀ σ1, reachable σ1 → panicked σ1 = false →
                ctx (client σ1) = true →
                threads σ1 !! 0%nat = Some (TWorker WSelect) →
                ∃ σ', leads 0 σ1 σ' ∧
                      threads σ' !! 0%nat = Some (TWorker WDone) ∧
                      wg (client σ') = 0%nat) as Hselect.
  { intros σ1 Hr1 Hp1 Hc1 Hth1.
    destruct (reachable_worker _ Hr1) as [(wpc & Hw & Hwg) _].
    simplify_eq. simpl in Hwg.
    eexists (commit 0 (TWorker WDone) (set_wg 0 (client σ1)) None [] [] [] σ1).
    split; [|split; [|done]].
    - eapply (commit_leads _ _ _ _ _ _ _ _ (ASelect 0 true)); [done|].
      unfold step, flushWorker_select. by rewrite Hp1, Hth1, Hc1, Hwg.
    - apply commit_lookup_self. by eapply lookup_lt_Some. }
  assert (∀ σ1 e, reachable σ1 → panicked σ1 = false →
                ctx (client σ1) = true →
                threads σ1 !! 0%nat = Some (TWorker (WFlush (FReturn e))) →
                ∃ σ', leads 0 σ1 σ' ∧
                      threads σ' !! 0%nat = Some (TWorker WDone) ∧
                      wg (client σ') = 0%nat) as Hloop.
  { intros σ1 e Hr1 Hp1 Hc1 Hth1.
    assert (step (ARun 0 env) σ1
            = Some (commit 0 (TWorker WSelect) (client σ1) (tickerC σ1)
                           [] [] [] σ1)) as Hstep.
    { unfold step. by rewrite Hp1, Hth1. }
    pose proof (commit_leads _ _ _ _ _ _ _ _ _ Hth1 Hstep) as Hl.
    edestruct (Hselect _ (leads_reachable _ _ _ Hr1 Hl))
      as (σ' & Hl' & Hth' & Hwg'); [done|done| |].
    { apply commit_lookup_self. by eapply lookup_lt_Some. }
    exists σ'. split; [by eapply leads_trans|done]. }
  destruct (reachable_worker _ Hr) as [(wpc & Hw & Hwg) _].
  destruct wpc as [| |pc|].
  - assert (step (ARun 0 env) σ
            = Some (commit 0 (TWorker WSelect) (client σ) (Some false)
                           [] [] [] σ)) as Hstep.
    { unfold step. rewrite Hp, Hw. simpl.
      case_match; [lia|done]. }
    pose proof (commit_leads _ _ _ _ _ _ _ _ _ Hw Hstep) as Hl.
    edestruct (Hselect _ (leads_reachable _ _ _ Hr Hl))
      as (σ' & Hl' & Hth' & Hwg'); [done|done| |].
    { apply commit_lookup_self. by eapply lookup_lt_Some. }
    exists σ'. split; [by eapply leads_trans|done].
  - by apply Hselect.
  - destruct (flush_completes env σ 0 _ pc Hr Hp Hw eq_refl)
      as (σ1 & e & Hd & Hth1).
    edestruct (Hloop σ1 e) as (σ' & Hl' & Hth' & Hwg');
      [by eapply drives_reachable|by eapply drives_panicked| |done|].
    { destruct Hd as (_ & _ & _ & -> & _). done. }
    exists σ'. split; [|done].
    eapply leads_trans; [by apply drives_leads|done].
  - exists σ. split; [|done]. exists []. done.
Qed.

Lemma leads_reaches t σ σ' : leads t σ σ' → reaches σ σ'.
Proof. intros (sch & ? & ? & _). by exists sch. Qed.

Lemma drives_reaches t σ σ' : drives t σ σ' → reaches σ σ'.
Proof. intros H. by eapply leads_reaches, drives_leads. Qed.

Lemma reaches_trans σ1 σ2 σ3 : reaches σ1 σ2 → reaches σ2 σ3 → reaches σ1 σ3.
Proof.
  intros (s1 & Hr1 & ?) (s2 & Hr2 & ?).
  exists (s1 ++ s2). by rewrite run_app, Hr1.
Qed.

Lemma reaches_reachable σ σ' : reachable σ → reaches σ σ' → reachable σ'.
Proof. intros Hr (sch & H & _). by eapply reachable_run. Qed.


(** An append returns, having started a flush or not. *)
Lemma add_completes σ t r pc :
  reachable σ → panicked σ = false →
  threads σ !! t = Some (TAdd r pc) →
  ∃ σ', reaches σ σ' ∧ threads σ' !! t = Some (TAdd r AReturn).
Proof.
  intros Hr Hp Hth.
  set (env := mkEnv None None None None (inr 200)).
  assert (∀ σ1 b, reachable σ1 → panicked σ1 = false →
            threads σ1 !! t = Some (TAdd r (AGo b)) →
            ∃ σ', reaches σ1 σ' ∧ threads σ' !! t = Some (TAdd r AReturn))
    as Hgo.
  { intros σ1 b Hr1 Hp1 Hth1.
    destruct (add_step t (length (threads σ1)) (client σ1) r (AGo b))
      as [| |c' pc' evs out forks] eqn:Hs;
      [by destruct b|by destruct b|].
    assert (pc' = AReturn) as -> by (destruct b; by simplify_eq/=).
    pose proof (step_add _ _ _ _ env _ _ _ _ _ Hp1 Hth1 Hs) as Hstep.
    eexists. split.
    - exists [ARun t env]. simpl. by rewrite Hstep.
    - apply commit_lookup_self. by eapply lookup_lt_Some. }
  assert (∀ σ1 b, reachable σ1 → panicked σ1 = false →
            threads σ1 !! t = Some (TAdd r (AUnlock b)) →
            ∃ σ', reaches σ1 σ' ∧ threads σ' !! t = Some (TAdd r AReturn))
    as Hunlock.
  { intros σ1 b Hr1 Hp1 Hth1.
    destruct (add_advance σ1 t r _ _ _ _ _ Hp1 Hth1 eq_refl eq_refl eq_refl)
      as (σ2 & Hd & Hth2 & _).
    edestruct (Hgo σ2 b) as (σ' & Hl & Hth');
      [by eapply drives_reachable|by eapply drives_panicked|done|].
    exists σ'. split; [|done].
    eauto using reaches_trans, leads_reaches, drives_leads. }
  assert (∀ σ1, reachable σ1 → panicked σ1 = false →
            threads σ1 !! t = Some (TAdd r AAppend) →
            ∃ σ', reaches σ1 σ' ∧ threads σ' !! t = Some (TAdd r AReturn))
    as Happend.
  { intros σ1 Hr1 Hp1 Hth1.
    destruct (append r (client σ1)) as [c1 b] eqn:Happ.
    pose proof (append_spec _ _ _ _ Happ) as (_ & _ & _ & Hc' & Hw' & _).
    destruct (add_advance σ1 t r AAppend c1 (AUnlock b) [EvAppend t r] []
                Hp1 Hth1) as (σ2 & Hd & Hth2 & _); [|done|done|].
    { simpl. by rewrite Happ. }
    edestruct (Hunlock σ2 b) as (σ' & Hl & Hth');
      [by eapply drives_reachable|by eapply drives_panicked|done|].
    exists σ'. split; [|done].
    eauto using reaches_trans, leads_reaches, drives_leads. }
  destruct pc as [| |b|b|].
  - destruct (lock_free σ t _ Hr Hp Hth eq_refl) as (σ1 & Hd1 & Hmu1 & Hth1).
    edestruct (add_advance σ1 t r ALock) as (σ2 & Hd2 & Hth2 & _);
      [by eapply drives_panicked|done
      |simpl; unfold Lock; by rewrite Hmu1|done|done|].
    edestruct (Happend σ2) as (σ' & Hl & Hth');
      [eapply drives_reachable; [|done]; by eapply drives_reachable
      |by eapply drives_panicked|done|].
    exists σ'. split; [|done].
    eapply reaches_trans; [by eapply drives_reaches|].
    eapply reaches_trans; [by eapply drives_reaches|done].
  - by apply Happend.
  - by eapply Hunlock.
  - by eapply Hgo.
  - exists σ. split; [by exists []|done].
Qed.


(** ** Threads running alone *)

Lemma run_cons_flush σ t th pc env c' pc' evs out sch :
  panicked σ = false → threads σ !! t = Some th →
  flush_pc th = Some pc →
  Flush_step t env (client σ) pc = Steps c' pc' evs out [] →
  run (ARun t env :: sch) σ
  = run sch (commit t (set_flush_pc pc' th) c' (tickerC σ) evs out [] σ).
Proof.
  intros Hp Hth Hpc Hs. simpl.
  by rewrite (step_flush _ _ _ _ _ _ _ _ _ Hp Hth Hpc Hs).
Qed.

Lemma set_flush_pc_set pc pc' th :
  set_flush_pc pc' (set_flush_pc pc th) = set_flush_pc pc' th.
Proof. by destruct th. Qed.

Lemma send_frame c c' ep p env :
  config c' = config c → ctx c' = ctx c → send c' ep p env = send c ep p env.
Proof. intros H1 H2. unfold send. by rewrite H1, H2. Qed.

Lemma Flush_step_next_ev me env c pc :
  match pc with FLock | FSwap | FReturn _ => False | _ => True end →
  ∃ pc' evs out,
    Flush_step me env c pc
    = Steps (if pc is FUnlock _ then Unlock c else c) pc' evs out [] ∧
    remaining pc = S (remaining pc') ∧
    (evs = [] ∨ ∃ ep p, evs = [EvSend me (send c ep p env)]).
Proof.
  destruct pc as [| |s|s e|s e|s e|[|j rest] e|e]; simpl; try done; intros _.
  - eexists _, _, _. split; [done|]. split; [done|]. by left.
  - destruct (nonempty (logs s)); [destruct (note _ _ _ _)|];
      (eexists _, _, _; split; [done|]; split; [done|]);
      [right; by eexists _, _|by left].
  - destruct (nonempty (spans s)); [destruct (note _ _ _ _)|];
      (eexists _, _, _; split; [done|]; split; [done|]);
      [right; by eexists _, _|by left].
  - destruct (nonempty (metrics s)); [destruct (note _ _ _ _)|];
      (eexists _, _, _; split; [done|]; split; [done|]);
      [right; by eexists _, _|by left].
  - eexists _, _, _. split; [done|]. split; [done|]. by left.
  - destruct (note _ _ _ _).
    eexists _, _, _. split; [done|]. split; [done|].
    right; by eexists _, _.
Qed.

(** A flush that has swapped the buffers, run alone: it returns after
    [remaining pc] steps, having done nothing but call [send]. *)
Lemma run_remaining (env : Env) n σ t th pc :
  remaining pc = n →
  match pc with FLock | FSwap => False | _ => True end →
  panicked σ = false → threads σ !! t = Some th → flush_pc th = Some pc →
  ∃ σ' err ds,
    run (steps t n env) σ = Some σ' ∧ panicked σ' = false ∧
    threads σ' = <[t := set_flush_pc (FReturn err) th]> (threads σ) ∧
    client σ' = (if pc is FUnlock _ then Unlock (client σ) else client σ) ∧
    tickerC σ' = tickerC σ ∧
    events σ' = events σ ++ (EvSend t <$> ds) ∧
    Forall (λ d, ∃ ep p, d = send (client σ) ep p env) ds.
Proof.
  revert σ th pc. induction n as [|n IH]; intros σ th pc Hn Hpc Hp Hth Hf.
  - destruct pc; simpl in *; try done.
    exists σ, lastErr, []. simpl.
    rewrite app_nil_r, set_flush_pc_id, list_insert_id by done. done.
  - destruct (Flush_step_next_ev t env (client σ) pc)
      as (pc' & evs & out & Hs & Hrem & Hevs).
    { destruct pc; simpl in *; try done. }
    destruct (IH (commit t (set_flush_pc pc' th)
                    (if pc is FUnlock _ then Unlock (client σ) else client σ)
                    (tickerC σ) evs out [] σ)
                 (set_flush_pc pc' th) pc')
      as (σ' & err & ds & Hrun & Hp' & Hths & Hc & Htick & Hev & Hds).
    + lia.
    + destruct pc; simpl in Hs; repeat case_match; simplify_eq; done.
    + done.
    + apply commit_lookup_self. by eapply lookup_lt_Some.
    + by eapply flush_pc_set.
    + assert (∃ ds0, evs = EvSend t <$> ds0 ∧
                Forall (λ d, ∃ ep p, d = send (client σ) ep p env) ds0)
        as (ds0 & -> & Hds0).
      { destruct Hevs as [->|(ep & p & ->)]; [by exists []|].
        eexists [_]. split; [done|]. constructor; [|done]. by eexists _, _. }
      exists σ', err, (ds0 ++ ds).
      change (steps t (S n) env) with (ARun t env :: steps t n env).
      rewrite (run_cons_flush _ _ _ _ _ _ _ _ _ _ Hp Hth Hf Hs).
      split; [done|]. split; [done|].
      split; [|split; [|split; [done|split]]].
      * rewrite Hths. simpl. rewrite app_nil_r, list_insert_insert_eq.
        by rewrite set_flush_pc_twice by (by eexists).
      * rewrite Hc. simpl.
        destruct pc; try done;
          destruct pc'; try done;
          simpl in Hs; repeat case_match; simplify_eq.
      * rewrite Hev. simpl. by rewrite fmap_app, app_assoc.
      * apply Forall_app. split; [done|].
        eapply Forall_impl; [done|]. simpl.
        intros d (ep & p & ->). exists ep, p.
        apply send_frame; by destruct pc.
Qed.

Lemma current_after_swap t evs s ds :
  current t (evs ++ EvSwap t s :: (EvSend t <$> ds)) = Some (s, ds).
Proof.
  induction ds as [|d ds IH] using rev_ind.
  - apply current_swap.
  - rewrite fmap_app, app_comm_cons, app_assoc. simpl.
    by apply current_send.
Qed.

Lemma sends_determined c env ds :
  Forall (λ d, ∃ ep p, d = send c ep p env) ds →
  ds = (λ r, send c r.1 r.2 env) <$> (called <$> ds).
Proof.
  induction 1 as [|d ds (ep & p & ->) _ IH]; [done|].
  rewrite !fmap_cons, send_called, <-IH. done.
Qed.

(** A call of [Flush] run alone, with the mutex free: it returns after
    seven steps and one more for each job record; the buffers are empty,
    the batches of the snapshot have gone to [send], each once. *)
Lemma run_flush (env : Env) σ t th :
  reachable σ → panicked σ = false →
  threads σ !! t = Some th → flush_pc th = Some FLock →
  bufferMu (client σ) = None →
  let snap := snapshot_of (client σ) in
  let ds := (λ r, send (client σ) r.1 r.2 env) <$> routes snap in
  ∃ σ',
    run (steps t (7 + length (jobs snap)) env) σ = Some σ' ∧
    panicked σ' = false ∧
    threads σ' = <[t := set_flush_pc (FReturn (last_error ds)) th]> (threads σ) ∧
    client σ' = set_buffers [] [] [] [] (client σ) ∧
    tickerC σ' = tickerC σ ∧
    events σ' = events σ ++ EvSwap t snap :: (EvSend t <$> ds).
Proof.
  intros Hr Hp Hth Hf Hmu snap ds0.
  pose proof (reachable_BatchSize _ Hr) as HB.
  pose proof (lookup_lt_Some _ _ _ Hth) as Hlt.
  set (σ1 := commit t (set_flush_pc FSwap th) (set_bufferMu (Some t) (client σ))
                    (tickerC σ) [] [] [] σ).
  set (σ2 := commit t (set_flush_pc (FUnlock snap) (set_flush_pc FSwap th))
                    (set_buffers [] [] [] [] (client σ1))
                    (tickerC σ1) [EvSwap t snap] [] [] σ1).
  destruct (run_remaining env (5 + length (jobs snap)) σ2 t
              (set_flush_pc (FUnlock snap) (set_flush_pc FSwap th))
              (FUnlock snap))
    as (σ' & err & ds & Hrun & Hp' & Hths & Hc & Htick & Hev & Hds);
    [done|done|done| | |].
  { apply commit_lookup_self. subst σ1. simpl.
    by rewrite length_app, length_insert, Nat.add_0_r. }
  { apply flush_pc_set with FSwap. by eapply flush_pc_set. }
  assert (run (steps t (7 + length (jobs snap)) env) σ = Some σ') as Hrun'.
  { change (steps t (7 + length (jobs snap)) env)
      with (ARun t env :: ARun t env :: steps t (5 + length (jobs snap)) env).
    rewrite (run_cons_flush σ t th FLock env (set_bufferMu (Some t) (client σ))
               FSwap [] []); [|done|done|done|].
    2:{ simpl. unfold Lock. by rewrite Hmu. }
    fold σ1.
    rewrite (run_cons_flush σ1 t (set_flush_pc FSwap th) FSwap env
               (set_buffers [] [] [] [] (client σ1)) (FUnlock snap)
               [EvSwap t snap] []); [done|done| | |].
    - apply commit_lookup_self. done.
    - by eapply flush_pc_set.
    - simpl. by rewrite Flush_swap_ok. }
  assert (events σ' = events σ ++ EvSwap t snap :: (EvSend t <$> ds)) as Hev'.
  { rewrite Hev. simpl. by rewrite app_nil_r, <-app_assoc. }
  assert (threads σ' = <[t := set_flush_pc (FReturn err) th]> (threads σ))
    as Hths'.
  { rewrite Hths. simpl.
    rewrite !app_nil_r, !list_insert_insert_eq.
    by rewrite !set_flush_pc_set. }
  pose proof (reachable_run _ _ _ Hr Hrun') as Hr'.
  assert (threads σ' !! t = Some (set_flush_pc (FReturn err) th)) as Hth'.
  { rewrite Hths'. by apply list_lookup_insert_eq. }
  destruct (reachable_flush _ Hr' _ _ _ Hth' (flush_pc_set _ _ _ Hf))
    as (s & ds' & Hcur & Hcalled & Herr).
  rewrite Hev', current_after_swap in Hcur. simplify_eq.
  assert (ds' = ds0) as ->.
  { subst ds0. rewrite <-Hcalled. apply sends_determined.
    eapply Forall_impl; [done|]. simpl. intros d (ep & p & ->).
    exists ep, p. by apply send_frame. }
  exists σ'. repeat split; try done.
  rewrite Hc. simpl. unfold Unlock.
  destruct (client σ); simpl in *. by subst.
Qed.
Lemma op_rec_start op r : op_rec op = Some r → start op = TAdd r ALock.
Proof. destruct op; intros; simplify_eq/=; done. Qed.

Lemma append_set_bufferMu r m c :
  append r (set_bufferMu m c)
  = (set_bufferMu m (append r c).1, (append r c).2).
Proof. by destruct r. Qed.

Lemma append_bufferMu r c : bufferMu (append r c).1 = bufferMu c.
Proof. by destruct r. Qed.

Lemma Unlock_set_bufferMu m c :
  bufferMu c = None → Unlock (set_bufferMu m c) = c.
Proof. destruct c; simpl; intros ->. done. Qed.

Lemma fresh_lookup (l : list Thread) th : (l ++ [th]) !! length l = Some th.
Proof. by rewrite list_lookup_middle. Qed.

Lemma fresh_insert (l : list Thread) th th' :
  <[length l := th']> (l ++ [th]) = l ++ [th'].
Proof.
  rewrite insert_app_r_alt by lia. by rewrite Nat.sub_diag.
Qed.

Lemma run_cons_call σ op sch :
  panicked σ = false → run (ACall op :: sch) σ = run sch (call op σ).
Proof. intros Hp. simpl. unfold step. by rewrite Hp. Qed.

Lemma run_cons_add σ t r pc env c' pc' evs out forks sch :
  panicked σ = false → threads σ !! t = Some (TAdd r pc) →
  add_step t (length (threads σ)) (client σ) r pc
  = Steps c' pc' evs out forks →
  run (ARun t env :: sch) σ
  = run sch (commit t (TAdd r pc') c' (tickerC σ) evs out forks σ).
Proof.
  intros Hp Hth Hs. simpl.
  by rewrite (step_add _ _ _ _ env _ _ _ _ _ Hp Hth Hs).
Qed.

(** A call that appends, run alone with the mutex free: it returns after
    four steps. *)
Lemma run_add (env : Env) σ op r :
  op_rec op = Some r → panicked σ = false → bufferMu (client σ) = None →
  run (ACall op :: steps (length (threads σ)) 4 env) σ = Some (after_add r σ).
Proof.
  intros Hop Hp Hmu. apply op_rec_start in Hop.
  destruct σ as [c tick ths evs out p]. simpl in Hp, Hmu. subst p.
  unfold steps. cbn [replicate threads].
  rewrite run_cons_call by done. unfold call. rewrite Hop.
  cbn [client tickerC threads events stdout panicked].
  erewrite run_cons_add; [|done|apply fresh_lookup|];
    [|cbn [client]; unfold add_step, Lock; rewrite Hmu; done].
  unfold commit. cbn [client tickerC threads events stdout panicked].
  rewrite fresh_insert, !app_nil_r.
  erewrite run_cons_add; [|done|apply fresh_lookup|];
    [|cbn [client add_step]; rewrite append_set_bufferMu; done].
  unfold commit. cbn [client tickerC threads events stdout panicked].
  rewrite fresh_insert, !app_nil_r.
  erewrite run_cons_add; [|done|apply fresh_lookup|done].
  unfold commit. cbn [client tickerC threads events stdout panicked].
  rewrite fresh_insert, !app_nil_r.
  rewrite Unlock_set_bufferMu by (by rewrite append_bufferMu).
  unfold after_add. cbn [client tickerC threads events stdout panicked].
  destruct (append r c) as [c' b]. cbn [fst snd].
  destruct b.
  - erewrite run_cons_add; [|done|apply fresh_lookup|done].
    unfold commit. cbn [client tickerC threads events stdout panicked run].
    rewrite fresh_insert, length_app, <-!app_assoc. simpl.
    by rewrite Nat.add_1_r, app_nil_r.
  - erewrite run_cons_add; [|done|apply fresh_lookup|done].
    unfold commit. cbn [client tickerC threads events stdout panicked run].
    by rewrite fresh_insert, !app_nil_r.
Qed.


(** ** The steps that swap and the steps that send *)

Lemma Move_swap me child c tick th th' c' tick' evs out forks t snap :
  Move me child c tick th th' c' tick' evs out forks →
  EvSwap t snap ∈ evs →
  t = me ∧ flush_pc th = Some FSwap ∧ snap = snapshot_of c ∧
  c' = set_buffers [] [] [] [] c.
Proof.
  destruct 1 as [r pc pc' c' evs out forks H|env th pc pc' c' evs out forks Hpc H
                 | | | | | |]; try (by intros ?%elem_of_nil).
  - apply add_step_inv in H as [_ H].
    destruct H as [(-> & -> & Hmu & -> & -> & _)|[(b & -> & -> & H & -> & _)
                   |[(b & -> & -> & -> & -> & _)
                   |[(-> & -> & -> & -> & _)|(-> & -> & -> & -> & _)]]]];
      intros Hin; try (by apply elem_of_nil in Hin);
      by apply list_elem_of_singleton in Hin.
  - intros Hin. apply Flush_step_inv in H as [_ H].
    destruct H as [(-> & -> & Hmu & -> & -> & _)
                   |[(s & -> & -> & -> & -> & -> & _)
                   |[(s & -> & -> & -> & -> & _)|[-> H]]]];
      try (by apply elem_of_nil in Hin).
    + apply list_elem_of_singleton in Hin. by simplify_eq.
    + destruct H as [(s & e & -> & H)|[(s & e & -> & H)|[(s & e & -> & H)
                     |[(j & rest & e & -> & H)|(e & -> & -> & _ & ->)]]]];
        try (cbv zeta in H; destruct (nonempty _));
        try (cbv zeta in H; destruct H as (-> & _ & ->));
        try (by apply elem_of_nil in Hin);
        by apply list_elem_of_singleton in Hin.
Qed.

Lemma Move_sending me child c tick th th' c' tick' evs out forks t d :
  Move me child c tick th th' c' tick' evs out forks →
  EvSend t d ∈ evs → t = me ∧ sending th = true ∧ c' = c.
Proof.
  destruct 1 as [r pc pc' c' evs out forks H|env th pc pc' c' evs out forks Hpc H
                 | | | | | |]; try (by intros ?%elem_of_nil).
  - apply add_step_inv in H as [_ H].
    destruct H as [(-> & -> & Hmu & -> & -> & _)|[(b & -> & -> & H & -> & _)
                   |[(b & -> & -> & -> & -> & _)
                   |[(-> & -> & -> & -> & _)|(-> & -> & -> & -> & _)]]]];
      intros Hin; try (by apply elem_of_nil in Hin);
      by apply list_elem_of_singleton in Hin.
  - intros Hin. unfold sending. rewrite Hpc.
    apply Flush_step_inv in H as [_ H].
    destruct H as [(-> & -> & Hmu & -> & -> & _)
                   |[(s & -> & -> & -> & -> & -> & _)
                   |[(s & -> & -> & -> & -> & _)|[-> H]]]];
      try (by apply elem_of_nil in Hin);
      try (by apply list_elem_of_singleton in Hin).
    destruct H as [(s & e & -> & H)|[(s & e & -> & H)|[(s & e & -> & H)
                   |[(j & rest & e & -> & H)|(e & -> & -> & _ & ->)]]]];
      try (cbv zeta in H; destruct (nonempty _) eqn:Hne);
      try (cbv zeta in H; destruct H as (-> & _ & ->));
      try (by apply elem_of_nil in Hin);
      apply list_elem_of_singleton in Hin; by simplify_eq.
Qed.

Lemma snoc_not_self {A} (l : list A) x : l ≠ l ++ [x].
Proof.
  intros H. apply (f_equal length) in H. rewrite length_app in H.
  simpl in H. lia.
Qed.

Lemma step_event a σ σ' e :
  step a σ = Some σ' → events σ' = events σ ++ [e] →
  ∃ tid th th' c' tick' out forks,
    threads σ !! tid = Some th ∧
    Move tid (length (threads σ)) (client σ) (tickerC σ)
         th th' c' tick' [e] out forks ∧
    client σ' = c'.
Proof.
  intros H Hev. apply step_inv in H as [_ H].
  destruct H as [(op & -> & ->)|[(-> & _ & ->)|[->|H]]];
    try (by apply snoc_not_self in Hev).
  destruct H as (tid & th & th' & c' & tick' & evs & out & forks
                 & Hth & Hm & ->).
  simpl in Hev. apply app_inv_head in Hev as ->. eauto 10.
Qed.

(** The step that records a swap is taken by a thread at the swap of
    [Flush], holding the mutex; it takes all four buffers and leaves four
    empty ones. *)
Lemma step_swap a σ σ' t snap :
  reachable σ → step a σ = Some σ' →
  events σ' = events σ ++ [EvSwap t snap] →
  bufferMu (client σ) = Some t ∧ snap = snapshot_of (client σ) ∧
  client σ' = set_buffers [] [] [] [] (client σ).
Proof.
  intros Hr H Hev.
  destruct (step_event _ _ _ _ H Hev)
    as (tid & th & th' & c' & tick' & out & forks & Hth & Hm & ->).
  destruct (Move_swap _ _ _ _ _ _ _ _ _ _ _ t snap Hm) as (-> & Hpc & -> & ->);
    [by left|].
  split; [|done].
  destruct (reachable_lock _ Hr) as [_ Hl]. apply (Hl _ _ Hth).
  by rewrite (critical_flush _ _ Hpc).
Qed.

(** The step that records a call of [send] is taken by a thread that
    does not hold the mutex, and leaves the client as it is. *)
Lemma step_send a σ σ' t d :
  reachable σ → step a σ = Some σ' →
  events σ' = events σ ++ [EvSend t d] →
  bufferMu (client σ) ≠ Some t ∧ client σ' = client σ.
Proof.
  intros Hr H Hev.
  destruct (step_event _ _ _ _ H Hev)
    as (tid & th & th' & c' & tick' & out & forks & Hth & Hm & ->).
  destruct (Move_sending _ _ _ _ _ _ _ _ _ _ _ t d Hm) as (-> & Hs & ->);
    [by left|].
  split; [|done]. intros Hmu.
  destruct (reachable_lock _ Hr) as [Hl _].
  destruct (Hl _ Hmu) as (th0 & Hth0 & Hc). simplify_eq.
  by rewrite (sending_not_critical _ Hs) in Hc.
Qed.

Lemma NoDup_app_disjoint {A} (l1 l2 l3 l4 l5 : list A) :
  NoDup (l1 ++ l2 ++ l3 ++ l4 ++ l5) → ∀ x, x ∈ l2 → x ∉ l4.
Proof.
  intros H x H2 H4.
  apply NoDup_app in H as (_ & _ & H). apply NoDup_app in H as (_ & H & _).
  apply (H x H2). apply elem_of_app. right. apply elem_of_app. by left.
Qed.

Lemma fresh_lookup_insert (l : list Thread) th th' :
  <[length l := th']> (l ++ [th]) !! length l = Some th'.
Proof. by rewrite fresh_insert, fresh_lookup. Qed.


(** ** What [Close] sends *)

Lemma elem_of_sends_of t d evs : d ∈ sends_of t evs ↔ EvSend t d ∈ evs.
Proof.
  unfold sends_of. rewrite list_elem_of_bind. split.
  - intros (e & He & Hin). destruct e as [| | |t' d']; simpl in He;
      try (by apply elem_of_nil in He).
    case_decide; [|by apply elem_of_nil in He].
    apply list_elem_of_singleton in He. by subst.
  - intros Hin. exists (EvSend t d). split; [|done]. simpl.
    rewrite decide_True by done. by left.
Qed.

(** Every call of [send] made by a call of [Close] finds the context
    cancelled: nothing reaches the wire and the call returns an error. *)
Lemma reachable_close_sends σ :
  reachable σ →
  ∀ t pc d, threads σ !! t = Some (TClose pc) →
            d ∈ sends_of t (events σ) →
            wire d = None ∧ is_Some (result d).
Proof.
  revert σ.
  apply (reachable_ind (λ σ, ∀ t pc d,
           threads σ !! t = Some (TClose pc) → d ∈ sends_of t (events σ) →
           wire d = None ∧ is_Some (result d))).
  - intros σ (cfg & _ & ->)%initial_inv t pc d _ H%elem_of_sends_of.
    by apply elem_of_nil in H.
  - intros a σ σ' Hr IH H.
    pose proof (reachable_bounded _ Hr) as Hb.
    apply step_inv in H as [_ H].
    destruct H as [(op & -> & ->)|[(-> & _ & ->)|[->|H]]]; try done.
    + intros t pc d [H|[-> _]]%call_lookup Hd; [by eapply IH|].
      simpl in Hd. apply elem_of_sends_of, Hb in Hd. simpl in Hd. lia.
    + destruct H as (tid & th & th' & c' & tick' & evs & out & forks
                     & Hth & Hm & ->).
      pose proof (lookup_lt_Some _ _ _ Hth) as Hlt.
      intros t pc d Hx Hd. simpl in *.
      rewrite sends_of_app in Hd. apply elem_of_app in Hd as [Hd|Hd].
      * apply commit_lookup in Hx; [|done].
        destruct Hx as [[-> Heq]|[[Hne Hx]|[Hge Hx]]].
        -- pose proof (Move_role _ _ _ _ _ _ _ _ _ _ _ Hm) as Hrole.
           rewrite <-Heq in Hrole. destruct th; simplify_eq/=. by eapply IH.
        -- by eapply IH.
        -- apply elem_of_sends_of, Hb in Hd. simpl in Hd. lia.
      * apply elem_of_sends_of in Hd.
        pose proof (Move_events_tid _ _ _ _ _ _ _ _ _ _ _ Hm _ Hd) as Ht.
        simpl in Ht. subst t.
        destruct (Move_send _ _ _ _ _ _ _ _ _ _ _ _ Hm Hd)
          as ([fpc Hf] & ep & p & env & ->).
        rewrite commit_lookup_self in Hx by done.
        pose proof (Move_role _ _ _ _ _ _ _ _ _ _ _ Hm) as Hrole.
        simplify_eq. destruct th as [| | |[| |cpc]]; simplify_eq/=.
        apply send_cancelled. by apply (reachable_cancel _ Hr tid (CFlush fpc)).
Qed.


(** ** Flushes started by an append *)

Lemma Move_go me child c tick th th' c' tick' evs out forks t ch :
  Move me child c tick th th' c' tick' evs out forks →
  EvGo t ch ∈ evs →
  t = me ∧ ch = child ∧ forks = [TFlush FLock] ∧
  ∃ r, th = TAdd r (AGo true) ∧ th' = TAdd r AReturn.
Proof.
  destruct 1 as [r pc pc' c' evs out forks H|env th pc pc' c' evs out forks Hpc H
                 | | | | | |]; try (by intros ?%elem_of_nil).
  - apply add_step_inv in H as [_ H].
    destruct H as [(-> & -> & Hmu & -> & -> & _)|[(b & -> & -> & H & -> & _)
                   |[(b & -> & -> & -> & -> & _)
                   |[(-> & -> & -> & -> & ->)|(-> & -> & -> & -> & _)]]]];
      intros Hin; try (by apply elem_of_nil in Hin);
      apply list_elem_of_singleton in Hin; simplify_eq.
    repeat split; try done. by exists r.
  - intros Hin. apply Flush_step_inv in H as [_ H].
    destruct H as [(-> & -> & Hmu & -> & -> & _)
                   |[(s & -> & -> & -> & -> & -> & _)
                   |[(s & -> & -> & -> & -> & _)|[-> H]]]];
      try (by apply elem_of_nil in Hin);
      try (by apply list_elem_of_singleton in Hin).
    destruct H as [(s & e & -> & H)|[(s & e & -> & H)|[(s & e & -> & H)
                   |[(j & rest & e & -> & H)|(e & -> & -> & _ & ->)]]]];
      try (cbv zeta in H; destruct (nonempty _));
      try (cbv zeta in H; destruct H as (-> & _ & ->));
      try (by apply elem_of_nil in Hin);
      by apply list_elem_of_singleton in Hin.
Qed.

(** The thread started by [go c.Flush()] runs [Flush]. *)
Lemma reachable_go σ :
  reachable σ →
  ∀ t child, EvGo t child ∈ events σ →
             ∃ pc, threads σ !! child = Some (TFlush pc).
Proof.
  revert σ.
  apply (reachable_ind (λ σ, ∀ t child, EvGo t child ∈ events σ →
           ∃ pc, threads σ !! child = Some (TFlush pc))).
  - intros σ (cfg & _ & ->)%initial_inv t child H. by apply elem_of_nil in H.
  - intros a σ σ' Hr IH H. apply step_inv in H as [_ H].
    destruct H as [(op & -> & ->)|[(-> & _ & ->)|[->|H]]]; try done.
    + intros t child (pc & Hc)%IH. exists pc. by apply lookup_app_l_Some.
    + destruct H as (tid & th & th' & c' & tick' & evs & out & forks
                     & Hth & Hm & ->).
      pose proof (lookup_lt_Some _ _ _ Hth) as Hlt.
      pose proof (Move_role _ _ _ _ _ _ _ _ _ _ _ Hm) as Hrole.
      intros t child Hd. simpl in *.
      apply elem_of_app in Hd as [Hd|Hd].
      * destruct (IH _ _ Hd) as (pc & Hc).
        destruct (decide (child = tid)) as [->|Hne].
        -- simplify_eq. destruct th'; simplify_eq/=.
           eexists. by apply commit_lookup_self.
        -- exists pc. rewrite commit_lookup_other; [done..|].
           by eapply lookup_lt_Some.
      * destruct (Move_go _ _ _ _ _ _ _ _ _ _ _ _ _ Hm Hd)
          as (-> & -> & -> & _).
        exists FLock. rewrite lookup_app_r by (by rewrite length_insert).
        by rewrite length_insert, Nat.sub_diag.
Qed.


(** ** Snapshots and fresh threads *)

Lemma held_snapshot_of k c : held k (snapshot_of c) = buffer k c.
Proof. by destruct k. Qed.

Lemma after_add_lookup (l : list Thread) a b :
  (l ++ [a; b]) !! S (length l) = Some b.
Proof.
  rewrite lookup_app_r by lia.
  by replace (S (length l) - length l)%nat with 1%nat by lia.
Qed.


(** ** Runs of appends alone *)

Lemma bind_insert {A B} (f : A → list B) (l : list A) (t : nat) x y :
  l !! t = Some x →
  (<[t:=y]> l ≫= f) ++ f x ≡ₚ (l ≫= f) ++ f y.
Proof.
  revert t. induction l as [|a l IH]; intros [|t] H; simplify_eq/=.
  - etrans; [apply Permutation_app_comm|]. rewrite <-app_assoc.
    f_equiv. apply Permutation_app_comm.
  - rewrite <-!app_assoc. f_equiv. by apply IH.
Qed.

Lemma bind_insert_same {A B} (f : A → list B) (l : list A) (t : nat) x y :
  l !! t = Some x → f y = f x → <[t:=y]> l ≫= f = l ≫= f.
Proof.
  revert t. induction l as [|a l IH]; intros [|t] H E; simplify_eq/=.
  - by rewrite E.
  - f_equal. by apply IH.
Qed.

Lemma bind_length_le {A B} (f g : A → list B) (l : list A) (t : nat) x :
  l !! t = Some x →
  (∀ z, length (f z) ≤ length (g z))%nat →
  (length (l ≫= f) + length (g x) ≤ length (l ≫= g) + length (f x))%nat.
Proof.
  intros H Hle. revert t H.
  assert (∀ l : list A, length (l ≫= f) ≤ length (l ≫= g))%nat as Hall.
  { intros l'. induction l' as [|a l' IH]; [done|].
    rewrite !bind_cons, !length_app. specialize (Hle a). lia. }
  induction l as [|a l IH]; intros [|t] H; simplify_eq; simpl in H;
    rewrite !bind_cons, !length_app.
  - simplify_eq. specialize (Hall l). lia.
  - specialize (IH _ H). specialize (Hle a). lia.
Qed.

Lemma landed_le_adds k z :
  (length (match z with
           | TAdd r (AUnlock _ | AGo _ | AReturn) => pick k r
           | _ => []
           end)
   ≤ length (match z with TAdd r _ => pick k r | _ => [] end))%nat.
Proof. destruct z as [r []| | |]; simpl; lia. Qed.

Lemma landed_lt_adds ths t r :
  ths !! t = Some (TAdd r AAppend) →
  (length (landed (kind_of r) ths) < length (adds (kind_of r) ths))%nat.
Proof.
  intros H.
  pose proof (bind_length_le _ _ ths t _ H (landed_le_adds (kind_of r)))
    as Hle.
  unfold landed, adds, pick in *. rewrite decide_True in Hle by done.
  simpl in Hle. lia.
Qed.

Lemma calls_app k sch1 sch2 : calls k (sch1 ++ sch2) = calls k sch1 ++ calls k sch2.
Proof. apply bind_app. Qed.

Lemma swapped_appends k evs :
  (∀ e, e ∈ evs → ∃ t r, e = EvAppend t r) → swapped k evs = [].
Proof.
  induction evs as [|e evs IH]; intros H; [done|].
  destruct (H e) as (t & r & ->); [left|]. simpl.
  apply IH. intros e' He'. apply H. by right.
Qed.

Lemma sends_appends evs :
  (∀ e, e ∈ evs → ∃ t r, e = EvAppend t r) → sends evs = [].
Proof.
  induction evs as [|e evs IH]; intros H; [done|].
  destruct (H e) as (t & r & ->); [left|]. simpl.
  apply IH. intros e' He'. apply H. by right.
Qed.

Lemma quiet_initial σ : initial σ → quiet [] σ.
Proof.
  intros (cfg & _ & ->)%initial_inv. repeat split; simpl; try done.
  - intros [|t] th H; simplify_eq/=. done.
  - intros e He. by apply elem_of_nil in He.
  - by destruct k.
Qed.

Lemma quiet_calls sch sch' σ :
  (∀ k, calls k sch' = calls k sch) → quiet sch σ → quiet sch' σ.
Proof.
  intros E (?&?&?&?&Hadds&?). repeat split; try done.
  intros k. by rewrite E.
Qed.

Lemma quiet_panic sch σ : quiet sch σ → quiet sch (panic σ).
Proof. done. Qed.

Lemma quiet_move sch σ tid th th' c' tick' evs out forks :
  quiet sch σ → threads σ !! tid = Some th →
  Move tid (length (threads σ)) (client σ) (tickerC σ)
       th th' c' tick' evs out forks →
  (∀ k, Z.of_nat (length (calls k sch))
        < Config.BatchSize (config (client σ))) →
  quiet sch (commit tid th' c' tick' evs out forks σ).
Proof.
  intros (Hctx & Htick & Hths & Hevs & Hadds & Hbuf) Hth Hm HB.
  pose proof (Hths _ _ Hth) as Hq.
  pose proof (lookup_lt_Some _ _ _ Hth) as Hlt.
  destruct Hm as [r pc pc' c'' evs' out' forks' Hs
                 |env th0 pc pc' c'' evs' out' forks' Hpc Hs
                 |Hint|err|n Hc Hwg|Ht| |Hwg].
  - apply add_step_inv in Hs as [-> Hs].
    assert (∀ b : bool,
      pc = AAppend → append r (client σ) = (c'', b) → b = false) as Hfalse.
    { intros b -> Happ.
      pose proof (append_spec _ _ _ _ Happ) as (_&_&_&_&_&Hb&->).
      unfold reached. apply Z.leb_gt. rewrite Hb, decide_True by done.
      rewrite length_app, (Permutation_length (Hbuf _)). simpl.
      pose proof (landed_lt_adds _ _ _ Hth) as Hle.
      rewrite Hadds in Hle. specialize (HB (kind_of r)). lia. }
    assert (quiet_thread (TAdd r pc')) as Hq'.
    { destruct Hs as [(->&->&_)|[(b&->&->&Happ&_)|[(b&->&->&_)
                     |[(->&->&_)|(->&->&_)]]]]; simpl in *; eauto. }
    assert (forks' = []) as ->.
    { destruct Hs as [(_&_&_&_&_&->)|[(b&_&_&_&_&->)|[(b&_&_&_&_&->)
                     |[(->&_)|(_&_&_&_&->)]]]]; done. }
    unfold commit. rewrite app_nil_r. repeat split; simpl.
    + destruct Hs as [(_&_&_&->&_)|[(b&_&_&Happ&_)|[(b&_&_&->&_)
                     |[(_&_&->&_)|(_&_&->&_)]]]]; try done.
      by pose proof (append_spec _ _ _ _ Happ) as (_&_&_&->&_).
    + done.
    + intros t th.
      destruct (decide (t = tid)) as [->|Hne].
      * rewrite list_lookup_insert_eq by done. by intros [= <-].
      * rewrite list_lookup_insert_ne by done. apply Hths.
    + intros e [He|He]%elem_of_app; [by apply Hevs|].
      destruct Hs as [(_&_&_&_&->&_)|[(b&_&_&_&->&_)|[(b&_&_&_&->&_)
                     |[(->&_)|(_&_&_&->&_)]]]]; simpl in Hq.
      all: try by apply elem_of_nil in He.
      * apply list_elem_of_singleton in He. eauto.
      * done.
    + intros k. rewrite <-Hadds. unfold adds.
      by apply (bind_insert_same _ _ _ _ _ Hth).
    + intros k.
      destruct Hs as [(->&->&_&->&_)|[(b&->&->&Happ&_)|[(b&->&->&->&_)
                     |[(->&->&->&_)|(->&->&->&_)]]]].
      * unfold landed.
        rewrite (bind_insert_same _ _ _ _ _ Hth) by done.
        etrans; [|apply Hbuf]. by destruct k.
      * pose proof (append_spec _ _ _ _ Happ) as (_&_&_&_&_&Hb&_).
        rewrite Hb.
        pose proof (bind_insert
          (λ th, match th with
                 | TAdd r (AUnlock _ | AGo _ | AReturn) => pick k r
                 | _ => []
                 end) _ _ _ (TAdd r (AUnlock b)) Hth) as Hp.
        simpl in Hp. rewrite app_nil_r in Hp.
        fold (landed k (threads σ)) in Hp. unfold landed at 1.
        rewrite Hp. unfold pick. by rewrite Hbuf.
      * unfold landed.
        rewrite (bind_insert_same _ _ _ _ _ Hth) by done.
        etrans; [|apply Hbuf]. by destruct k.
      * unfold landed.
        rewrite (bind_insert_same _ _ _ _ _ Hth) by done. apply Hbuf.
      * unfold landed.
        rewrite (bind_insert_same _ _ _ _ _ Hth) by done. apply Hbuf.
  - destruct th0 as [|?|[]|[]]; simplify_eq/=; done.
  - unfold commit. rewrite app_nil_r, !app_nil_r.
    repeat split; simpl; try done.
    + intros t th.
      destruct (decide (t = tid)) as [->|Hne].
      * rewrite list_lookup_insert_eq by done. by intros [= <-].
      * rewrite list_lookup_insert_ne by done. apply Hths.
    + intros k. rewrite <-Hadds. unfold adds.
      by apply (bind_insert_same _ _ _ _ _ Hth).
    + intros k. unfold landed.
      rewrite (bind_insert_same _ _ _ _ _ Hth) by done. apply Hbuf.
  - done.
  - congruence.
  - done.
  - done.
  - done.
Qed.

Lemma quiet_step sch a σ σ' :
  quiet sch σ → append_only a → step a σ = Some σ' →
  (∀ k, Z.of_nat (length (calls k (sch ++ [a])))
        < Config.BatchSize (config (client σ))) →
  quiet (sch ++ [a]) σ'.
Proof.
  intros Hq Ha Hstep HB.
  destruct (step_inv _ _ _ Hstep) as [Hp Hcases].
  assert (∀ k, calls k (sch ++ [a])
               = calls k sch ++ calls k [a]) as Hcalls
    by (intros; apply calls_app).
  destruct a as [op| |tid env|tid dn]; [|done| |].
  - (* a call *)
    destruct Hq as (Hctx & Htick & Hths & Hevs & Hadds & Hbuf).
    destruct Ha as [r Hop]. unfold step in Hstep. rewrite Hp in Hstep.
    simplify_eq. unfold call. rewrite (op_rec_start _ _ Hop).
    repeat split; simpl; try done.
    + intros t th [H|[-> ->]]%call_lookup; [by eapply Hths|done].
    + intros k. unfold adds. rewrite bind_app, Hcalls. fold (adds k (threads σ)).
      rewrite Hadds. simpl. rewrite Hop. simpl. done.
    + intros k. unfold landed. rewrite bind_app. simpl.
      rewrite app_nil_r. apply Hbuf.
  - assert (∀ k, calls k (sch ++ [ARun tid env]) = calls k sch) as Hc
      by (intros; rewrite Hcalls; simpl; apply app_nil_r).
    apply (quiet_calls sch); [done|].
    destruct Hcases as [(?&?&_)|[(?&_)|[->|(t&th&th'&c'&tick'&evs&out&forks
                                            &Hth&Hm&->)]]]; try done.
    apply quiet_move with th; try done.
    intros k. rewrite <-Hc. apply HB.
  - assert (∀ k, calls k (sch ++ [ASelect tid dn]) = calls k sch) as Hc
      by (intros; rewrite Hcalls; simpl; apply app_nil_r).
    apply (quiet_calls sch); [done|].
    destruct Hcases as [(?&?&_)|[(?&_)|[->|(t&th&th'&c'&tick'&evs&out&forks
                                            &Hth&Hm&->)]]]; try done.
    apply quiet_move with th; try done.
    intros k. rewrite <-Hc. apply HB.
Qed.

Lemma quiet_run sch σ0 σ :
  initial σ0 → run sch σ0 = Some σ → Forall append_only sch →
  (∀ k, Z.of_nat (length (calls k sch))
        < Config.BatchSize (config (client σ))) →
  quiet sch σ.
Proof.
  intros H0. revert σ.
  induction sch as [|a sch IH] using rev_ind; intros σ Hrun Hall HB.
  - simplify_eq/=. by apply quiet_initial.
  - rewrite run_app in Hrun.
    destruct (run sch σ0) as [σ1|] eqn:E1; simplify_eq/=.
    destruct (step a σ1) as [σ2|] eqn:E2; simplify_eq/=.
    apply Forall_app in Hall as [Hall Ha]. rewrite Forall_singleton in Ha.
    pose proof (step_config _ _ _ E2) as Hcfg.
    apply (quiet_step sch a σ1); try done.
    + apply IH; try done. intros k. specialize (HB k).
      rewrite calls_app, length_app in HB. rewrite <-Hcfg. lia.
    + intros k. rewrite <-Hcfg. apply HB.
Qed.

Lemma landed_returned k ths :
  (∀ t r pc, ths !! t = Some (TAdd r pc) → pc = AReturn) →
  landed k ths = adds k ths.
Proof.
  induction ths as [|th ths IH]; intros H; [done|].
  unfold landed, adds. rewrite !bind_cons.
  fold (landed k ths). fold (adds k ths). rewrite IH.
  - f_equal. destruct th as [r pc| | |]; try done.
    by rewrite (H 0%nat r pc eq_refl).
  - intros t r pc Ht. by apply (H (S t) r).
Qed.

(** ** Appends run one by one *)

Lemma appends_snoc rs r c :
  appends (rs ++ [r]) c = (append r (appends rs c)).1.
Proof. unfold appends. by rewrite foldl_app. Qed.

Lemma appends_spec rs c :
  config (appends rs c) = config c ∧
  bufferMu (appends rs c) = bufferMu c ∧ ctx (appends rs c) = ctx c ∧
  ∀ k, buffer k (appends rs c) = buffer k c ++ (rs ≫= pick k).
Proof.
  induction rs as [|r rs IH] using rev_ind.
  - repeat split; try done. intros k. simpl. by rewrite app_nil_r.
  - rewrite appends_snoc. destruct IH as (H1 & H2 & H3 & H4).
    destruct (append r (appends rs c)) as [c' b] eqn:E. simpl.
    pose proof (append_spec _ _ _ _ E) as (E1 & _ & E2 & E3 & _ & E4 & _).
    repeat split; try congruence.
    intros k. rewrite E4, H4, bind_app, <-app_assoc. simpl.
    by rewrite app_nil_r.
Qed.

Lemma pick_same k rs :
  Forall (λ r, kind_of r = k) rs → rs ≫= pick k = rs.
Proof.
  induction 1 as [|r rs Hr _ IH]; [done|].
  rewrite bind_cons, IH. unfold pick. by rewrite decide_True.
Qed.

Lemma pick_other k k' rs :
  k' ≠ k → Forall (λ r, kind_of r = k) rs → rs ≫= pick k' = [].
Proof.
  intros Hne. induction 1 as [|r rs Hr _ IH]; [done|].
  rewrite bind_cons, IH. unfold pick. rewrite decide_False; [done|congruence].
Qed.

Lemma one_by_one_app t env ops1 ops2 :
  one_by_one t env (ops1 ++ ops2)
  = one_by_one t env ops1 ++ one_by_one (t + length ops1) env ops2.
Proof.
  revert t. induction ops1 as [|op ops1 IH]; intros t; simpl.
  - by rewrite Nat.add_0_r.
  - rewrite IH.
    by replace (S t + length ops1)%nat with (t + S (length ops1))%nat by lia.
Qed.

Lemma after_adds_nil σ : panicked σ = false → after_adds [] σ = σ.
Proof.
  destruct σ. simpl. intros ->. unfold after_adds. simpl.
  by rewrite !app_nil_r.
Qed.

Lemma after_adds_cons r rs σ :
  (append r (client σ)).2 = false →
  after_adds rs (after_add r σ) = after_adds (r :: rs) σ.
Proof.
  intros Hb. unfold after_adds, after_add. rewrite Hb. simpl.
  rewrite <-!app_assoc. simpl. f_equal. do 2 f_equal.
  rewrite Nat.add_0_r. f_equal. apply imap_ext. intros i x _. simpl.
  rewrite length_app. simpl. f_equal. lia.
Qed.

Lemma run_adds (env : Env) k ops rs σ :
  Forall2 (λ op r, op_rec op = Some r) ops rs →
  Forall (λ r, kind_of r = k) rs →
  Z.of_nat (length (buffer k (client σ)) + length rs)
    < Config.BatchSize (config (client σ)) →
  panicked σ = false → bufferMu (client σ) = None →
  run (one_by_one (length (threads σ)) env ops) σ = Some (after_adds rs σ).
Proof.
  intros H. revert σ.
  induction H as [|op r ops rs Hop _ IH]; intros σ Hk HB Hp Hmu.
  - simpl. by rewrite after_adds_nil.
  - apply Forall_cons in Hk as [Hr Hk]. cbn [one_by_one].
    rewrite run_app, (run_add env σ op r Hop Hp Hmu). simpl.
    destruct (append r (client σ)) as [c1 b] eqn:Happ.
    pose proof (append_spec _ _ _ _ Happ) as (Hcfg & _ & Hmu1 & _ & _ & Hbuf & Hb).
    assert (b = false) as ->.
    { rewrite Hb, Hbuf, Hr, decide_True, length_app by done. unfold reached.
      apply Z.leb_gt. simpl in *. lia. }
    assert ((append r (client σ)).2 = false) as Hb2 by by rewrite Happ.
    rewrite <-(after_adds_cons _ _ _ Hb2).
    assert (length (threads (after_add r σ)) = S (length (threads σ))) as Hlen.
    { unfold after_add. rewrite Happ. simpl. rewrite length_app. simpl. lia. }
    rewrite <-Hlen. apply IH; try done.
    + unfold after_add. rewrite Happ. simpl. rewrite Hcfg, Hbuf, Hr.
      rewrite decide_True, length_app by done. simpl in *. lia.
    + unfold after_add. rewrite Happ. simpl. congruence.
Qed.

Lemma sends_app evs1 evs2 : sends (evs1 ++ evs2) = sends evs1 ++ sends evs2.
Proof. apply bind_app. Qed.

Lemma sends_sent t ds : sends (EvSend t <$> ds) = ds.
Proof. induction ds as [|d ds IH]; [done|]. simpl. by f_equal. Qed.

Lemma sends_imap_append (f : nat → nat) rs :
  sends (imap (λ i r, EvAppend (f i) r) rs) = [].
Proof.
  revert f. induction rs as [|r rs IH]; intros f; [done|]. simpl.
  apply (IH (f ∘ S)).
Qed.

Lemma appended_imap_append k (f : nat → nat) rs :
  appended k (imap (λ i r, EvAppend (f i) r) rs) = rs ≫= pick k.
Proof.
  revert f. induction rs as [|r rs IH]; intros f; [done|].
  rewrite bind_cons. simpl. f_equal. apply (IH (f ∘ S)).
Qed.

(** ** The calls of [send] for one kind *)

Lemma attempts_app k ds1 ds2 :
  attempts k (ds1 ++ ds2) = attempts k ds1 ++ attempts k ds2.
Proof. apply filter_app. Qed.

Lemma send_endpoint c ep p env : endpoint (send c ep p env) = ep.
Proof. exact (f_equal fst (send_called c ep p env)). Qed.

Lemma attempts_jobs c env k js :
  length (attempts k ((λ x, send c x.1 x.2 env) <$> (route_job <$> js)))
  = if decide (k = KJob) then length js else 0%nat.
Proof.
  induction js as [|j js IH]; [by destruct (decide _)|].
  rewrite !fmap_cons. unfold attempts in *. rewrite filter_cons.
  rewrite send_endpoint.
  destruct k; simpl in *; rewrite ?IH; done.
Qed.

Lemma attempts_one c env k ep p :
  length (attempts k [send c ep p env])
  = if decide (ep = path k) then 1%nat else 0%nat.
Proof.
  unfold attempts. rewrite filter_cons.
  rewrite send_endpoint.
  by destruct (decide (ep = path k)).
Qed.

Lemma attempts_routes c env k s :
  length (attempts k ((λ x, send c x.1 x.2 env) <$> routes s))
  = match k with
    | KJob => length (jobs s)
    | _ => if nonempty (held k s) then 1%nat else 0%nat
    end.
Proof.
  unfold routes. rewrite !fmap_app, !attempts_app, !length_app.
  rewrite attempts_jobs.
  unfold route_logs, route_spans, route_metrics, nonempty.
  destruct k; simpl held; rewrite ?length_fmap;
    repeat case_bool_decide; simpl fmap;
    rewrite ?attempts_one; simpl; done.
Qed.

(** ** An append that reaches the batch size, and the flush it starts *)

Lemma run_add_flush (env : Env) σ op r :
  reachable σ → op_rec op = Some r → panicked σ = false →
  bufferMu (client σ) = None →
  Config.BatchSize (config (client σ))
    ≤ Z.of_nat (S (length (buffer (kind_of r) (client σ)))) →
  let t := length (threads σ) in
  let snap := snapshot_of (append r (client σ)).1 in
  ∃ σ',
    run ((ACall op :: steps t 4 env)
         ++ steps (S t) (7 + length (jobs snap)) env) σ = Some σ' ∧
    events σ'
    = events σ ++ [EvAppend t r; EvGo t (S t); EvSwap (S t) snap]
      ++ (EvSend (S t) <$>
            ((λ x, send (client σ) x.1 x.2 env) <$> routes snap)) ∧
    (∀ k, held k snap
          = buffer k (client σ)
            ++ if decide (kind_of r = k) then [r] else []) ∧
    (∀ k, buffer k (client σ') = []).
Proof.
  intros Hr Hop Hp Hmu HB t snap.
  destruct (append r (client σ)) as [c1 b] eqn:Happ.
  pose proof (append_spec _ _ _ _ Happ)
    as (Hcfg & _ & Hmu1 & Hctx & _ & Hbuf & Hb).
  assert (b = true) as ->.
  { rewrite Hb, Hbuf, decide_True, length_app by done. unfold reached.
    simpl. apply Z.leb_le. rewrite Nat.add_1_r. done. }
  pose proof (run_add env σ op r Hop Hp Hmu) as Hadd.
  unfold after_add in Hadd. rewrite Happ in Hadd. cbn [fst snd] in Hadd.
  fold t in Hadd.
  set (σ1 := mkSystem c1 (tickerC σ)
               (threads σ ++ [TAdd r AReturn; TFlush FLock])
               (events σ ++ [EvAppend t r; EvGo t (S t)])
               (stdout σ) false) in Hadd.
  destruct (run_flush env σ1 (S t) (TFlush FLock))
    as (σ' & Hrun & _ & _ & Hc & _ & Hev);
    [by apply (reachable_run _ _ _ Hr Hadd)|done|apply after_add_lookup|done
    |simpl; congruence|].
  exists σ'. split; [|split; [|split]].
  - rewrite run_app. fold t. rewrite Hadd. exact Hrun.
  - rewrite Hev. simpl. rewrite <-app_assoc. simpl. do 5 f_equal.
    apply list_fmap_ext. intros _ [ep p] _. simpl.
    by apply send_frame.
  - intros k. subst snap. simpl. by rewrite held_snapshot_of.
  - intros k. rewrite Hc. by destruct k.
Qed.

Lemma reachable_after_adds (env : Env) k ops rs σ :
  reachable σ →
  Forall2 (λ op r, op_rec op = Some r) ops rs →
  Forall (λ r, kind_of r = k) rs →
  Z.of_nat (length (buffer k (client σ)) + length rs)
    < Config.BatchSize (config (client σ)) →
  panicked σ = false → bufferMu (client σ) = None →
  reachable (after_adds rs σ).
Proof.
  intros Hr H1 H2 H3 H4 H5.
  by apply (reachable_run _ _ _ Hr (run_adds env k ops rs σ H1 H2 H3 H4 H5)).
Qed.

(** * The claims *)

(** ** Construction *)



(** ** Delivery *)










(** ** The swap *)

(** C1.  In every state a freshly constructed client can get into: a
    thread at the swap of [Flush] holds the mutex and a thread about to
    call [send] does not; the step that swaps takes all four buffers as
    they are and leaves four empty ones, the step that calls [send]
    leaves the client alone.  The records appended so far are, in order,
    those swapped out so far followed by those in the live buffer.  Of
    two swaps, the earlier snapshot holds the records appended before it
    that no swap before it took, and the later one those appended before
    it that no swap before it took: what was appended before the later
    swap is what the swaps up to it took, each record once.  Where the
    appended records are pairwise distinct, no record of one snapshot is
    in the other. *)
Theorem Flush_snapshots_partition σ :
  reachable σ →
  (∀ t th, threads σ !! t = Some th → flush_pc th = Some FSwap →
           bufferMu (client σ) = Some t) ∧
  (∀ t th, threads σ !! t = Some th → sending th = true →
           bufferMu (client σ) ≠ Some t) ∧
  (∀ a σ' t snap,
     step a σ = Some σ' → events σ' = events σ ++ [EvSwap t snap] →
     bufferMu (client σ) = Some t ∧ snap = snapshot_of (client σ) ∧
     client σ' = set_buffers [] [] [] [] (client σ)) ∧
  (∀ a σ' t d,
     step a σ = Some σ' → events σ' = events σ ++ [EvSend t d] →
     bufferMu (client σ) ≠ Some t ∧ client σ' = client σ) ∧
  (∀ k, appended k (events σ)
        = swapped k (events σ) ++ buffer k (client σ)) ∧
  (∀ pre t1 s1 mid t2 s2 post k,
     events σ = pre ++ EvSwap t1 s1 :: mid ++ EvSwap t2 s2 :: post →
     appended k pre = swapped k pre ++ held k s1 ∧
     appended k (pre ++ EvSwap t1 s1 :: mid)
     = swapped k pre ++ held k s1 ++ swapped k mid ++ held k s2 ∧
     (NoDup (appended k (events σ)) →
      ∀ r, r ∈ held k s1 → r ∉ held k s2)).
Proof.
  intros Hr.
  destruct (reachable_lock _ Hr) as [Hl1 Hl2].
  split; [|split; [|split; [|split; [|split]]]].
  - intros t th Hth Hpc. apply (Hl2 _ _ Hth).
    by rewrite (critical_flush _ _ Hpc).
  - intros t th Hth Hs Hmu. destruct (Hl1 _ Hmu) as (th0 & Hth0 & Hc).
    simplify_eq. by rewrite (sending_not_critical _ Hs) in Hc.
  - intros a σ' t snap. by apply step_swap.
  - intros a σ' t d. by apply step_send.
  - by apply reachable_conserved.
  - intros pre t1 s1 mid t2 s2 post k Hev.
    pose proof (reachable_swaps_exact _ Hr _ _ _ _ Hev k) as H1.
    assert (events σ = (pre ++ EvSwap t1 s1 :: mid) ++ EvSwap t2 s2 :: post)
      as Hev2 by (by rewrite <-app_assoc).
    pose proof (reachable_swaps_exact _ Hr _ _ _ _ Hev2 k) as H2.
    assert (swapped k (pre ++ EvSwap t1 s1 :: mid)
            = swapped k pre ++ held k s1 ++ swapped k mid) as Hsw.
    { change (EvSwap t1 s1 :: mid) with ([EvSwap t1 s1] ++ mid).
      rewrite !swapped_app.
      change (swapped k [EvSwap t1 s1]) with (held k s1 ++ []).
      by rewrite app_nil_r. }
    split; [done|]. split; [by rewrite H2, Hsw, <-!app_assoc|].
    intros Hnd. rewrite Hev2, appended_app, H2, Hsw, <-!app_assoc in Hnd.
    by eapply NoDup_app_disjoint.
Qed.

Lemma Flush_snapshots_partition_witness :
  reachable demo_two ∧
  events demo_two
  = [EvAppend 1 (RLog (demo_log "a"))]
    ++ EvSwap 2 (mkSnapshot [demo_log "a"] [] [] [])
    :: [EvAppend 3 (RLog (demo_log "b"))]
    ++ EvSwap 4 (mkSnapshot [demo_log "b"] [] [] [])
    :: [EvSend 2 (sendLogs (client demo_new) [demo_log "a"] ok200);
        EvSend 4 (sendLogs (client demo_new) [demo_log "b"] ok200)] ∧
  NoDup (appended KLog (events demo_two)) ∧
  ∀ r, r ∈ [RLog (demo_log "a")] → r ∉ [RLog (demo_log "b")].
Proof.
  assert (reachable demo_two) as Hr.
  { exists demo_new, sched_two. split; [|vm_compute; reflexivity].
    exists (λ _, ""), demo_cfg2. vm_compute; reflexivity. }
  assert (events demo_two
          = [EvAppend 1 (RLog (demo_log "a"))]
            ++ EvSwap 2 (mkSnapshot [demo_log "a"] [] [] [])
            :: [EvAppend 3 (RLog (demo_log "b"))]
            ++ EvSwap 4 (mkSnapshot [demo_log "b"] [] [] [])
            :: [EvSend 2 (sendLogs (client demo_new) [demo_log "a"] ok200);
                EvSend 4 (sendLogs (client demo_new) [demo_log "b"] ok200)])
    as Hev by (vm_compute; reflexivity).
  assert (NoDup (appended KLog (events demo_two))) as Hnd.
  { vm_compute. apply NoDup_cons. split.
    - intros H%list_elem_of_singleton. discriminate H.
    - apply NoDup_singleton. }
  split; [exact Hr|]. split; [exact Hev|]. split; [exact Hnd|].
  destruct (Flush_snapshots_partition demo_two Hr)
    as (_ & _ & _ & _ & _ & Hpart).
  destruct (Hpart _ _ _ _ _ _ _ KLog Hev) as (_ & _ & Hdis).
  exact (Hdis Hnd).
Defined.

(** C9.  A flush that swapped out four empty buffers and has returned
    made no call of [send] and returned no error.  And where the four
    buffers are empty and the mutex is free, a call of [Flush] that runs
    alone returns after seven steps, with no error, no call of [send]
    added to the record and the client as it was. *)
Theorem Flush_of_empty_buffers_is_noop σ :
  reachable σ →
  (∀ t th err snap ds,
     threads σ !! t = Some th → flush_pc th = Some (FReturn err) →
     current t (events σ) = Some (snap, ds) →
     logs snap = [] → spans snap = [] → metrics snap = [] → jobs snap = [] →
     ds = [] ∧ err = None) ∧
  (panicked σ = false → bufferMu (client σ) = None →
   logBuffer (client σ) = [] → spanBuffer (client σ) = [] →
   metricBuffer (client σ) = [] → jobBuffer (client σ) = [] →
   ∀ env, ∃ σ',
     run (ACall OpFlush :: steps (length (threads σ)) 7 env) σ = Some σ' ∧
     threads σ' !! length (threads σ) = Some (TFlush (FReturn None)) ∧
     sends (events σ') = sends (events σ) ∧
     client σ' = client σ).
Proof.
  intros Hr. split.
  - intros t th err snap ds Hth Hpc Hc Hl Hs Hm Hj.
    destruct (reachable_flush _ Hr _ _ _ Hth Hpc) as (s & ds' & Hc' & Hds & ->).
    rewrite Hc in Hc'. simplify_eq.
    unfold routes, route_logs, route_spans, route_metrics in Hds.
    rewrite Hl, Hs, Hm, Hj in Hds. simpl in Hds.
    apply fmap_nil_inv in Hds as ->. done.
  - intros Hp Hmu Hl Hs Hm Hj env.
    assert (step (ACall OpFlush) σ = Some (call OpFlush σ)) as Hstep.
    { unfold step. by rewrite Hp. }
    destruct (run_flush env (call OpFlush σ) (length (threads σ))
                (TFlush FLock))
      as (σ' & Hrun & _ & Hths & Hc & _ & Hev);
      [by eapply reachable_step|done|apply fresh_lookup|done|done|].
    assert (snapshot_of (client (call OpFlush σ)) = mkSnapshot [] [] [] [])
      as Hsnap.
    { unfold snapshot_of. simpl. by rewrite Hl, Hs, Hm, Hj. }
    rewrite Hsnap in Hrun, Hths, Hev. simpl in Hrun, Hths, Hev.
    exists σ'. split; [|split; [|split]].
    + rewrite run_cons_call by done. exact Hrun.
    + rewrite Hths. apply fresh_lookup_insert.
    + rewrite Hev. unfold sends. rewrite bind_app. simpl.
      by rewrite app_nil_r.
    + rewrite Hc. simpl. destruct (client σ); simpl in *. by subst.
Qed.

Lemma Flush_of_empty_buffers_is_noop_witness :
  reachable demo_new ∧ panicked demo_new = false ∧
  bufferMu (client demo_new) = None ∧
  logBuffer (client demo_new) = [] ∧ spanBuffer (client demo_new) = [] ∧
  metricBuffer (client demo_new) = [] ∧ jobBuffer (client demo_new) = [] ∧
  ∃ σ', run (ACall OpFlush :: steps 1 7 refused) demo_new = Some σ' ∧
        threads σ' !! 1%nat = Some (TFlush (FReturn None)) ∧
        sends (events σ') = [] ∧ client σ' = client demo_new.
Proof.
  assert (reachable demo_new) as Hr.
  { exists demo_new, []. split; [|reflexivity].
    exists (λ _, ""), demo_cfg2. vm_compute; reflexivity. }
  split; [exact Hr|]. do 6 (split; [reflexivity|]).
  destruct (Flush_of_empty_buffers_is_noop demo_new Hr) as [_ H].
  exact (H eq_refl eq_refl eq_refl eq_refl eq_refl eq_refl refused).
Defined.

(** ** Shutdown *)




(** C3.  The claim does not hold of [Close] as written: [Close] cancels
    the client's context before its flush, and [send] builds every
    request with that context.  Here one log is buffered and [Close] is
    called against a backend that answers 200 to whatever reaches it:
    the log is swapped out and handed to [send], nothing is put on the
    wire, [Close] returns the context's error and the buffer is empty.
    The same log flushed by a call of [Flush] before [Close] does reach
    the backend. *)
Theorem Close_flush_finds_the_context_cancelled :
  run sched_close demo_new = Some demo_close ∧
  threads demo_close !! 2%nat
  = Some (TClose (CFlush (FReturn
            (Some "failed to send request: context canceled")))) ∧
  sends (events demo_close)
  = [mkDelivery "/api/ingest/logs" (PEnvelope "logs" (ILogs [demo_log "a"]))
                None (Some "failed to send request: context canceled")] ∧
  logBuffer (client demo_close) = [] ∧
  run sched_flush_close demo_new = Some demo_flush_close ∧
  threads demo_flush_close !! 2%nat = Some (TFlush (FReturn None)) ∧
  threads demo_flush_close !! 3%nat = Some (TClose (CFlush (FReturn None))) ∧
  (λ d, url <$> wire d) <$> sends (events demo_flush_close)
  = [Some "http://srv/api/ingest/logs"].
Proof. vm_compute. repeat split. Qed.

(** ** Every flush is a flush of everything *)

(** C10.  Whoever runs it (a call of [Flush], a flush started by an
    append, the worker, [Close]), the step that swaps takes all four
    buffers and leaves all four empty, and the flush, once returned, has
    called [send] for the logs, the spans, the metrics and every job of
    its snapshot; the thread started by an append that reached the batch
    size runs this same [Flush].  In particular, where the mutex is free
    and a record is appended that brings its buffer to the batch size,
    the append and the flush it starts, run one after the other, swap out
    that record together with everything pending in all four buffers,
    hand every batch to [send], and leave the four buffers empty. *)
Theorem every_Flush_takes_all_four_buffers σ :
  reachable σ →
  (∀ a σ' t snap,
     step a σ = Some σ' → events σ' = events σ ++ [EvSwap t snap] →
     snap = mkSnapshot (logBuffer (client σ)) (spanBuffer (client σ))
                       (metricBuffer (client σ)) (jobBuffer (client σ)) ∧
     logBuffer (client σ') = [] ∧ spanBuffer (client σ') = [] ∧
     metricBuffer (client σ') = [] ∧ jobBuffer (client σ') = []) ∧
  (∀ t th err,
     threads σ !! t = Some th → flush_pc th = Some (FReturn err) →
     ∃ snap ds, current t (events σ) = Some (snap, ds) ∧
       called <$> ds = route_logs snap ++ route_spans snap
                       ++ route_metrics snap ++ (route_job <$> jobs snap)) ∧
  (∀ t child, EvGo t child ∈ events σ →
     ∃ pc, threads σ !! child = Some (TFlush pc)) ∧
  (∀ op r env,
     op_rec op = Some r → panicked σ = false →
     bufferMu (client σ) = None →
     Config.BatchSize (config (client σ))
       ≤ Z.of_nat (S (length (buffer (kind_of r) (client σ)))) →
     let t := length (threads σ) in
     let snap := snapshot_of (append r (client σ)).1 in
     ∃ σ',
       run ((ACall op :: steps t 4 env)
            ++ steps (S t) (7 + length (jobs snap)) env) σ = Some σ' ∧
       events σ'
       = events σ ++ [EvAppend t r; EvGo t (S t); EvSwap (S t) snap]
         ++ (EvSend (S t) <$>
               ((λ x, send (client σ) x.1 x.2 env) <$> routes snap)) ∧
       (∀ k, held k snap
             = buffer k (client σ)
               ++ if decide (kind_of r = k) then [r] else []) ∧
       (∀ k, buffer k (client σ') = [])).
Proof.
  intros Hr. split; [|split; [|split]].
  - intros a σ' t snap H Hev.
    destruct (step_swap _ _ _ _ _ Hr H Hev) as (_ & -> & ->). done.
  - intros t th err Hth Hpc.
    destruct (reachable_flush _ Hr _ _ _ Hth Hpc) as (s & ds & Hc & Hds & _).
    by exists s, ds.
  - by apply reachable_go.
  - intros op r env Hop Hp Hmu HB. by apply run_add_flush.
Qed.

Lemma every_Flush_takes_all_four_buffers_witness :
  reachable demo_pending ∧ panicked demo_pending = false ∧
  bufferMu (client demo_pending) = None ∧
  Config.BatchSize (config (client demo_pending))
    ≤ Z.of_nat (S (length (buffer KLog (client demo_pending)))) ∧
  ∃ snap σ',
    run ((ACall (OpAddLog (demo_log "b")) :: steps 5 4 ok200)
         ++ steps 6 (7 + length (jobs snap)) ok200) demo_pending = Some σ' ∧
    (∀ k, held k snap
          = buffer k (client demo_pending)
            ++ if decide (KLog = k) then [RLog (demo_log "b")] else []) ∧
    (∀ k, buffer k (client σ') = []).
Proof.
  assert (reachable demo_pending) as Hr.
  { exists demo_new, sched_pending. split; [|vm_compute; reflexivity].
    exists (λ _, ""), demo_cfg2. vm_compute; reflexivity. }
  assert (panicked demo_pending = false) as Hp by (vm_compute; reflexivity).
  assert (bufferMu (client demo_pending) = None) as Hmu
    by (vm_compute; reflexivity).
  assert (Config.BatchSize (config (client demo_pending))
          ≤ Z.of_nat (S (length (buffer KLog (client demo_pending))))) as HB
    by (vm_compute; discriminate).
  split; [exact Hr|]. split; [exact Hp|]. split; [exact Hmu|].
  split; [exact HB|].
  destruct (every_Flush_takes_all_four_buffers demo_pending Hr)
    as (_ & _ & _ & H).
  destruct (H (OpAddLog (demo_log "b")) (RLog (demo_log "b")) ok200
              eq_refl Hp Hmu HB) as (σ' & Hrun & _ & Hheld & Hempty).
  eexists _, σ'. split; [exact Hrun|]. split; [exact Hheld|exact Hempty].
Defined.

(** ** Appends *)

(** C2, as the code has it.  An append puts its record at the end of
    the buffer of its kind and leaves the other buffers alone; it returns
    no error; it starts a flush, on a thread of its own, exactly when the
    length of that buffer after the append is at least the batch size:
    this holds for the append step and the [go] step of an append in any
    interleaving, and for a call that runs alone from a state where the
    mutex is free.  In a run from construction in which the application
    only appends and the ticker never fires, with fewer appends of each
    kind than the batch size, nothing is swapped out or sent, every
    buffer holds what was appended to it, and once the calls have
    returned each buffer holds exactly the records of the calls of its
    kind.  Where appends of one kind, run one after the other, bring the
    buffer of that kind to exactly the batch size, the last one starts a
    flush, and once that flush has run the four buffers are empty and the
    calls of [send] for the path of that kind are: one, if the kind is
    logs, spans or metrics; one for each record, that is as many as the
    batch size, if the kind is jobs. *)
Theorem append_buffers_and_flushes_at_batch_size σ0 sch σ :
  initial σ0 → run sch σ0 = Some σ →
  (∀ t r pc env σ',
     threads σ !! t = Some (TAdd r pc) → step (ARun t env) σ = Some σ' →
     match pc with
     | ALock =>
         bufferMu (client σ) = None ∧
         threads σ' !! t = Some (TAdd r AAppend) ∧
         ∀ k, buffer k (client σ') = buffer k (client σ)
     | AAppend =>
         (∀ k, buffer k (client σ') = buffer k (client σ) ++ pick k r) ∧
         events σ' = events σ ++ [EvAppend t r] ∧
         threads σ' !! t
         = Some (TAdd r (AUnlock
             (bool_decide
                (Config.BatchSize (config (client σ))
                 ≤ Z.of_nat (length (buffer (kind_of r) (client σ')))))))
     | AUnlock b =>
         threads σ' !! t = Some (TAdd r (AGo b)) ∧
         bufferMu (client σ') = None ∧
         ∀ k, buffer k (client σ') = buffer k (client σ)
     | AGo b =>
         threads σ'
         = <[t := TAdd r AReturn]> (threads σ)
           ++ (if b then [TFlush FLock] else []) ∧
         client σ' = client σ
     | AReturn => False
     end) ∧
  (∀ op r env,
     op_rec op = Some r → panicked σ = false → bufferMu (client σ) = None →
     ∃ σ',
       run (ACall op :: steps (length (threads σ)) 4 env) σ = Some σ' ∧
       (∀ k, buffer k (client σ') = buffer k (client σ) ++ pick k r) ∧
       threads σ'
       = threads σ ++ TAdd r AReturn
         :: (if bool_decide
                  (Config.BatchSize (config (client σ))
                   ≤ Z.of_nat (length (buffer (kind_of r) (client σ'))))
             then [TFlush FLock] else []) ∧
       sends (events σ') = sends (events σ)) ∧
  (Forall append_only sch →
   (∀ k, Z.of_nat (length (calls k sch))
         < Config.BatchSize (config (client σ))) →
   sends (events σ) = [] ∧
   (∀ t s, EvSwap t s ∉ events σ) ∧
   (∀ t th, threads σ !! t = Some th → flush_pc th = None) ∧
   (∀ k, buffer k (client σ) = appended k (events σ)) ∧
   (∀ k, (length (buffer k (client σ)) ≤ length (calls k sch))%nat) ∧
   (returned σ → ∀ k, buffer k (client σ) ≡ₚ calls k sch)) ∧
  (∀ k ops rs op r env,
     Forall2 (λ op r, op_rec op = Some r) ops rs → op_rec op = Some r →
     Forall (λ r, kind_of r = k) (rs ++ [r]) →
     Z.of_nat (length (buffer k (client σ)) + length rs + 1)
       = Config.BatchSize (config (client σ)) →
     panicked σ = false → bufferMu (client σ) = None →
     let t := (length (threads σ) + length ops)%nat in
     let snap := snapshot_of (appends (rs ++ [r]) (client σ)) in
     let ds := (λ x, send (client σ) x.1 x.2 env) <$> routes snap in
     ∃ σ',
       run (one_by_one (length (threads σ)) env (ops ++ [op])
            ++ steps (S t) (7 + length (jobs snap)) env) σ = Some σ' ∧
       (∀ k', buffer k' (client σ') = []) ∧
       held k snap = buffer k (client σ) ++ rs ++ [r] ∧
       sends (events σ') = sends (events σ) ++ ds ∧
       Z.of_nat (length (attempts k ds))
       = if decide (k = KJob) then Config.BatchSize (config (client σ))
         else 1).
Proof.
  intros H0 Hrun.
  assert (reachable σ) as Hr by by exists σ0, sch.
  pose proof (reachable_BatchSize _ Hr) as Hpos.
  split; [|split; [|split]].
  - intros t r pc env σ' Hth Hstep.
    pose proof (lookup_lt_Some _ _ _ Hth) as Hlt.
    destruct (step_inv _ _ _ Hstep) as [Hp _].
    unfold step in Hstep. rewrite Hp, Hth in Hstep. simpl in Hstep.
    destruct pc as [| |b|b|]; simpl in Hstep.
    + unfold Lock in Hstep.
      destruct (bufferMu (client σ)) eqn:Hmu; simplify_eq/=.
      split; [done|]. split; [by apply commit_lookup_self|]. by intros [].
    + destruct (append r (client σ)) as [c' b] eqn:Happ. simplify_eq/=.
      pose proof (append_spec _ _ _ _ Happ) as (_&_&_&_&_&Hbuf&Hb).
      split; [done|]. split; [done|].
      rewrite commit_lookup_self by done. do 3 f_equal.
      rewrite Hb. unfold reached.
      destruct (Z.leb_spec (Config.BatchSize (config (client σ)))
                  (Z.of_nat (length (buffer (kind_of r) c')))).
      * by rewrite bool_decide_eq_true_2.
      * rewrite bool_decide_eq_false_2; [done|lia].
    + simplify_eq/=. split; [by apply commit_lookup_self|].
      split; [done|]. by intros [].
    + destruct b; simplify_eq/=; by rewrite ?app_nil_r.
    + done.
  - intros op r env Hop Hp Hmu. exists (after_add r σ).
    split; [by apply run_add|].
    unfold after_add. destruct (append r (client σ)) as [c' b] eqn:Happ.
    pose proof (append_spec _ _ _ _ Happ) as (_&_&_&_&_&Hbuf&Hb).
    simpl. split; [done|]. split.
    + do 2 f_equal. rewrite Hb. unfold reached.
      destruct (Z.leb_spec (Config.BatchSize (config (client σ)))
                  (Z.of_nat (length (buffer (kind_of r) c')))).
      * by rewrite bool_decide_eq_true_2.
      * rewrite bool_decide_eq_false_2; [done|lia].
    + rewrite sends_app. destruct b; simpl; by rewrite app_nil_r.
  - intros Hall HB.
    destruct (quiet_run _ _ _ H0 Hrun Hall HB)
      as (Hctx & Htick & Hths & Hevs & Hadds & Hbuf).
    split; [by apply sends_appends|].
    split; [intros t s [? [? ?]]%Hevs; done|].
    split; [intros t th Hq%Hths; by destruct th as [|?|[]|[]]|].
    split; [|split].
    + intros k. rewrite (reachable_conserved _ Hr k).
      by rewrite swapped_appends.
    + intros k. rewrite (Permutation_length (Hbuf k)), <-Hadds.
      clear. unfold landed, adds.
      induction (threads σ) as [|th ths IH]; [done|].
      rewrite !bind_cons, !length_app.
      pose proof (landed_le_adds k th). lia.
    + intros Hret k. rewrite (Hbuf k), <-Hadds.
      by rewrite landed_returned.
  - intros k ops rs op r env Hops Hop Hk HB Hp Hmu t snap ds.
    apply Forall_app in Hk as [Hk Hkr]. rewrite Forall_singleton in Hkr.
    assert (Z.of_nat (length (buffer k (client σ)) + length rs)
            < Config.BatchSize (config (client σ))) as Hlt by lia.
    pose proof (run_adds env k ops rs σ Hops Hk Hlt Hp Hmu) as Hadds.
    pose proof (reachable_run _ _ _ Hr Hadds) as Hr1.
    destruct (appends_spec rs (client σ)) as (Hcfg & Hmu1 & Hctx1 & Hbuf1).
    assert (length (threads (after_adds rs σ)) = t) as Hlen.
    { unfold t. simpl. rewrite length_app, length_fmap.
      by rewrite (Forall2_length _ _ _ Hops). }
    destruct (run_add_flush env (after_adds rs σ) op r Hr1 Hop)
      as (σ' & Hrun' & Hev & Hheld & Hempty); [done|simpl; congruence| |].
    { simpl. rewrite Hcfg, Hkr, Hbuf1, length_app, (pick_same _ _ Hk). lia. }
    rewrite Hlen in Hrun'. simpl client in Hrun', Hev, Hheld.
    rewrite <-appends_snoc in Hrun', Hev, Hheld.
    exists σ'. split; [|split; [done|split; [|split]]].
    + rewrite one_by_one_app, <-app_assoc, run_app, Hadds.
      cbn [one_by_one mbind option_bind]. rewrite app_nil_r. exact Hrun'.
    + unfold snap. rewrite (Hheld k), Hbuf1, (pick_same _ _ Hk), Hkr.
      by rewrite decide_True, <-app_assoc.
    + unfold ds, snap. rewrite Hev, !sends_app. simpl events. rewrite sends_app.
      rewrite sends_imap_append, app_nil_r. simpl sends at 2.
      rewrite sends_sent. f_equal. apply list_fmap_ext.
      intros _ [ep p] _. simpl. apply send_frame; [done|done].
    + subst ds. rewrite attempts_routes.
      assert (held k snap = buffer k (client σ) ++ rs ++ [r]) as Hh.
      { unfold snap. rewrite (Hheld k), Hbuf1, (pick_same _ _ Hk), Hkr.
        by rewrite decide_True, <-app_assoc. }
      assert (length (held k snap)
              = Z.to_nat (Config.BatchSize (config (client σ)))) as Hn.
      { rewrite Hh, !length_app. simpl. lia. }
      unfold nonempty. destruct k; simpl in Hn |- *.
      1-3: rewrite bool_decide_eq_true_2; [done|rewrite Hn; lia].
      rewrite length_fmap in Hn. lia.
Qed.

Lemma append_buffers_and_flushes_at_batch_size_witness :
  (initial demo_new ∧ run sched_mid demo_new = Some demo_mid ∧
   ∃ σ', step (ARun 1 ok200) demo_mid = Some σ' ∧
     (∀ k, buffer k (client σ')
           = buffer k (client demo_mid) ++ pick k (RLog (demo_log "a"))) ∧
     events σ' = events demo_mid ++ [EvAppend 1 (RLog (demo_log "a"))]) ∧
  (run sched_one demo_new = Some demo_one ∧
   Forall append_only sched_one ∧ returned demo_one ∧
   (∀ k, Z.of_nat (length (calls k sched_one))
         < Config.BatchSize (config (client demo_one))) ∧
   sends (events demo_one) = [] ∧
   (∀ k, buffer k (client demo_one) ≡ₚ calls k sched_one) ∧
   ∃ σ',
     run (one_by_one 2 ok200 [OpAddLog (demo_log "b")]
          ++ steps 3 7 ok200) demo_one = Some σ' ∧
     (∀ k, buffer k (client σ') = []) ∧
     length (attempts KLog (sends (events σ'))) = 1%nat).
Proof.
  assert (initial demo_new) as H0.
  { exists (λ _, ""), demo_cfg2. vm_compute; reflexivity. }
  assert (run sched_mid demo_new = Some demo_mid) as Hmid
    by (vm_compute; reflexivity).
  assert (run sched_one demo_new = Some demo_one) as Hone
    by (vm_compute; reflexivity).
  split.
  - split; [exact H0|]. split; [exact Hmid|].
    destruct (append_buffers_and_flushes_at_batch_size _ _ _ H0 Hmid)
      as (H & _).
    assert (step (ARun 1 ok200) demo_mid
            = Some (default dead (step (ARun 1 ok200) demo_mid))) as Hstep
      by (vm_compute; reflexivity).
    destruct (H 1%nat (RLog (demo_log "a")) AAppend ok200 _ eq_refl Hstep)
      as (Hbuf & Hev & _).
    eexists. split; [exact Hstep|]. split; [exact Hbuf|exact Hev].
  - assert (Forall append_only sched_one) as Hall.
    { repeat constructor. simpl. eauto. }
    assert (returned demo_one) as Hret.
    { intros [|[|[|t]]] r pc H; vm_compute in H; by simplify_eq. }
    assert (∀ k, Z.of_nat (length (calls k sched_one))
                 < Config.BatchSize (config (client demo_one))) as HB.
    { intros []; vm_compute; reflexivity. }
    split; [exact Hone|]. split; [exact Hall|]. split; [exact Hret|].
    split; [exact HB|].
    destruct (append_buffers_and_flushes_at_batch_size _ _ _ H0 Hone)
      as (_ & _ & H3 & H4).
    destruct (H3 Hall HB) as (Hs & _ & _ & _ & _ & Hperm).
    split; [exact Hs|]. split; [exact (Hperm Hret)|].
    destruct (H4 KLog [] [] (OpAddLog (demo_log "b")) (RLog (demo_log "b"))
                ok200)
      as (σ' & Hrun & Hempty & _ & Hsends & Hn).
    + constructor.
    + reflexivity.
    + repeat constructor.
    + vm_compute; reflexivity.
    + vm_compute; reflexivity.
    + vm_compute; reflexivity.
    + exists σ'. split; [exact Hrun|]. split; [exact Hempty|].
      rewrite Hsends, Hs. apply Nat2Z.inj. exact Hn.
Defined.

(** The jobs of a batch go out one request each: on a client with batch
    size 2, two calls of [LogJob] and the flush the second starts make
    two calls of [send] for the path of jobs, not one. *)
Lemma LogJob_batch_is_posted_job_by_job :
  Config.BatchSize (config (client demo_new)) = 2 ∧
  run sched_jobs demo_new = Some demo_jobs ∧
  buffer KJob (client demo_jobs) = [] ∧
  length (attempts KJob (sends (events demo_jobs))) = 2%nat ∧
  ¬ length (attempts KJob (sends (events demo_jobs))) = 1%nat.
Proof. vm_compute. repeat split; discriminate. Qed.

(** * Further properties of the client *)

(** ** The mutex *)

(** X1.  [bufferMu] is a mutex: in every state a freshly constructed
    client can get into, the mutex is held exactly when some thread is
    between its [Lock] and its [Unlock], in an append or in the swap of a
    flush, that thread is the holder, and no two threads are there at
    once. *)
Theorem bufferMu_excludes σ :
  reachable σ →
  (∀ t, bufferMu (client σ) = Some t →
        ∃ th, threads σ !! t = Some th ∧ critical th = true) ∧
  (∀ t1 t2 th1 th2,
     threads σ !! t1 = Some th1 → threads σ !! t2 = Some th2 →
     critical th1 = true → critical th2 = true →
     t1 = t2 ∧ bufferMu (client σ) = Some t1).
Proof.
  intros Hr. destruct (reachable_lock _ Hr) as [H1 H2]. split; [done|].
  intros t1 t2 th1 th2 Ht1 Ht2 Hc1 Hc2.
  pose proof (H2 _ _ Ht1 Hc1) as E1. pose proof (H2 _ _ Ht2 Hc2) as E2.
  split; [congruence|done].
Qed.

Lemma bufferMu_excludes_witness :
  reachable demo_mid ∧ bufferMu (client demo_mid) = Some 1%nat ∧
  ∃ th, threads demo_mid !! 1%nat = Some th ∧ critical th = true.
Proof.
  assert (reachable demo_mid) as Hr.
  { exists demo_new, sched_mid. split; [|vm_compute; reflexivity].
    exists (λ _, ""), demo_cfg2. vm_compute; reflexivity. }
  split; [exact Hr|]. split; [reflexivity|].
  exact (proj1 (bufferMu_excludes demo_mid Hr) 1%nat eq_refl).
Defined.

(** ** Shutdown *)

(** X2.  Nothing that [Close] sends reaches the wire: every call of
    [send] made by a call of [Close] fails before a request is written,
    so when [Close] has returned, it has returned an error if there was
    anything in the buffers at its swap, and [nil] only if there was
    nothing. *)
Theorem Close_delivers_nothing σ t pc :
  reachable σ → threads σ !! t = Some (TClose pc) →
  (∀ d, d ∈ sends_of t (events σ) → wire d = None ∧ is_Some (result d)) ∧
  (∀ err, pc = CFlush (FReturn err) →
     ∃ snap, swaps_of t (events σ) = [snap] ∧
       called <$> sends_of t (events σ) = routes snap ∧
       (routes snap = [] → err = None) ∧
       (routes snap ≠ [] → is_Some err)).
Proof.
  intros Hr Hth.
  split; [intros d Hd; exact (reachable_close_sends _ Hr t pc d Hth Hd)|].
  intros err ->.
  pose proof (reachable_oneshot _ Hr _ _ Hth eq_refl) as H. simpl in H.
  destruct H as (s & ds & Hc & Hsw & Hds).
  destruct (reachable_flush _ Hr _ _ _ Hth eq_refl)
    as (s' & ds' & Hc' & Hcalled & Herr).
  rewrite Hc in Hc'. injection Hc' as <- <-.
  exists s. rewrite Hds. split; [done|]. split; [done|]. split.
  - intros Hnil. rewrite Hnil in Hcalled. apply fmap_nil_inv in Hcalled.
    by rewrite Herr, Hcalled.
  - intros Hne. destruct ds as [|d ds _] using rev_ind; [done|].
    rewrite Herr, last_error_snoc.
    destruct (reachable_close_sends _ Hr t _ d Hth) as [_ [e He]].
    + rewrite Hds. apply elem_of_app. right. by left.
    + rewrite He. eauto.
Qed.

Lemma Close_delivers_nothing_witness :
  reachable demo_close ∧
  threads demo_close !! 2%nat
  = Some (TClose (CFlush (FReturn
            (Some "failed to send request: context canceled")))) ∧
  (∀ d, d ∈ sends_of 2 (events demo_close) →
        wire d = None ∧ is_Some (result d)) ∧
  ∃ snap, swaps_of 2 (events demo_close) = [snap] ∧
          called <$> sends_of 2 (events demo_close) = routes snap.
Proof.
  assert (reachable demo_close) as Hr.
  { exists demo_new, sched_close. split; [|vm_compute; reflexivity].
    exists (λ _, ""), demo_cfg2. vm_compute; reflexivity. }
  split; [exact Hr|]. split; [reflexivity|].
  destruct (Close_delivers_nothing demo_close 2 _ Hr eq_refl) as [Hw H].
  split; [exact Hw|].
  destruct (H _ eq_refl) as (snap & Hsw & Hcalled & _).
  exists snap. split; [exact Hsw|exact Hcalled].
Defined.

(** ** Progress *)



Lemma swaps_of_others t evs :
  (∀ e, e ∈ evs → ev_tid e ≠ t) → swaps_of t evs = [].
Proof.
  induction evs as [|e evs IH]; intros H; [done|].
  change (e :: evs) with ([e] ++ evs). rewrite swaps_of_app, IH.
  - assert (ev_tid e ≠ t) by (apply H; left).
    destruct e; simpl in *; try done. by rewrite decide_False.
  - intros e' He'. apply H. by right.
Qed.

Lemma reachable_add_silent σ :
  reachable σ →
  ∀ t r pc, threads σ !! t = Some (TAdd r pc) →
    sends_of t (events σ) = [] ∧ swaps_of t (events σ) = [].
Proof.
  revert σ.
  apply (reachable_ind (λ σ, ∀ t r pc,
           threads σ !! t = Some (TAdd r pc) →
           sends_of t (events σ) = [] ∧ swaps_of t (events σ) = [])).
  - by intros σ (cfg & _ & ->)%initial_inv t r pc _.
  - intros a σ σ' Hr IH Hstep t r pc Hth.
    pose proof (reachable_bounded _ Hr) as Hb.
    destruct (step_inv _ _ _ Hstep) as [Hp Hcases].
    destruct Hcases as [(op & -> & ->)|[(-> & _ & ->)|[->|
      (tid & th & th' & c' & tick' & evs & out & forks & Htid & Hm & ->)]]];
      simpl in *.
    + apply call_lookup in Hth as [Hth|[-> _]]; [by eapply IH|].
      split; [apply sends_of_other|apply swaps_of_others];
        intros e He%Hb; lia.
    + by eapply IH.
    + by eapply IH.
    + pose proof (lookup_lt_Some _ _ _ Htid) as Hlt.
      rewrite sends_of_app, swaps_of_app.
      apply commit_lookup in Hth; [|done].
      destruct Hth as [[-> <-]|[[Hne Hth]|[Hge Hf]]].
      * pose proof (Move_role _ _ _ _ _ _ _ _ _ _ _ Hm) as Hrole.
        destruct th as [r0 pc0| | |]; try done.
        destruct (IH _ _ _ Htid) as [-> ->].
        inversion Hm; subst; [|simplify_eq/=].
        match goal with
        | H : add_step _ _ _ _ _ = _ |- _ => apply add_step_inv in H as [_ Hs]
        end.
        destruct Hs as [(_&_&_&_&->&_)|[(b&_&_&_&->&_)|[(b&_&_&_&->&_)
                       |[(_&_&_&->&_)|(_&_&_&->&_)]]]]; done.
      * destruct (IH _ _ _ Hth) as [-> ->].
        pose proof (Move_events_tid _ _ _ _ _ _ _ _ _ _ _ Hm) as Hev.
        rewrite sends_of_other, swaps_of_others; [done| |].
        -- intros e He%Hev. congruence.
        -- intros e He%Hev. congruence.
      * pose proof (Move_forks _ _ _ _ _ _ _ _ _ _ _ Hm) as Hf'.
        destruct Hf' as [->|(->&_)]; [done|].
        apply list_elem_of_lookup_2, list_elem_of_singleton in Hf. done.
Qed.

(** X4.  An append never touches the network and cannot get stuck: in
    every state a freshly constructed client can get into, a thread
    inside [addLog], [addSpan], [addMetric] or [LogJob] has made no swap
    and no call of [send], and while the process is alive it can run to
    its return; the only thing it may have to wait for is the holder of
    the mutex. *)
Theorem append_never_sends_and_returns σ t r pc :
  reachable σ → threads σ !! t = Some (TAdd r pc) →
  sends_of t (events σ) = [] ∧ swaps_of t (events σ) = [] ∧
  (panicked σ = false →
   ∃ σ', reaches σ σ' ∧ threads σ' !! t = Some (TAdd r AReturn) ∧
         sends_of t (events σ') = []).
Proof.
  intros Hr Hth. destruct (reachable_add_silent _ Hr _ _ _ Hth) as [H1 H2].
  split; [done|]. split; [done|]. intros Hp.
  destruct (add_completes σ t r pc Hr Hp Hth) as (σ' & Hre & Hth').
  exists σ'. split; [done|]. split; [done|].
  by destruct (reachable_add_silent _ (reaches_reachable _ _ Hr Hre)
                 _ _ _ Hth').
Qed.

Lemma append_never_sends_and_returns_witness :
  reachable demo_mid ∧ panicked demo_mid = false ∧
  sends_of 1 (events demo_mid) = [] ∧
  ∃ σ', reaches demo_mid σ' ∧
        threads σ' !! 1%nat = Some (TAdd (RLog (demo_log "a")) AReturn).
Proof.
  assert (reachable demo_mid) as Hr.
  { exists demo_new, sched_mid. split; [|vm_compute; reflexivity].
    exists (λ _, ""), demo_cfg2. vm_compute; reflexivity. }
  split; [exact Hr|]. split; [reflexivity|].
  destruct (append_never_sends_and_returns demo_mid 1 _ _ Hr eq_refl)
    as (Hs & _ & H).
  split; [exact Hs|].
  destruct (H eq_refl) as (σ' & Hre & Hth & _).
  exists σ'. split; [exact Hre|exact Hth].
Defined.

(** ** The worker *)

Lemma Move_tick me child c tick th th' c' tick' evs out forks :
  Move me child c tick th th' c' tick' evs out forks →
  tick' = tick ∨ ∃ pc, th = TWorker pc.
Proof. destruct 1; eauto. Qed.

Lemma worker_lookup σ :
  reachable σ → ∃ pc, threads σ !! 0%nat = Some (TWorker pc).
Proof. intros Hr. destruct (reachable_worker _ Hr) as [(pc & H & _) _]. eauto. Qed.

Lemma reachable_worker_done σ :
  reachable σ → threads σ !! 0%nat = Some (TWorker WDone) →
  ctx (client σ) = true ∧ tickerC σ = None.
Proof.
  revert σ.
  apply (reachable_ind (λ σ, threads σ !! 0%nat = Some (TWorker WDone) →
                             ctx (client σ) = true ∧ tickerC σ = None)).
  - by intros σ (cfg & _ & ->)%initial_inv H.
  - intros a σ σ' Hr IH Hstep Hw.
    destruct (worker_lookup _ Hr) as (wpc & Hw0).
    destruct (reachable_worker _ Hr) as [_ Honly].
    destruct (step_inv _ _ _ Hstep) as [Hp Hcases].
    destruct Hcases as [(op & -> & ->)|[(-> & Hsome & ->)|[->|
      (tid & th & th' & c' & tick' & evs & out & forks & Htid & Hm & ->)]]];
      simpl in *.
    + rewrite lookup_app_l in Hw by (apply lookup_lt_Some in Hw0; done).
      by apply IH.
    + destruct (IH Hw) as [_ Hn]. rewrite Hn in Hsome. by destruct Hsome.
    + by apply IH.
    + pose proof (lookup_lt_Some _ _ _ Htid) as Hlt.
      apply commit_lookup in Hw; [|done].
      destruct Hw as [[<- <-]|[[Hne Hw]|[Hge Hf]]].
      * inversion Hm; subst; try done.
        destruct th as [| |[]|]; simplify_eq/=.
      * destruct (IH Hw) as [Hc Ht].
        split.
        -- destruct (Move_ctx _ _ _ _ _ _ _ _ _ _ _ Hm) as [->|[_ ->]]; done.
        -- destruct (Move_tick _ _ _ _ _ _ _ _ _ _ _ Hm) as [->|[pc ->]];
             [done|].
           pose proof (Honly _ _ Htid). congruence.
      * apply lookup_lt_Some in Hw0. lia.
Qed.

(** X5.  The worker returns when the context is cancelled and only then:
    in every state a freshly constructed client can get into, if the
    worker has returned then [cancel] has been called, its ticker is
    stopped and the wait group is at zero; and once the context is
    cancelled, with a positive flush interval and while the process is
    alive, the worker can run to its return, after finishing the flush
    it may be in. *)
Theorem flushWorker_returns_on_cancel σ :
  reachable σ →
  (threads σ !! 0%nat = Some (TWorker WDone) →
   ctx (client σ) = true ∧ tickerC σ = None ∧ wg (client σ) = 0%nat) ∧
  (panicked σ = false → 0 < Config.FlushInterval (config (client σ)) →
   ctx (client σ) = true →
   ∀ env : Env, ∃ σ',
     reaches σ σ' ∧ threads σ' !! 0%nat = Some (TWorker WDone) ∧
     wg (client σ') = 0%nat).
Proof.
  intros Hr. split.
  - intros Hw. destruct (reachable_worker_done _ Hr Hw) as [H1 H2].
    destruct (reachable_worker _ Hr) as [(pc & Hw' & Hwg) _].
    rewrite Hw in Hw'. injection Hw' as <-. done.
  - intros Hp Hint Hctx env.
    destruct (worker_returns env σ Hr Hp Hint Hctx) as (σ' & Hl & Hw & Hwg).
    exists σ'. split; [by eapply leads_reaches|done].
Qed.

Lemma flushWorker_returns_on_cancel_witness :
  reachable demo_close ∧
  threads demo_close !! 0%nat = Some (TWorker WDone) ∧
  ctx (client demo_close) = true ∧ tickerC demo_close = None ∧
  wg (client demo_close) = 0%nat.
Proof.
  assert (reachable demo_close) as Hr.
  { exists demo_new, sched_close. split; [|vm_compute; reflexivity].
    exists (λ _, ""), demo_cfg2. vm_compute; reflexivity. }
  split; [exact Hr|]. split; [reflexivity|].
  exact (proj1 (flushWorker_returns_on_cancel demo_close Hr) eq_refl).
Defined.

(** ** Edges of the configuration *)


Lemma reachable_negative_interval σ :
  reachable σ → Config.FlushInterval (config (client σ)) < 0 →
  threads σ !! 0%nat = Some (TWorker WTicker) ∧ tickerC σ = None.
Proof.
  revert σ.
  apply (reachable_ind (λ σ,
           Config.FlushInterval (config (client σ)) < 0 →
           threads σ !! 0%nat = Some (TWorker WTicker) ∧ tickerC σ = None)).
  - by intros σ (cfg & _ & ->)%initial_inv H.
  - intros a σ σ' Hr IH Hstep Hneg.
    rewrite (step_config _ _ _ Hstep) in Hneg.
    destruct (IH Hneg) as [Hw Ht].
    destruct (reachable_worker _ Hr) as [_ Honly].
    destruct (step_inv _ _ _ Hstep) as [Hp Hcases].
    destruct Hcases as [(op & -> & ->)|[(-> & Hsome & ->)|[->|
      (tid & th & th' & c' & tick' & evs & out & forks & Htid & Hm & ->)]]];
      simpl in *.
    + split; [|done]. rewrite lookup_app_l; [done|].
      by apply lookup_lt_Some in Hw.
    + rewrite Ht in Hsome. by destruct Hsome.
    + done.
    + pose proof (lookup_lt_Some _ _ _ Htid) as Hlt.
      destruct (decide (tid = 0%nat)) as [->|Hne].
      * rewrite Hw in Htid. injection Htid as <-.
        inversion Hm; subst; simplify_eq/=. lia.
      * rewrite commit_lookup_other by (done || by apply lookup_lt_Some in Hw).
        split; [done|].
        destruct (Move_tick _ _ _ _ _ _ _ _ _ _ _ Hm) as [->|[pc ->]];
          [done|].
        pose proof (Honly _ _ Htid). done.
Qed.

(** X7.  A negative flush interval is fatal.  [New] accepts it; the
    worker then panics in [time.NewTicker] the first time it runs, and
    the process with it.  Until then the worker has not started its
    ticker, so no flush is ever driven by the timer, and a call of
    [Close] never gets past [c.wg.Wait()]. *)
Theorem negative_FlushInterval_is_fatal σ :
  reachable σ → Config.FlushInterval (config (client σ)) < 0 →
  threads σ !! 0%nat = Some (TWorker WTicker) ∧ tickerC σ = None ∧
  (∀ t pc, threads σ !! t = Some (TClose pc) → pc = CCancel ∨ pc = CWait) ∧
  step ATick σ = None ∧
  (panicked σ = false →
   ∀ env, step (ARun 0 env) σ = Some (panic σ) ∧
          ∀ a, step a (panic σ) = None).
Proof.
  intros Hr Hneg.
  destruct (reachable_negative_interval _ Hr Hneg) as [Hw Ht].
  split; [done|]. split; [done|]. split; [|split].
  - intros t pc Hth. destruct pc as [| |f]; auto.
    pose proof (reachable_waited _ Hr _ _ Hth) as Hwg.
    destruct (reachable_worker _ Hr) as [(wpc & Hw' & Hwg') _].
    rewrite Hw in Hw'. injection Hw' as <-. congruence.
  - unfold step. rewrite Ht. by destruct (panicked σ).
  - intros Hp env. split; [|done].
    unfold step. rewrite Hp, Hw. simpl.
    destruct (Z.leb_spec (Config.FlushInterval (config (client σ))) 0);
      [done|lia].
Qed.

Lemma negative_FlushInterval_is_fatal_witness :
  reachable demo_neg ∧
  Config.FlushInterval (config (client demo_neg)) < 0 ∧
  panicked demo_neg = false ∧
  step (ARun 0 ok200) demo_neg = Some (panic demo_neg).
Proof.
  assert (reachable demo_neg) as Hr.
  { apply reachable_initial.
    exists (λ _, ""), demo_cfg_neg. vm_compute; reflexivity. }
  assert (Config.FlushInterval (config (client demo_neg)) < 0) as Hneg
    by (vm_compute; reflexivity).
  split; [exact Hr|]. split; [exact Hneg|]. split; [reflexivity|].
  destruct (negative_FlushInterval_is_fatal demo_neg Hr Hneg)
    as (_ & _ & _ & _ & H).
  exact (proj1 (H eq_refl ok200)).
Defined.

(** ** Diagnostics *)







(** * Properties of the event builders *)

(** ** Tags *)

Lemma merge_lookup {V} (tags : list (gmap string V)) acc k v :
  foldl (λ result t, t ∪ result) acc tags !! k = Some v ↔
  (∃ i t, tags !! i = Some t ∧ t !! k = Some v ∧
          ∀ j t', (i < j)%nat → tags !! j = Some t' → t' !! k = None) ∨
  (acc !! k = Some v ∧ ∀ j t', tags !! j = Some t' → t' !! k = None).
Proof.
  revert acc. induction tags as [|t tags IH]; intros acc; simpl.
  - split; [by right|]. intros [(i & t & H & _)|[H _]]; done.
  - rewrite IH, lookup_union_Some_raw. split.
    + intros [(i & t0 & Hi & Hk & Hlast)|[[Ht|[Ht Hacc]] Hnone]].
      * left. exists (S i), t0. split; [done|]. split; [done|].
        intros [|j] t' Hj Ht'; [lia|]. apply (Hlast j); [lia|done].
      * left. exists 0%nat, t. split; [done|]. split; [done|].
        intros [|j] t' Hj Ht'; [lia|]. by apply (Hnone j).
      * right. split; [done|]. intros [|j] t' Ht'; simplify_eq/=; [done|].
        by apply (Hnone j).
    + intros [(i & t0 & Hi & Hk & Hlast)|[Hacc Hnone]].
      * destruct i as [|i]; simplify_eq/=.
        -- right. split; [by left|]. intros j t' Ht'.
           apply (Hlast (S j)); [lia|done].
        -- left. exists i, t0. split; [done|]. split; [done|].
           intros j t' Hj Ht'. apply (Hlast (S j)); [lia|done].
      * right. split.
        -- right. split; [|done]. by apply (Hnone 0%nat).
        -- intros j t' Ht'. by apply (Hnone (S j)).
Qed.

(** X9.  [mergeTags] and [mergeTags2] return the nil map exactly when
    they are passed no map; otherwise the map they return has, under a
    key, the value of the last of the maps passed that has the key, and
    no other key. *)
Theorem mergeTags_last_wins {V} (tags : list (gmap string V)) :
  (mergeTags tags = None ↔ tags = []) ∧
  ∀ m, mergeTags tags = Some m →
    ∀ k v, m !! k = Some v ↔
      ∃ i t, tags !! i = Some t ∧ t !! k = Some v ∧
             ∀ j t', (i < j)%nat → tags !! j = Some t' → t' !! k = None.
Proof.
  unfold mergeTags. split.
  - case_bool_decide as H; [|by destruct tags].
    split; [|done]. intros _. by apply length_zero_iff_nil.
  - intros m Hm k v. case_bool_decide; simplify_eq.
    rewrite merge_lookup. split; [|by left].
    intros [Hl|[Hl _]]; [done|]. by rewrite lookup_empty in Hl.
Qed.

Lemma mergeTags_last_wins_witness :
  ∃ m, mergeTags2 [{["env" := "dev"; "zone" := "a"]}; {["env" := "prod"]}]
       = Some m ∧
       m !! "env" = Some "prod" ∧ m !! "zone" = Some "a".
Proof.
  eexists. split; [reflexivity|].
  pose proof (proj2 (mergeTags_last_wins
    [{["env" := "dev"; "zone" := "a"]}; {["env" := "prod"]}
     : gmap string string]) _ eq_refl) as H.
  split.
  - apply H. exists 1%nat, {["env" := "prod"]}.
    split; [reflexivity|]. split; [reflexivity|].
    intros [|[|j]] t' Hj Ht'; try lia; done.
  - apply H. exists 0%nat, {["env" := "dev"; "zone" := "a"]}.
    split; [reflexivity|]. split; [reflexivity|].
    intros [|[|j]] t' Hj Ht'; try lia; [|done].
    injection Ht' as <-. reflexivity.
Defined.

(** ** Logging from a request *)

Lemma log_by_level_known c now level msg tags :
  level ∈ [LogLevelDebug; LogLevelInfo; LogLevelWarn; LogLevelError;
           LogLevelFatal] →
  log_by_level c now level msg tags
  = [Logger.log c now level msg (mergeTags tags)].
Proof.
  intros H. repeat (apply elem_of_cons in H as [->|H]); try done.
  by apply elem_of_nil in H.
Qed.

Lemma log_by_level_unknown c now level msg tags :
  level ∉ [LogLevelDebug; LogLevelInfo; LogLevelWarn; LogLevelError;
           LogLevelFatal] →
  log_by_level c now level msg tags = [].
Proof.
  intros H. unfold log_by_level.
  repeat case_bool_decide; try done; subst; exfalso; apply H;
    set_solver.
Qed.

(** X10.  [LogFromRequest] and [LogFromFiber] log in the trace of the
    request when there is a span to be found: one entry, at whatever
    level was asked for, with the span's trace and span ids and a tag map
    that is never nil.  With no span they fall back on the logger's
    method for the level: one entry with no trace ids when the level is
    one of the five the package defines, and nothing at all, silently,
    for any other level. *)
Theorem LogFromRequest_needs_a_span_or_a_known_level
    c now level msg tags found :
  let known := [LogLevelDebug; LogLevelInfo; LogLevelWarn; LogLevelError;
                LogLevelFatal] in
  let with_span span :=
    [OpAddLog (LogEntry.mk now level msg (Config.ServiceName (config c))
                 (Span.TraceID span) (Span.SpanID span)
                 (default ∅ (mergeTags tags)) "")] in
  let without :=
    if bool_decide (level ∈ known)
    then [OpAddLog (LogEntry.mk now level msg
                      (Config.ServiceName (config c)) "" ""
                      (default ∅ (mergeTags tags)) "")]
    else [] in
  (∀ ctx, SpanFromContext ctx = found →
     LogFromRequest ctx c now level msg tags
     = match found with Some span => with_span span | None => without end) ∧
  (∀ fc, GetSpanFromFiber fc = found →
     LogFromFiber fc c now level msg tags
     = match found with Some span => with_span span | None => without end).
Proof.
  intros known with_span without.
  assert (log_by_level c now level msg tags = without) as Hw.
  { unfold without. case_bool_decide as Hk.
    - by rewrite log_by_level_known.
    - by rewrite log_by_level_unknown. }
  split.
  - intros ctx Hf. unfold LogFromRequest. rewrite Hf.
    destruct found as [span|]; [|done].
    unfold Logger.WithContext, with_span. by destruct (mergeTags tags).
  - intros fc Hf. unfold LogFromFiber. rewrite Hf.
    destruct found as [span|]; [|done].
    unfold Logger.WithContext, with_span. by destruct (mergeTags tags).
Qed.

Lemma LogFromRequest_needs_a_span_or_a_known_level_witness :
  SpanFromContext demo_ctx = Some demo_live ∧
  SpanFromContext [CtxOther] = None ∧
  (∃ entry,
     LogFromRequest demo_ctx (client demo_new) 1700000001 "trace" "hit" []
     = [OpAddLog entry] ∧
     LogEntry.TraceID entry = "4bf92f3577b34da6a3ce929d0e0e4736") ∧
  LogFromRequest [CtxOther] (client demo_new) 1700000001 "trace" "hit" []
  = [].
Proof.
  split; [reflexivity|]. split; [reflexivity|].
  split.
  - eexists. split.
    + exact (proj1 (LogFromRequest_needs_a_span_or_a_known_level
               (client demo_new) 1700000001 "trace" "hit" []
               (Some demo_live)) demo_ctx eq_refl).
    + vm_compute. reflexivity.
  - exact (proj1 (LogFromRequest_needs_a_span_or_a_known_level
             (client demo_new) 1700000001 "trace" "hit" [] None)
             [CtxOther] eq_refl).
Defined.

(** ** Span ids *)

Lemma hexdigit_hex i :
  (i < 16)%N →
  hexdigit i ∈ String.list_ascii_of_string hextable.
Proof.
  intros H.
  assert (∀ n, (n < 16)%nat →
            hexdigit (N.of_nat n)
            ∈ String.list_ascii_of_string hextable) as Hn.
  { intros n Hlt. do 16 (destruct n as [|n]; [vm_compute; set_solver|]).
    lia. }
  rewrite <-(N2Nat.id i). apply Hn. lia.
Qed.

Lemma nibbles_lt v :
  (N.shiftr (Byte.to_N v) 4 < 16)%N ∧ (N.land (Byte.to_N v) 15 < 16)%N.
Proof. destruct v; vm_compute; done. Qed.

Lemma EncodeToString_spec src :
  String.length (EncodeToString src) = (2 * length src)%nat ∧
  Forall (λ ch, ch ∈ String.list_ascii_of_string hextable)
         (String.list_ascii_of_string (EncodeToString src)).
Proof.
  induction src as [|v src [IH1 IH2]]; [by split|].
  split; [simpl; rewrite IH1; lia|].
  cbn [EncodeToString foldr String.list_ascii_of_string].
  apply Forall_cons. split; [apply hexdigit_hex, nibbles_lt|].
  apply Forall_cons. split; [apply hexdigit_hex, nibbles_lt|done].
Qed.

(** X11.  The ids of a span are hex text of fixed length: [generateID]
    returns twice as many characters as it is asked bytes for, all of
    them among [0123456789abcdef], whatever [rand.Read] delivered, and
    encodes the bytes delivered when there are enough of them; so a span
    started without options has a trace id of 32 and a span id of 16
    such characters. *)
Theorem generateID_is_hex_text bytes rand :
  String.length (generateID bytes rand) = (2 * bytes)%nat ∧
  Forall (λ ch, ch ∈ String.list_ascii_of_string hextable)
         (String.list_ascii_of_string (generateID bytes rand)) ∧
  ((bytes ≤ length rand)%nat →
   generateID bytes rand = EncodeToString (take bytes rand)) ∧
  ∀ now traceRand spanRand name,
    let s := StartSpan now traceRand spanRand name [] in
    String.length (Span.TraceID s) = 32%nat ∧
    String.length (Span.SpanID s) = 16%nat.
Proof.
  assert (∀ n r, String.length (generateID n r) = (2 * n)%nat) as Hlen.
  { intros n r. unfold generateID.
    rewrite (proj1 (EncodeToString_spec _)), length_app, length_take,
      length_replicate. lia. }
  split; [done|]. split; [apply EncodeToString_spec|]. split.
  - intros Hle. unfold generateID.
    replace (bytes - length rand)%nat with 0%nat by lia.
    by rewrite app_nil_r.
  - intros now traceRand spanRand name. simpl. by rewrite !Hlen.
Qed.

Lemma generateID_is_hex_text_witness :
  (8 ≤ length demo_rand8)%nat ∧
  generateID 8 demo_rand8 = "00f067aa0ba902b7" ∧
  generateID 8 [] = "0000000000000000".
Proof.
  split; [vm_compute; lia|]. split; [|reflexivity].
  rewrite (proj1 (proj2 (proj2 (generateID_is_hex_text 8 demo_rand8)))).
  - reflexivity.
  - vm_compute. lia.
Defined.

(** ** Spans *)

Lemma StartSpan_snoc now tr sr name opts opt :
  StartSpan now tr sr name (opts ++ [opt])
  = opt (StartSpan now tr sr name opts).
Proof. unfold StartSpan. by rewrite foldl_app. Qed.

Lemma provided_keeps opt s :
  provided opt →
  Span.SpanID (opt s) = Span.SpanID s ∧ Span.Name (opt s) = Span.Name s ∧
  Span.StartTime (opt s) = Span.StartTime s ∧
  Span.Status (opt s) = Span.Status s ∧
  Span.StatusMsg (opt s) = Span.StatusMsg s ∧
  Span.Events (opt s) = Span.Events s.
Proof.
  intros [[[p|] ->]|[[id ->]|[[id ->]|[attrs ->]]]]; done.
Qed.

(** X12.  The options of [StartSpan] are applied in the order given, so
    the last one to set a field decides it: a span started with
    [WithParent] of a parent as its last option is in the parent's trace
    and has the parent's span id as its parent span id; [WithParent] of
    nil changes nothing; [WithTraceID] and [WithParentSpanID] last set
    the trace id and the parent span id; [WithAttributes] adds its
    entries over those already there.  None of the package's options
    touches the span id, the name, the start time, the status or the
    events: whatever options of the package are given, the span id is
    the generated one and the span starts with status ok and no
    events. *)
Theorem StartSpan_applies_options_in_order now tr sr name opts :
  let start := StartSpan now tr sr name in
  (∀ parent,
     Span.TraceID (start (opts ++ [WithParent (Some parent)]))
     = Span.TraceID parent ∧
     Span.ParentSpanID (start (opts ++ [WithParent (Some parent)]))
     = Span.SpanID parent) ∧
  start (opts ++ [WithParent None]) = start opts ∧
  (∀ traceID,
     Span.TraceID (start (opts ++ [WithTraceID traceID])) = traceID ∧
     Span.ParentSpanID (start (opts ++ [WithTraceID traceID]))
     = Span.ParentSpanID (start opts)) ∧
  (∀ parentSpanID,
     Span.ParentSpanID (start (opts ++ [WithParentSpanID parentSpanID]))
     = parentSpanID ∧
     Span.TraceID (start (opts ++ [WithParentSpanID parentSpanID]))
     = Span.TraceID (start opts)) ∧
  (∀ attrs k,
     Span.Attributes (start (opts ++ [WithAttributes attrs])) !! k
     = match attrs !! k with
       | Some v => Some v
       | None => Span.Attributes (start opts) !! k
       end) ∧
  (Forall provided opts →
   Span.SpanID (start opts) = generateID 8 sr ∧
   Span.Name (start opts) = name ∧ Span.StartTime (start opts) = now ∧
   Span.Status (start opts) = SpanStatusOK ∧
   Span.StatusMsg (start opts) = "" ∧ Span.Events (start opts) = []).
Proof.
  intros start. unfold start.
  split; [|split; [|split; [|split; [|split]]]].
  - intros parent. by rewrite StartSpan_snoc.
  - by rewrite StartSpan_snoc.
  - intros traceID. by rewrite StartSpan_snoc.
  - intros parentSpanID. by rewrite StartSpan_snoc.
  - intros attrs k. rewrite StartSpan_snoc. simpl.
    rewrite lookup_union. by destruct (attrs !! k), (_ !! k).
  - induction opts as [|opt opts IH] using rev_ind; [done|].
    intros [Hopts Hopt%Forall_inv]%Forall_app.
    rewrite StartSpan_snoc.
    destruct (provided_keeps opt (StartSpan now tr sr name opts) Hopt)
      as (-> & -> & -> & -> & -> & ->).
    by apply IH.
Qed.

Lemma StartSpan_applies_options_in_order_witness :
  Forall provided [WithTraceID "abc"; WithParent (Some demo_live)] ∧
  let s := StartSpan 1700000002 [] [] "db.query"
             [WithTraceID "abc"; WithParent (Some demo_live)] in
  Span.TraceID s = "4bf92f3577b34da6a3ce929d0e0e4736" ∧
  Span.ParentSpanID s = "00f067aa0ba902b7" ∧
  Span.SpanID s = "0000000000000000" ∧ Span.Status s = SpanStatusOK.
Proof.
  assert (Forall provided [WithTraceID "abc"; WithParent (Some demo_live)])
    as Hp.
  { constructor; [|constructor; [|constructor]].
    - right; left. by eexists.
    - left. by eexists. }
  split; [exact Hp|].
  destruct (StartSpan_applies_options_in_order 1700000002 [] [] "db.query"
              [WithTraceID "abc"]) as (H1 & _).
  destruct (StartSpan_applies_options_in_order 1700000002 [] [] "db.query"
              [WithTraceID "abc"; WithParent (Some demo_live)])
    as (_ & _ & _ & _ & _ & H6).
  destruct (H1 demo_live) as [Ht Hps].
  destruct (H6 Hp) as (Hid & _ & _ & Hst & _).
  simpl. split; [exact Ht|]. split; [exact Hps|].
  split; [exact Hid|exact Hst].
Defined.



(** ** The middlewares *)

Lemma health_spec path :
  health path = true ↔ path ∈ ["/health"; "/healthz"; "/ready"; "/readyz"].
Proof.
  unfold health. rewrite !orb_true_iff, !bool_decide_eq_true. set_solver.
Qed.

(** X14.  Both middlewares leave health checks alone: for a request whose
    path is exactly [/health], [/healthz], [/ready] or [/readyz] they
    run the next handler on the request as it came and do nothing else:
    no span, no metric, no trace header, no locals, the handler's error
    returned as it is.  Any other path, [/health/] or [/Health] say, is
    instrumented. *)
Theorem middlewares_skip_health_checks path :
  (health path = true ↔
   path ∈ ["/health"; "/healthz"; "/ready"; "/readyz"]) ∧
  (health path = true →
   (∀ c next w r, Req.Path r = path →
      HTTPMiddleware c next w r = mkServed r None (handler_calls (next r))) ∧
   (∀ cl next w c, Ctx.Path c = path →
      FiberMiddleware cl next w c
      = mkFiberServed c (next_err (next c)) (next_calls (next c)))) ∧
  (health path = false →
   (∀ c next w r, Req.Path r = path →
      is_Some (trace_header (HTTPMiddleware c next w r)) ∧
      length (made (HTTPMiddleware c next w r))
      = (length (handler_calls (next (passed (HTTPMiddleware c next w r))))
         + 3)%nat) ∧
   (∀ cl next w c, Ctx.Path c = path →
      length (fmade (FiberMiddleware cl next w c))
      = (length (next_calls (next (fpassed (FiberMiddleware cl next w c))))
         + 3)%nat)).
Proof.
  split; [apply health_spec|]. split.
  - intros Hh. split.
    + intros c next w r <-. unfold HTTPMiddleware. by rewrite Hh.
    + intros cl next w c <-. unfold FiberMiddleware. by rewrite Hh.
  - intros Hh. split.
    + intros c next w r <-. unfold HTTPMiddleware. rewrite Hh. simpl.
      split; [by eexists|]. by rewrite length_app.
    + intros cl next w c <-. unfold FiberMiddleware. rewrite Hh. simpl.
      by rewrite length_app.
Qed.

Lemma health_witness_aux (Q : Prop) : (true = true → Q) → Q.
Proof. intros H. by apply H. Qed.

Lemma middlewares_skip_health_checks_witness :
  health "/healthz" = true ∧
  HTTPMiddleware (client demo_new) demo_handler demo_readings demo_healthz
  = mkServed demo_healthz None [] ∧
  health "/users" = false ∧
  length (made (HTTPMiddleware (client demo_new) demo_handler demo_readings
                               demo_req)) = 3%nat.
Proof.
  split; [reflexivity|]. split.
  - exact (proj1 (proj1 (proj2 (middlewares_skip_health_checks "/healthz"))
                    eq_refl)
             (client demo_new) demo_handler demo_readings demo_healthz
             eq_refl).
  - split; [reflexivity|].
    exact (proj2 (proj1 (proj2 (proj2
             (middlewares_skip_health_checks "/users")) eq_refl)
             (client demo_new) demo_handler demo_readings demo_req
             eq_refl)).
Defined.

Lemma statusCode_snoc calls call :
  statusCode (calls ++ [call])
  = match call with WriteHeader c => c | Write _ => statusCode calls end.
Proof. unfold statusCode. by rewrite foldl_app. Qed.

Lemma written_snoc calls call :
  written (calls ++ [call])
  = match call with
    | WriteHeader _ => written calls
    | Write k => written calls + k
    end.
Proof. unfold written. by rewrite foldl_app. Qed.

Lemma statusCode_last calls :
  statusCode calls
  = default 200
      (last (calls ≫= λ call,
               match call with WriteHeader c => [c] | Write _ => [] end)).
Proof.
  induction calls as [|call calls IH] using rev_ind; [done|].
  rewrite statusCode_snoc, bind_app. simpl. rewrite app_nil_r.
  destruct call; simpl.
  - by rewrite last_snoc.
  - by rewrite app_nil_r.
Qed.

Lemma written_sum calls :
  written calls
  = foldr Z.add 0
      (calls ≫= λ call,
         match call with WriteHeader _ => [] | Write k => [k] end).
Proof.
  induction calls as [|call calls IH] using rev_ind; [done|].
  rewrite written_snoc, bind_app. simpl. rewrite app_nil_r.
  destruct call; simpl.
  - by rewrite app_nil_r.
  - rewrite IH. generalize (calls ≫= λ call,
         match call with WriteHeader _ => [] | Write k => [k] end).
    intros l. induction l as [|x l IHl]; simpl; [lia|].
    rewrite <-IHl. lia.
Qed.

Lemma mergeTags2_one (tags : gmap string string) :
  mergeTags2 [tags] = Some tags.
Proof.
  unfold mergeTags2, mergeTags. simpl. by rewrite (right_id_L ∅ (∪)).
Qed.

(** X15.  A request that is not a health check is traced from end to
    end under one trace id: the id in its [X-OmniPulse-Trace-ID] header
    if there is one, a freshly generated one otherwise.  The span started
    for it has this trace id, the [X-OmniPulse-Span-ID] header as its
    parent span id, "METHOD path" as its name and the method, URL, host,
    user agent and remote address as attributes; it is what the next
    handler finds in the context of its request, and its trace id is set
    as the [X-OmniPulse-Trace-ID] header of the response.  After the
    handler's own calls, the middleware makes exactly three calls on the
    client: the span, ended, with the trace id the handler left on it;
    the duration in whole milliseconds as a histogram
    [http.request.duration]; and a counter [http.request.count] of 1;
    both metrics tagged with the method, the path and the status
    code. *)
Theorem HTTPMiddleware_traces_the_request c next w r :
  health (Req.Path r) = false →
  let incoming := Req.Header r "X-OmniPulse-Trace-ID" in
  let traceID :=
    if bool_decide (incoming = "") then generateID 16 (traceRand w)
    else incoming in
  let s := HTTPMiddleware c next w r in
  let h := next (passed s) in
  let tags : gmap string string :=
    list_to_map [("method", Req.Method r); ("path", Req.Path r);
                 ("status_code", pretty (statusCode (writes h)))] in
  ∃ span sd,
    passed s = Req.WithContext (ContextWithSpan (Req.Ctx r) (Some span)) r ∧
    SpanFromContext (Req.Ctx (passed s)) = Some span ∧
    GetTraceIDFromContext (Req.Ctx (passed s)) = traceID ∧
    trace_header s = Some traceID ∧
    Span.TraceID span = traceID ∧
    Span.ParentSpanID span = Req.Header r "X-OmniPulse-Span-ID" ∧
    Span.SpanID span = generateID 8 (spanRand w) ∧
    Span.Name span = Req.Method r +:+ " " +:+ Req.Path r ∧
    Span.StartTime span = spanStart w ∧
    Span.Attributes span
    = list_to_map
        [("http.method", AnyString (Req.Method r));
         ("http.url", AnyString (Req.URL r));
         ("http.host", AnyString (Req.Host r));
         ("http.user_agent", AnyString (Req.UserAgent r));
         ("http.remote_addr", AnyString (Req.RemoteAddr r))] ∧
    made s
    = handler_calls h ++
      [OpAddSpan sd;
       OpAddMetric (MetricData.mk "http.request.duration" MetricTypeHistogram
                      (pretty (elapsed w `quot` 1000000)) (durationAt w)
                      (Config.ServiceName (config c)) tags ∅);
       OpAddMetric (MetricData.mk "http.request.count" MetricTypeCounter "1"
                      (countAt w) (Config.ServiceName (config c)) tags ∅)] ∧
    SpanData.TraceID sd = Span.TraceID (touch h span) ∧
    SpanData.SpanID sd = Span.SpanID (touch h span) ∧
    SpanData.EndTime sd = spanEnd w ∧
    (Span.TraceID (touch h span) = Span.TraceID span →
     SpanData.TraceID sd = traceID).
Proof.
  intros Hh incoming traceID s h tags.
  subst s h tags. unfold HTTPMiddleware. rewrite Hh. cbv zeta.
  cbn [passed trace_header made].
  match goal with
  | |- context [StartSpan _ _ _ _ ?o] => set (opts := o)
  end.
  set (span := StartSpan (spanStart w) (traceRand w) (spanRand w)
                 (Req.Method r +:+ " " +:+ Req.Path r) opts).
  assert (Span.TraceID span = traceID ∧
          Span.ParentSpanID span = Req.Header r "X-OmniPulse-Span-ID" ∧
          Span.SpanID span = generateID 8 (spanRand w) ∧
          Span.Name span = Req.Method r +:+ " " +:+ Req.Path r ∧
          Span.StartTime span = spanStart w ∧
          Span.Attributes span
          = list_to_map
              [("http.method", AnyString (Req.Method r));
               ("http.url", AnyString (Req.URL r));
               ("http.host", AnyString (Req.Host r));
               ("http.user_agent", AnyString (Req.UserAgent r));
               ("http.remote_addr", AnyString (Req.RemoteAddr r))])
    as (Ht & Hps & Hid & Hname & Hstart & Hattrs).
  { subst span opts traceID incoming. unfold StartSpan.
    repeat case_bool_decide; try congruence; cbn [foldl app];
      unfold WithAttributes, WithTraceID, WithParentSpanID;
      cbn [Span.TraceID Span.ParentSpanID Span.SpanID Span.Name
           Span.StartTime Span.Attributes];
      rewrite (right_id_L ∅ (∪)); repeat split; congruence. }
  clearbody span. clear opts.
  exists span. eexists.
  split; [reflexivity|]. split; [reflexivity|].
  split; [exact Ht|]. split; [by rewrite Ht|].
  split; [exact Ht|]. split; [exact Hps|]. split; [exact Hid|].
  split; [exact Hname|]. split; [exact Hstart|]. split; [exact Hattrs|].
  unfold Metrics.RecordDuration, Metrics.Increment, Metrics.Counter,
    Metrics.record. rewrite !mergeTags2_one. unfold End_.
  split; [reflexivity|].
  assert (∀ (b : bool) (x y : Span.t),
            Span.TraceID y = Span.TraceID x → Span.SpanID y = Span.SpanID x →
            Span.TraceID (if b then y else x) = Span.TraceID x ∧
            Span.SpanID (if b then y else x) = Span.SpanID x) as Hif
    by (intros [] ????; done).
  match goal with
  | |- context [End_data _ _ (if ?b then ?y else ?x)] =>
      destruct (Hif b x y eq_refl eq_refl) as [E1 E2]
  end.
  cbn [End_data SpanData.TraceID SpanData.SpanID SpanData.EndTime].
  rewrite E1, E2. cbn [SetAttribute Span.TraceID Span.SpanID].
  split; [done|]. split; [done|]. split; [done|]. by intros ->.
Qed.

Lemma HTTPMiddleware_traces_the_request_witness :
  health (Req.Path demo_req) = false ∧
  let s := HTTPMiddleware (client demo_new) demo_handler demo_readings
                          demo_req in
  trace_header s = Some "abc123" ∧
  GetTraceIDFromContext (Req.Ctx (passed s)) = "abc123" ∧
  ∃ sd m1 m2,
    made s = [OpAddSpan sd; OpAddMetric m1; OpAddMetric m2] ∧
    SpanData.TraceID sd = "abc123" ∧
    MetricData.Value m1 = "2" ∧ MetricData.Value m2 = "1".
Proof.
  split; [reflexivity|].
  destruct (HTTPMiddleware_traces_the_request (client demo_new) demo_handler
              demo_readings demo_req eq_refl)
    as (span & sd & _ & _ & Hctx & Hhdr & _ & _ & _ & _ & _ & _ & Hmade
        & _ & _ & _ & Hsame).
  split; [exact Hhdr|]. split; [exact Hctx|].
  eexists sd, _, _. split; [exact Hmade|].
  split; [exact (Hsame eq_refl)|]. split; reflexivity.
Defined.

(** X16.  The status the middleware records is the code of the last
    [WriteHeader] the handler called, 200 if it called none, and the
    response size is the sum of what its calls of [Write] wrote.  The span
    carries both as [http.status_code] and [http.response_size].  From
    400 upwards the span is marked as failed, with status [error],
    message "HTTP" and the code, and the attribute [error]; below 400
    the status, its message and the attribute [error] are as the handler
    left them. *)
Theorem HTTPMiddleware_marks_failed_requests c next w r :
  health (Req.Path r) = false →
  let s := HTTPMiddleware c next w r in
  let h := next (passed s) in
  let code :=
    default 200
      (last (writes h ≫= λ call,
               match call with WriteHeader c => [c] | Write _ => [] end)) in
  let size :=
    foldr Z.add 0
      (writes h ≫= λ call,
         match call with WriteHeader _ => [] | Write k => [k] end) in
  ∃ span sd m1 m2,
    SpanFromContext (Req.Ctx (passed s)) = Some span ∧
    made s = handler_calls h ++ [OpAddSpan sd; OpAddMetric m1; OpAddMetric m2] ∧
    SpanData.Attributes sd !! "http.status_code" = Some (AnyInt code) ∧
    SpanData.Attributes sd !! "http.response_size" = Some (AnyInt size) ∧
    MetricData.Tags m1 !! "status_code" = Some (pretty code) ∧
    MetricData.Tags m2 !! "status_code" = Some (pretty code) ∧
    (400 ≤ code →
     SpanData.Status sd = SpanStatusError ∧
     SpanData.StatusMessage sd = "HTTP " +:+ pretty code ∧
     SpanData.Attributes sd !! "error" = Some (AnyBool true)) ∧
    (code < 400 →
     SpanData.Status sd = Span.Status (touch h span) ∧
     SpanData.StatusMessage sd = Span.StatusMsg (touch h span) ∧
     SpanData.Attributes sd !! "error"
     = Span.Attributes (touch h span) !! "error").
Proof.
  intros Hh s h code size. subst s h code size.
  unfold HTTPMiddleware. rewrite Hh. cbv zeta.
  cbn [passed trace_header made].
  match goal with
  | |- context [StartSpan _ _ _ _ ?o] => set (opts := o)
  end.
  set (span := StartSpan (spanStart w) (traceRand w) (spanRand w)
                 (Req.Method r +:+ " " +:+ Req.Path r) opts).
  clearbody span. clear opts.
  set (h := next (Req.WithContext (ContextWithSpan (Req.Ctx r) (Some span))
                    r)).
  rewrite <-statusCode_last, <-written_sum.
  unfold Metrics.RecordDuration, Metrics.Increment, Metrics.Counter,
    Metrics.record. rewrite !mergeTags2_one. unfold End_.
  exists span. eexists _, _, _.
  split; [reflexivity|]. split; [reflexivity|].
  cbn [MetricData.Tags default].
  destruct (Z.leb_spec 400 (statusCode (writes h))) as [Hge|Hlt];
    cbn [End_data SpanData.Attributes SpanData.Status SpanData.StatusMessage
         SetAttribute SetStatus Span.Attributes Span.Status Span.StatusMsg];
    (split; [by simplify_map_eq|]); (split; [by simplify_map_eq|]);
    (split; [by simplify_map_eq|]); (split; [by simplify_map_eq|]);
    split; intros ?; try lia; repeat split; by simplify_map_eq.
Qed.

Lemma HTTPMiddleware_marks_failed_requests_witness :
  health (Req.Path demo_req) = false ∧
  let s := HTTPMiddleware (client demo_new) demo_handler demo_readings
                          demo_req in
  ∃ sd m1 m2,
    made s = [OpAddSpan sd; OpAddMetric m1; OpAddMetric m2] ∧
    SpanData.Status sd = SpanStatusError ∧
    SpanData.StatusMessage sd = "HTTP 404" ∧
    SpanData.Attributes sd !! "http.response_size" = Some (AnyInt 9).
Proof.
  split; [reflexivity|].
  destruct (HTTPMiddleware_marks_failed_requests (client demo_new)
              demo_handler demo_readings demo_req eq_refl)
    as (span & sd & m1 & m2 & _ & Hmade & _ & Hsize & _ & _ & Herr & _).
  exists sd, m1, m2. split; [exact Hmade|].
  destruct Herr as (Hst & Hmsg & _); [vm_compute; discriminate|].
  split; [exact Hst|]. split; [exact Hmsg|exact Hsize].
Defined.



(** ** [Client.Test] *)

(** X18.  [Test] logs one entry at level info, with the versions of the
    SDK and of the runtime as tags, and flushes: run alone from a state
    where the mutex is free and the entry does not bring the log buffer
    to the batch size, its flush swaps out the entry, last among the
    logs, together with everything pending in the four buffers, sends
    every batch, leaves the buffers empty, and what [Test] returns is
    the last error among these sends: the error of a pending span or job,
    it may be, rather than that of the test entry. *)
Theorem Test_flushes_the_test_entry σ now go_version os arch (env : Env) :
  reachable σ → panicked σ = false → bufferMu (client σ) = None →
  Z.of_nat (length (logBuffer (client σ)) + 1)
    < Config.BatchSize (config (client σ)) →
  let t := length (threads σ) in
  let op := Test_log (client σ) now go_version os arch in
  ∃ entry σ',
    let snap :=
      mkSnapshot (logBuffer (client σ) ++ [entry]) (spanBuffer (client σ))
                 (metricBuffer (client σ)) (jobBuffer (client σ)) in
    let ds := (λ x, send (client σ) x.1 x.2 env) <$> routes snap in
    op = OpAddLog entry ∧
    LogEntry.Level entry = LogLevelInfo ∧
    LogEntry.Message entry = "OmniPulse SDK test message" ∧
    LogEntry.Tags entry
    = list_to_map [("sdk_version", AnyString Version);
                   ("go_version", AnyString go_version);
                   ("os", AnyString os); ("arch", AnyString arch)] ∧
    run ((ACall op :: steps t 4 env)
         ++ ACall OpFlush :: steps (S t) (7 + length (jobs snap)) env) σ
    = Some σ' ∧
    threads σ' !! S t = Some (TFlush (FReturn (last_error ds))) ∧
    events σ'
    = events σ ++ [EvAppend t (RLog entry); EvSwap (S t) snap]
      ++ (EvSend (S t) <$> ds) ∧
    (∀ k, buffer k (client σ') = []).
Proof.
  intros Hr Hp Hmu HB t op. subst op.
  set (entry :=
    LogEntry.mk now LogLevelInfo "OmniPulse SDK test message"
      (Config.ServiceName (config (client σ))) "" ""
      (default ∅ (mergeTags
         [list_to_map [("sdk_version", AnyString Version);
                       ("go_version", AnyString go_version);
                       ("os", AnyString os); ("arch", AnyString arch)]]))
      "").
  assert (Test_log (client σ) now go_version os arch = OpAddLog entry)
    as -> by done.
  pose proof (run_add env σ (OpAddLog entry) (RLog entry) eq_refl Hp Hmu)
    as Hadd.
  unfold after_add in Hadd. simpl append in Hadd. unfold addLog_append in Hadd.
  cbn [fst snd] in Hadd.
  assert (reached
            (set_buffers (logBuffer (client σ) ++ [entry])
               (spanBuffer (client σ)) (metricBuffer (client σ))
               (jobBuffer (client σ)) (client σ))
            (length (logBuffer
               (set_buffers (logBuffer (client σ) ++ [entry])
                  (spanBuffer (client σ)) (metricBuffer (client σ))
                  (jobBuffer (client σ)) (client σ)))) = false) as Hno.
  { unfold reached. simpl. apply Z.leb_gt. rewrite length_app. simpl. lia. }
  rewrite Hno in Hadd. fold t in Hadd.
  set (σ1 := mkSystem _ _ _ _ _ _) in Hadd.
  pose proof (reachable_run _ _ _ Hr Hadd) as Hr1.
  assert (reachable (call OpFlush σ1)) as Hr2.
  { apply (reachable_step (ACall OpFlush) σ1); [done|]. done. }
  destruct (run_flush env (call OpFlush σ1) (S t) (TFlush FLock))
    as (σ' & Hrun & _ & Hths & Hc & _ & Hev); [done|done| |done|done|].
  { simpl. replace (S t) with (length (threads σ ++ [TAdd (RLog entry) AReturn])).
    - apply fresh_lookup.
    - rewrite length_app. simpl. unfold t. lia. }
  exists entry, σ'. cbv zeta.
  split; [done|]. split; [done|]. split; [done|].
  split; [simpl; by rewrite (right_id_L ∅ (∪))|].
  split; [|split; [|split]].
  - rewrite run_app, Hadd. cbn [mbind option_bind].
    rewrite run_cons_call by done. exact Hrun.
  - rewrite Hths. simpl threads.
    replace (S t) with (length (threads σ ++ [TAdd (RLog entry) AReturn]))
      by (rewrite length_app; simpl; unfold t; lia).
    by rewrite fresh_lookup_insert.
  - rewrite Hev. simpl. by rewrite <-app_assoc.
  - intros k. rewrite Hc. by destruct k.
Qed.

Lemma Test_flushes_the_test_entry_witness :
  reachable demo_new ∧ panicked demo_new = false ∧
  bufferMu (client demo_new) = None ∧
  Z.of_nat (length (logBuffer (client demo_new)) + 1)
    < Config.BatchSize (config (client demo_new)) ∧
  ∃ entry σ',
    run ((ACall (Test_log (client demo_new) 1700000009 "go1.22" "linux"
                          "amd64") :: steps 1 4 err500)
         ++ ACall OpFlush :: steps 2 7 err500) demo_new = Some σ' ∧
    threads σ' !! 2%nat
    = Some (TFlush (FReturn
         (last_error
            ((λ x, send (client demo_new) x.1 x.2 err500)
             <$> routes (mkSnapshot [entry] [] [] []))))).
Proof.
  assert (reachable demo_new) as Hr0.
  { apply reachable_initial. exists (λ _, ""), demo_cfg2.
    vm_compute; reflexivity. }
  assert (Z.of_nat (length (logBuffer (client demo_new)) + 1)
          < Config.BatchSize (config (client demo_new))) as HB
    by (vm_compute; reflexivity).
  split; [exact Hr0|]. split; [reflexivity|]. split; [reflexivity|].
  split; [exact HB|].
  destruct (Test_flushes_the_test_entry demo_new 1700000009 "go1.22" "linux"
              "amd64" err500 Hr0 eq_refl eq_refl HB)
    as (entry & σ' & _ & _ & _ & _ & Hrun & Hth & _).
  exists entry, σ'. split; [exact Hrun|exact Hth].
Defined.

(** ** Metrics *)

(** X19.  Every method of [Metrics] makes one call of [addMetric], with
    the name and value given, the service name of the configuration, the
    tags merged and no dimensions: [Counter], [Increment] and
    [Decrement] as a counter, of 1 and -1 for the last two, [Gauge] as a
    gauge, [Histogram] and [RecordDuration] as a histogram.
    [RecordDuration] records whole milliseconds, rounded towards zero:
    for a duration that is not negative, the number of full milliseconds
    in it, so 0 for anything under a millisecond. *)
Theorem Metrics_record_one_metric c now name value duration tags :
  let metric type value :=
    OpAddMetric (MetricData.mk name type value now
                   (Config.ServiceName (config c))
                   (default ∅ (mergeTags2 tags)) ∅) in
  Metrics.Counter c now name value tags = metric MetricTypeCounter value ∧
  Metrics.Gauge c now name value tags = metric MetricTypeGauge value ∧
  Metrics.Histogram c now name value tags
  = metric MetricTypeHistogram value ∧
  Metrics.Increment c now name tags = metric MetricTypeCounter "1" ∧
  Metrics.Decrement c now name tags = metric MetricTypeCounter "-1" ∧
  (0 ≤ duration →
   ∃ ms, Metrics.RecordDuration c now name duration tags
         = metric MetricTypeHistogram (pretty ms) ∧
         ms * 1000000 ≤ duration < (ms + 1) * 1000000 ∧
         (duration < 1000000 → ms = 0)).
Proof.
  intros metric. repeat split; try done.
  intros Hd. exists (duration `quot` 1000000). split; [done|].
  rewrite Z.quot_div_nonneg by lia.
  pose proof (Z.div_mod duration 1000000).
  pose proof (Z.mod_pos_bound duration 1000000).
  split; [lia|]. intros Hlt. apply Z.div_small. lia.
Qed.

Lemma Metrics_record_one_metric_witness :
  0 ≤ 2999999 ∧
  ∃ ms, Metrics.RecordDuration (client demo_new) 1700000004 "job.run"
          2999999 []
        = OpAddMetric (MetricData.mk "job.run" MetricTypeHistogram
                         (pretty ms) 1700000004 "svc" ∅ ∅) ∧
        ms * 1000000 ≤ 2999999 < (ms + 1) * 1000000.
Proof.
  split; [lia|].
  destruct (Metrics_record_one_metric (client demo_new) 1700000004 "job.run"
              "" 2999999 []) as (_ & _ & _ & _ & _ & H).
  destruct (H ltac:(lia)) as (ms & Heq & Hms & _).
  exists ms. split; [exact Heq|exact Hms].
Defined.
